(** * RummyVision: the hand-evaluation and discard-advisory engine

    A shallow embedding of [src/server/rummy_engine.py] and the properties
    of its card codec, meld finder, deadwood evaluator, Monte Carlo
    simulator and discard advisor, followed by the corner ordering and the
    template matcher of [src/server/card_cv_server.py].

    Conventions of the embedding:
    - a Python [str] is a [string]; its characters are read as the code
      points below 256;
    - a Python [int] is a [Z], a list index a [nat];
    - a [dict] with string keys is a [gmap]; a [collections.defaultdict(list)]
      whose iteration order matters is an insertion-ordered association
      list; a [set] is a [gset];
    - a Python [float] is the rational it holds ([Q]); the deadwood scores
      are floats holding small integers and are kept in [Z]; where the
      advisor computes with floats, every operation is the exact one
      followed by the rounding to the nearest double;
    - the module-level generator behind [random.shuffle] is an explicit
      state threaded through the simulation. *)

From Stdlib Require Import ZArith QArith Qround Lqa Ascii String List Sorted Permutation Lia.
From Stdlib Require Import SpecFloat.
From stdpp Require Import base decidable option list sorting gmap strings.

Open Scope string_scope.
Open Scope list_scope.

(* The solvers of stdpp clear hypotheses by name, present or not. *)
#[local] Set Warnings "-clear-no-such-hyp".

(** ** Python built-ins used by the engine *)

Module Py.

(** [str.isspace] on one character (code points below 256). *)
Definition isspace (c : ascii) : bool :=
  let n := nat_of_ascii c in
  ((9 <=? n) && (n <=? 13))%nat || ((28 <=? n) && (n <=? 32))%nat
  || (n =? 133)%nat || (n =? 160)%nat.

Fixpoint lstrip (s : string) : string :=
  match s with
  | String c rest => if isspace c then lstrip rest else s
  | EmptyString => EmptyString
  end.

Fixpoint rstrip (s : string) : string :=
  match s with
  | String c rest =>
      match rstrip rest with
      | EmptyString => if isspace c then EmptyString else String c EmptyString
      | rest' => String c rest'
      end
  | EmptyString => EmptyString
  end.

(** [s.strip()] *)
Definition strip (s : string) : string := rstrip (lstrip s).

(** [s.split(sep)] for a separator of one character. *)
Fixpoint split (sep : ascii) (s : string) : list string :=
  match s with
  | EmptyString => [EmptyString]
  | String c rest =>
      if Ascii.eqb c sep then EmptyString :: split sep rest
      else match split sep rest with
           | part :: parts => String c part :: parts
           | [] => [String c EmptyString]
           end
  end.

(** [enumerate(l)] *)
Definition enumerate {A} (l : list A) : list (nat * A) := imap pair l.

(** Truth value of a string: the empty string is false. *)
Definition truthy (s : string) : bool :=
  match s with EmptyString => false | _ => true end.

(** [l.remove(x)]: the first occurrence goes. *)
Fixpoint remove (x : string) (l : list string) : list string :=
  match l with
  | [] => []
  | y :: l' => if String.eqb y x then l' else y :: remove x l'
  end.

(** Insertion of [x] into a list sorted by [key], before the first element
    whose key is not below the key of [x]. *)
Section Sorted.
Context {A K : Type} (key : A → K) (ltb : K → K → bool).

Fixpoint insert_asc (x : A) (l : list A) : list A :=
  match l with
  | [] => [x]
  | y :: l' => if ltb (key y) (key x) then y :: insert_asc x l' else x :: l
  end.

(** [sorted(l, key=key)]: the stable ascending sort. *)
Definition sorted (l : list A) : list A := foldr insert_asc [] l.

Fixpoint insert_desc (x : A) (l : list A) : list A :=
  match l with
  | [] => [x]
  | y :: l' => if ltb (key x) (key y) then y :: insert_desc x l' else x :: l
  end.

(** [l.sort(key=key, reverse=True)]: the stable descending sort. *)
Definition sorted_reverse (l : list A) : list A := foldr insert_desc [] l.

(** Ascending: no element is below an earlier one. *)
Definition ascending (x y : A) : Prop := ltb (key y) (key x) = false.

(** Descending: no element is above an earlier one. *)
Definition descending (x y : A) : Prop := ltb (key x) (key y) = false.
End Sorted.

End Py.

(** ** Constants *)

Definition SUITS : list string := ["hearts"; "diamonds"; "clubs"; "spades"].
Definition RANKS : list string :=
  ["A"; "2"; "3"; "4"; "5"; "6"; "7"; "8"; "9"; "10"; "J"; "Q"; "K"].

(** [{r: i+1 for i, r in enumerate(RANKS)}] *)
Definition RANK_VALUES : gmap string Z :=
  list_to_map (imap (λ i r, (r, Z.of_nat i + 1)%Z) RANKS).

(** [{r: min(i+1, 10) ...}] followed by the four assignments. *)
Definition DEADWOOD_VALUES : gmap string Z :=
  <["A" := 1%Z]> (<["K" := 10%Z]> (<["Q" := 10%Z]> (<["J" := 10%Z]>
    (list_to_map (imap (λ i r, (r, Z.min (Z.of_nat i + 1) 10)%Z) RANKS))))).

(** A parsed card: [(rank_val, suit)]. *)
Abbreviation Card := (Z * string)%type.

(** ** CardCodec *)

Definition parse_card (card_str : string) : option Card :=
  match Py.split "-" card_str with
  | [p0; p1] =>
      let rank := Py.strip p0 in
      let suit := Py.strip p1 in
      let rank_val := default 0%Z (RANK_VALUES !! rank) in
      if bool_decide (rank_val = 0%Z) || negb (bool_decide (suit ∈ SUITS))
      then None
      else Some (rank_val, suit)
  | _ => None
  end.

(** [RANKS[rank - 1]], for the rank values [parse_card] returns. *)
Definition rank_str (rank : Z) : string :=
  nth (Z.to_nat (rank - 1)) RANKS "".

(** The rendering [f"{r}-{s}"] of [build_deck]. *)
Definition token (r s : string) : string := r ++ "-" ++ s.

(** The [Rank-Suit] rendering of a parsed card: the rank string is recovered
    as the engine does it ([RANKS[rank - 1]]) and joined as in [build_deck]. *)
Definition format_card (c : Card) : string := token (rank_str c.1) c.2.

Definition build_deck : list string :=
  s ← SUITS; r ← RANKS; [token r s].

(** ** MeldFinder *)

(** The order of the sort key [(rank, suit)]: tuples compare
    lexicographically, strings by code point. *)
Definition card_ltb (c1 c2 : Card) : bool :=
  (c1.1 <? c2.1)%Z || ((c1.1 =? c2.1)%Z && String.ltb c1.2 c2.2).

(** [groups[k].append(v)] on a [defaultdict(list)]: a new key goes last. *)
Fixpoint group_append {K V} `{EqDecision K}
    (k : K) (v : V) (groups : list (K * list V)) : list (K * list V) :=
  match groups with
  | [] => [(k, [v])]
  | (k', vs) :: rest =>
      if decide (k' = k) then (k', vs ++ [v]) :: rest
      else (k', vs) :: group_append k v rest
  end.

(** The walk over the cards of one rank: one card per suit not used yet,
    stopping at four. *)
Fixpoint take_set_cards (rank : Z) (cards : list (nat * string))
    (used_suits : gset string) (set_cards : list (nat * Card)) : list (nat * Card) :=
  match cards with
  | [] => set_cards
  | (idx, suit) :: rest =>
      if decide (suit ∈ used_suits) then take_set_cards rank rest used_suits set_cards
      else
        let set_cards' := set_cards ++ [(idx, (rank, suit))] in
        if decide (4 ≤ List.length set_cards')%nat then set_cards'
        else take_set_cards rank rest ({[suit]} ∪ used_suits) set_cards'
  end.

(** The state of both phases: [(matched_indices, melds)]. *)
Abbreviation meld_state := (gset nat * list (list Card))%type.

(** One iteration of the loop over [rank_groups.items()]. *)
Definition find_sets_step (st : meld_state) (g : Z * list (nat * string)) : meld_state :=
  let '(rank, cards) := g in
  if decide (3 ≤ List.length cards)%nat then
    let suits_in_set : gset string := list_to_set (cards.*2) in
    if decide (3 ≤ size suits_in_set)%nat then
      let set_cards := take_set_cards rank cards ∅ [] in
      if decide (3 ≤ List.length set_cards)%nat
      then (list_to_set (set_cards.*1) ∪ st.1, st.2 ++ [set_cards.*2])
      else st
    else st
  else st.

(** The scan of one suit's cards, already sorted by rank; [prev] is the rank
    of [cards[i-1]]. *)
Fixpoint scan_sequences (cards : list (nat * Z)) (prev : Z)
    (current_seq : list (nat * Z)) (sequences : list (list (nat * Z)))
    : list (list (nat * Z)) :=
  match cards with
  | [] =>
      if decide (3 ≤ List.length current_seq)%nat then sequences ++ [current_seq] else sequences
  | c :: rest =>
      if decide (c.2 = prev + 1)%Z
      then scan_sequences rest c.2 (current_seq ++ [c]) sequences
      else scan_sequences rest c.2 [c]
             (if decide (3 ≤ List.length current_seq)%nat
              then sequences ++ [current_seq] else sequences)
  end.

Definition find_sequences (cards : list (nat * Z)) : list (list (nat * Z)) :=
  match cards with
  | [] => []
  | c0 :: rest => scan_sequences rest c0.2 [c0] []
  end.

(** [for seq in sequences: ...] *)
Definition add_run (suit : string) (st : meld_state) (seq : list (nat * Z)) : meld_state :=
  let run_cards := (λ c : nat * Z, (c.1, (c.2, suit))) <$> seq in
  (list_to_set (run_cards.*1) ∪ st.1, st.2 ++ [run_cards.*2]).

(** One iteration of the loop over [suit_groups.items()]. *)
Definition find_runs_step (st : meld_state) (g : string * list (nat * Z)) : meld_state :=
  let '(suit, cards) := g in
  if decide (List.length cards < 3)%nat then st
  else
    let cards := Py.sorted snd Z.ltb cards in
    foldl (add_run suit) st (find_sequences cards).

Definition sorted_hand (parsed_hand : list Card) : list (nat * Card) :=
  Py.sorted snd card_ltb (Py.enumerate parsed_hand).

Definition rank_groups (parsed_hand : list Card) : list (Z * list (nat * string)) :=
  foldl (λ groups '(idx, (rank, suit)), group_append rank (idx, suit) groups)
        [] (sorted_hand parsed_hand).

(** Phase 1: sets. *)
Definition find_sets (parsed_hand : list Card) : meld_state :=
  foldl find_sets_step (∅, []) (rank_groups parsed_hand).

Definition suit_groups (parsed_hand : list Card) (matched_indices : gset nat)
    : list (string * list (nat * Z)) :=
  foldl (λ groups '(idx, (rank, suit)),
           if decide (idx ∈ matched_indices) then groups
           else group_append suit (idx, rank) groups)
        [] (sorted_hand parsed_hand).

(** Phase 2: runs, over the cards phase 1 left unmatched. *)
Definition find_runs (parsed_hand : list Card) (st : meld_state) : meld_state :=
  foldl find_runs_step st (suit_groups parsed_hand st.1).

Definition find_melds (parsed_hand : list Card) : meld_state :=
  match parsed_hand with
  | [] => (∅, [])
  | _ => find_runs parsed_hand (find_sets parsed_hand)
  end.

(** ** DeadwoodEvaluator *)

(** The scores are floats holding small integers; they are kept in [Z]. *)
Definition calculate_deadwood (hand : list string) : Z :=
  let parsed_hand := omap parse_card hand in
  match parsed_hand with
  | [] => 0%Z
  | _ =>
      let matched_indices := (find_melds parsed_hand).1 in
      foldl (λ (score : Z) '(i, (rank, suit)),
               if decide (i ∈ matched_indices) then score
               else (score + default 10 (DEADWOOD_VALUES !! rank_str rank))%Z)
            0%Z (Py.enumerate parsed_hand)
  end.

(** ** MonteCarloSimulator *)

Inductive error_detail :=
| InvalidCardFormats (invalid_cards : list string)
| DuplicateCards
| NoUnknownCards
| InternalServerError
| RequestValidationError.

Inductive exn :=
| ZeroDivisionError
| HTTPException (status_code : Z) (detail : error_detail).

Inductive result (A : Type) :=
| Ok (a : A)
| Raise (e : exn).
Arguments Ok {A} a.
Arguments Raise {A} e.

(** [dw < best_after_draw], where [None] is [float('inf')]. *)
Definition lt_inf (dw : Z) (best : option Z) : bool :=
  match best with
  | None => true
  | Some b => bool_decide (dw < b)%Z
  end.

(** [[c for c in hand if c != card]] *)
Definition without (card : string) (hand : list string) : list string :=
  filter (λ c, c ≠ card) hand.

(** The loop over [card_to_try_discarding]:
    [(best_after_draw, best_discard_card)]. *)
Definition try_discards (current_hand : list string) : option Z * option string :=
  foldl (λ '(best_after_draw, best_discard_card) card_to_try_discarding,
           let test_hand := without card_to_try_discarding current_hand in
           let dw := calculate_deadwood test_hand in
           if lt_inf dw best_after_draw
           then (Some dw, Some card_to_try_discarding)
           else (best_after_draw, best_discard_card))
        (None, None) current_hand.

(** The state of one trial: [(current_hand, best_deadwood, improvements)];
    [improvements] is the counter shared by all trials. *)
Abbreviation trial_state := (list string * Z * Z)%type.

(** The body of the loop over [draw_num], for the card drawn. *)
Definition draw (initial_deadwood : Z) (st : trial_state) (drawn : string) : trial_state :=
  let '(current_hand, best_deadwood, improvements) := st in
  let current_hand := current_hand ++ [drawn] in
  let revert := (Py.remove drawn current_hand, best_deadwood, improvements) in
  match try_discards current_hand with
  | (Some best_after_draw, Some best_discard_card) =>
      if bool_decide (best_after_draw < best_deadwood)%Z && Py.truthy best_discard_card
      then (without best_discard_card current_hand,
            best_after_draw,
            if decide (best_after_draw < initial_deadwood)%Z
            then (improvements + 1)%Z else improvements)
      else revert
  | _ => revert
  end.

(** [range(min(max_draws, len(deck_copy)))] *)
Definition draw_range (max_draws : Z) (deck_copy : list string) : list nat :=
  seq 0 (Z.to_nat (Z.min max_draws (Z.of_nat (List.length deck_copy)))).

(** One trial on a shuffled deck: [(best_deadwood, improvements)]. *)
Definition trial (hand deck_copy : list string) (max_draws initial_deadwood : Z)
    (improvements : Z) : Z * Z :=
  let st :=
    foldl (λ st draw_num,
             match deck_copy !! draw_num with
             | Some drawn => draw initial_deadwood st drawn
             | None => st
             end)
          (hand, initial_deadwood, improvements) (draw_range max_draws deck_copy) in
  (st.1.2, st.2).

Section Simulator.
(** The generator behind [random.shuffle]: its state, and the shuffle of a
    list in that state. *)
Context {G : Type} (shuffle : list string → G → list string * G).

(** [n] iterations of the loop over the trials, from the totals [acc]. *)
Fixpoint run_trials (n : nat) (hand unknown_deck : list string)
    (max_draws initial_deadwood : Z) (acc : Z * Z) (g : G) : Z * Z * G :=
  match n with
  | O => (acc, g)
  | S n' =>
      let '(deck_copy, g') := shuffle unknown_deck g in
      let '(best_deadwood, improvements) :=
        trial hand deck_copy max_draws initial_deadwood acc.2 in
      run_trials n' hand unknown_deck max_draws initial_deadwood
                 ((acc.1 + best_deadwood)%Z, improvements) g'
  end.

Definition simulate_game (hand unknown_deck : list string) (trials max_draws : Z)
    (g : G) : result (Q * Q) * G :=
  match unknown_deck with
  | [] => (Ok (inject_Z (calculate_deadwood hand), 0%Q), g)
  | _ =>
      let initial_deadwood := calculate_deadwood hand in
      let '(total_deadwood, improvements, g') :=
        run_trials (Z.to_nat trials) hand unknown_deck max_draws initial_deadwood
                   (0%Z, 0%Z) g in
      if decide (trials = 0%Z) then (Raise ZeroDivisionError, g')
      else (Ok ((inject_Z total_deadwood / inject_Z trials)%Q,
                (inject_Z improvements / inject_Z trials)%Q), g')
  end.

End Simulator.

(** ** ConfidenceClassifier and DiscardAdvisor *)

Definition Qltb (a b : Q) : bool := negb (Qle_bool b a).

(** [min(a, b)] and [max(a, b)]: the first argument wins a tie. *)
Definition py_min (a b : Q) : Q := if Qltb b a then b else a.
Definition py_max (a b : Q) : Q := if Qltb a b then b else a.

(** To the nearest integer, halves to the even one. *)
Definition round_half_even (q : Q) : Z :=
  let f := Qfloor q in
  match ((q - inject_Z f) ?= 1 # 2)%Q with
  | Lt => f
  | Gt => (f + 1)%Z
  | Eq => if Z.even f then f else (f + 1)%Z
  end.

(** *** Doubles

    A finite [float] is the rational it holds; [0.0] and [-0.0] are one
    value. An operation on floats is the exact operation followed by
    [round_double], the rounding of IEEE 754 binary64 to the nearest double,
    ties to the even mantissa, subnormals included. The magnitudes of the
    advisor are at most ten points a card of the hand, far below [2 ^ 1024]:
    no operation overflows and none gives a NaN. *)

(** [2 ^ e] *)
Definition pow2 (e : Z) : Q :=
  if decide (0 ≤ e)%Z then inject_Z (2 ^ e) else 1 # Z.to_pos (2 ^ (- e)).

(** The integer part of the binary logarithm of [|q|], for [q] other than
    0: [2 ^ Qlog2 q ≤ |q| < 2 ^ (Qlog2 q + 1)]. *)
Definition Qlog2 (q : Q) : Z :=
  let n := Z.abs (Qnum q) in
  let d := Z.pos (Qden q) in
  let k := (Z.log2 n - Z.log2 d)%Z in
  if (if decide (0 ≤ k)%Z then d * 2 ^ k <=? n else d <=? n * 2 ^ (- k))%Z
  then k else (k - 1)%Z.

(** The double nearest to [q]: the multiple of [2 ^ e] nearest to [q], where
    [2 ^ e] is the gap between the doubles around [q] (53 bits of mantissa,
    least exponent -1074). *)
Definition round_double (q : Q) : Q :=
  if decide (Qnum q = 0)%Z then 0%Q
  else
    let e := Z.max (Qlog2 q - 52) (-1074) in
    Qred (inject_Z (round_half_even (q / pow2 e)) * pow2 e).

(** The same values in the Standard Library's specification of IEEE 754,
    to compare [round_double] with: the binary64 float of an integer, and
    the rational a finite float holds. *)
Definition SF_of_Z (z : Z) : spec_float := binary_normalize 53 1024 z 0 false.

Definition SF_value (x : spec_float) : Q :=
  match x with
  | S754_finite s m e => Qred ((if s then -1 else 1) * inject_Z (Z.pos m) * pow2 e)
  | _ => 0
  end.

(** [a + b], [a - b], [a * b] and [a / b] on floats. *)
Definition fadd (a b : Q) : Q := round_double (a + b).
Definition fsub (a b : Q) : Q := round_double (a - b).
Definition fmul (a b : Q) : Q := round_double (a * b).
Definition fdiv (a b : Q) : Q := round_double (a / b).

(** A decimal literal of the source: the double nearest to it. *)
Definition literal (q : Q) : Q := round_double q.

(** [round(x, 2)] on a float: the decimal with two places nearest to the
    value the float holds, halves to the even one, then the double nearest
    to that decimal. *)
Definition round2 (x : Q) : Q :=
  round_double (inject_Z (round_half_even (x * 100)) / 100).

Definition get_confidence_level (prob : Q) (trials : Z) : string :=
  if decide (500 ≤ trials)%Z then
    if Qle_bool (literal (7 # 10)) prob then "high"
    else if Qle_bool (literal (4 # 10)) prob then "medium" else "low"
  else if decide (200 ≤ trials)%Z then
    if Qle_bool (literal (75 # 100)) prob then "high"
    else if Qle_bool (literal (45 # 100)) prob then "medium" else "low"
  else
    if Qle_bool (literal (8 # 10)) prob then "high"
    else if Qle_bool (literal (5 # 10)) prob then "medium" else "low".

Record SuggestRequest := {
  my_hand : list string;
  visible : list string;
  trials : Z;
  max_draws : Z
}.

Record DiscardSuggestion := {
  card : string;
  win_probability : Q;
  expected_deadwood : Q;
  confidence : string
}.

Record SuggestResponse := {
  suggestions : list DiscardSuggestion;
  current_deadwood : Q;
  message : option string
}.

(** The constraints of the request model: the hand has 1 to 13 tokens,
    [trials] is in 50..2000, [max_draws] in 1..10. *)
Definition request_valid (request : SuggestRequest) : bool :=
  bool_decide (1 ≤ List.length (my_hand request) ≤ 13)%nat
  && bool_decide (50 ≤ trials request ≤ 2000)%Z
  && bool_decide (1 ≤ max_draws request ≤ 10)%Z.

(** The sort key [(x.win_probability, -x.expected_deadwood)] and the order
    of such pairs. *)
Definition suggestion_key (x : DiscardSuggestion) : Q * Q :=
  (win_probability x, (- expected_deadwood x)%Q).

Definition key_ltb (k1 k2 : Q * Q) : bool :=
  Qltb k1.1 k2.1 || (Qeq_bool k1.1 k2.1 && Qltb k1.2 k2.2).

Definition low_probability_message : string :=
  "All discard options show low win probability. Consider your current hand carefully.".

Section Advisor.
Context {G : Type} (shuffle : list string → G → list string * G).

(** The suggestion built for one candidate from the two floats of its
    simulation. *)
Definition make_suggestion (request : SuggestRequest) (current_deadwood : Z)
    (card_to_discard : string) (avg_deadwood win_prob : Q) : DiscardSuggestion :=
  let normalized_prob :=
    if decide (0 < current_deadwood)%Z
    then fmul win_prob
           (fsub 1 (py_min (fdiv avg_deadwood (fadd (inject_Z current_deadwood) 1)) 1))
    else win_prob in
  {| card := card_to_discard;
     win_probability := py_min (py_max normalized_prob 0) 1;
     expected_deadwood := round2 avg_deadwood;
     confidence := get_confidence_level normalized_prob (trials request) |}.

(** The loop over [card_to_discard]; an exception of a simulation ends it.
    [simulate_game] gives its two quotients as exact rationals; the floats
    the code holds are the doubles nearest to them (the totals and the
    number of trials of a request are far below [2 ^ 53]). *)
Fixpoint suggest_loop (request : SuggestRequest) (unknown_deck : list string)
    (current_deadwood : Z) (cards : list string) (results : list DiscardSuggestion)
    (g : G) : result (list DiscardSuggestion) * G :=
  match cards with
  | [] => (Ok results, g)
  | card_to_discard :: rest =>
      let remaining_hand := without card_to_discard (my_hand request) in
      match simulate_game shuffle remaining_hand unknown_deck
                          (trials request) (max_draws request) g with
      | (Ok (avg_deadwood, win_prob), g') =>
          let avg_deadwood := round_double avg_deadwood in
          let win_prob := round_double win_prob in
          suggest_loop request unknown_deck current_deadwood rest
            (results ++ [make_suggestion request current_deadwood card_to_discard
                                         avg_deadwood win_prob]) g'
      | (Raise e, g') => (Raise e, g')
      end
  end.

(** [[c for c in full_deck if c not in my_hand_set and c not in visible_set]] *)
Definition unknown_deck_of (my_hand_set visible_set : gset string) : list string :=
  filter (λ c, (c ∉ my_hand_set) ∧ (c ∉ visible_set)) build_deck.

(** The body of the handler. The warning logged for unparseable visible
    tokens has no effect on the result and is left out. *)
Definition suggest_discard (request : SuggestRequest) (g : G)
    : result SuggestResponse * G :=
  let my_hand := my_hand request in
  let visible : gset string := list_to_set (visible request) in
  let parsed_hand := parse_card <$> my_hand in
  let invalid_cards :=
    (filter (λ cp : string * option Card, cp.2 = None) (zip my_hand parsed_hand)).*1 in
  match invalid_cards with
  | _ :: _ => (Raise (HTTPException 400 (InvalidCardFormats invalid_cards)), g)
  | [] =>
      let my_hand_set : gset string := list_to_set my_hand in
      if decide (List.length my_hand ≠ size my_hand_set)
      then (Raise (HTTPException 400 DuplicateCards), g)
      else
        let unknown_deck := unknown_deck_of my_hand_set visible in
        if decide (List.length unknown_deck = 0)%nat
        then (Raise (HTTPException 400 NoUnknownCards), g)
        else
          let current_deadwood := calculate_deadwood my_hand in
          match suggest_loop request unknown_deck current_deadwood my_hand [] g with
          | (Raise (HTTPException s d), g') => (Raise (HTTPException s d), g')
          | (Raise _, g') => (Raise (HTTPException 500 InternalServerError), g')
          | (Ok results, g') =>
              let results := Py.sorted_reverse suggestion_key key_ltb results in
              let message :=
                match results with
                | first :: _ =>
                    if Qltb (win_probability first) (literal (3 # 10))
                    then Some low_probability_message else None
                | [] => None
                end in
              (Ok {| suggestions := results;
                     current_deadwood := round2 (inject_Z current_deadwood);
                     message := message |}, g')
          end
  end.

(** The endpoint: the request model is checked before the handler runs. *)
Definition post_suggest (request : SuggestRequest) (g : G)
    : result SuggestResponse * G :=
  if request_valid request then suggest_discard request g
  else (Raise (HTTPException 422 RequestValidationError), g).

End Advisor.

(** ** A random source to run the model with

    The generator is a tape of raw draws; an exhausted tape deals 0. The
    shuffle is the one of the [random] module: for [i] from the last index
    down to 1, swap [x[i]] with [x[j]], [j] drawn below [i + 1]. *)
Module Tape.

Definition randbelow (n : nat) (tape : list nat) : nat * list nat :=
  match tape with
  | [] => (0, [])
  | x :: tape' => (x mod n, tape')
  end.

Definition swap (x : list string) (i j : nat) : list string :=
  match x !! i, x !! j with
  | Some xi, Some xj => <[i := xj]> (<[j := xi]> x)
  | _, _ => x
  end.

Fixpoint shuffle_from (i : nat) (x : list string) (tape : list nat)
    : list string * list nat :=
  match i with
  | O => (x, tape)
  | S i' =>
      let '(j, tape') := randbelow (S i) tape in
      shuffle_from i' (swap x i j) tape'
  end.

Definition shuffle (x : list string) (tape : list nat) : list string * list nat :=
  shuffle_from (List.length x - 1) x tape.

End Tape.

(** ** The specification's vocabulary *)

(** DeadwoodValue, as the specification gives it: the Ace counts 1, the
    ranks 2 to 9 their face value, 10 and the court cards 10. *)
Definition DeadwoodValue (rank : Z) : Z :=
  if decide (rank = 1)%Z then 1%Z
  else if decide (2 ≤ rank ≤ 9)%Z then rank
  else 10%Z.

Definition Zsum (l : list Z) : Z := foldr Z.add 0%Z l.

(** The cards of a parsed hand whose index MeldFinder left unmatched. *)
Definition unmatched_cards (parsed_hand : list Card) : list Card :=
  (filter (λ ic : nat * Card, ic.1 ∉ (find_melds parsed_hand).1)
          (Py.enumerate parsed_hand)).*2.

(** The parseable cards of a list of tokens. *)
Definition parseable (hand : list string) : list Card := omap parse_card hand.

(** The tokens of a hand that do not parse. *)
Definition unparseable (hand : list string) : list string :=
  filter (λ t, parse_card t = None) hand.

(** The order of two suggestions in the ranked list: the win probability
    does not increase, and with equal win probabilities the expected
    deadwood does not decrease. *)
Definition in_suggestion_order (x y : DiscardSuggestion) : Prop :=
  (win_probability y <= win_probability x)%Q
  ∧ (win_probability x == win_probability y →
     expected_deadwood x <= expected_deadwood y)%Q.

(** ** Vocabulary of the MeldFinder proofs *)

(** The entries of the groups, each with its key. *)
Definition flat {K V} (groups : list (K * list V)) : list (K * V) :=
  groups ≫= (λ g, pair g.1 <$> g.2).

(** The values entered under the key [k], in their order. *)
Definition entries {K V} `{EqDecision K} (k : K) (l : list (K * V)) : list V :=
  omap (λ kv : K * V, if decide (kv.1 = k) then Some kv.2 else None) l.

(** The groups a loop of [group_append] builds from the entries [l]. *)
Definition groups_of {K V} `{EqDecision K} (l : list (K * V)) : list (K * list V) :=
  foldl (λ groups kv, group_append kv.1 kv.2 groups) [] l.

(** The entry a card of the sorted hand makes in [rank_groups], and the
    card an entry of the group of [rank] stands for. *)
Definition by_rank (ic : nat * Card) : Z * (nat * string) := (ic.2.1, (ic.1, ic.2.2)).
Definition of_rank (rank : Z) (c : nat * string) : nat * Card := (c.1, (rank, c.2)).

(** The same for [suit_groups]. *)
Definition by_suit (ic : nat * Card) : string * (nat * Z) := (ic.2.2, (ic.1, ic.2.1)).
Definition of_suit (suit : string) (c : nat * Z) : nat * Card := (c.1, (c.2, suit)).

(** What one iteration of a phase adds: the melds with the hand index of
    every card ([set_cards], [run_cards]). *)
Definition emit (st : meld_state) (picks : list (list (nat * Card))) : meld_state :=
  (list_to_set (concat picks).*1 ∪ st.1, st.2 ++ ((λ p : list (nat * Card), p.*2) <$> picks)).

Definition set_pick (g : Z * list (nat * string)) : list (list (nat * Card)) :=
  if decide (3 ≤ List.length g.2)%nat then
    if decide (3 ≤ size (list_to_set (C := gset string) (g.2.*2)))%nat then
      let set_cards := take_set_cards g.1 g.2 ∅ [] in
      if decide (3 ≤ List.length set_cards)%nat then [set_cards] else []
    else []
  else [].

Definition run_pick (g : string * list (nat * Z)) : list (list (nat * Card)) :=
  if decide (List.length g.2 < 3)%nat then []
  else (λ seq : list (nat * Z), of_suit g.1 <$> seq) <$> find_sequences (Py.sorted snd Z.ltb g.2).

(** The indexed melds of phase 1 and of phase 2. *)
Definition set_picks (parsed_hand : list Card) : list (list (nat * Card)) :=
  rank_groups parsed_hand ≫= set_pick.

Definition run_picks (parsed_hand : list Card) : list (list (nat * Card)) :=
  suit_groups parsed_hand (find_sets parsed_hand).1 ≫= run_pick.

(** Every group holds the entries of its key, in their order, and every key
    with an entry has a group. *)
Definition grouped {K V} `{EqDecision K} (G : list (K * list V)) (l : list (K * V)) : Prop :=
  NoDup G.*1
  ∧ (∀ k vs, (k, vs) ∈ G → vs = entries k l ∧ vs ≠ [])
  ∧ (∀ k, k ∉ G.*1 → entries k l = []).

(** [s] is a block of [l]: consecutive elements of [l] whose ranks go up by
    one from [r], with no element of rank [r - 1] right before it and none of
    the next rank right after it. *)
Definition block (l s : list (nat * Z)) (r : Z) : Prop :=
  ∃ pre post,
    l = pre ++ s ++ post
    ∧ s.*2 = seqZ r (Z.of_nat (List.length s))
    ∧ (∀ x, last pre = Some x → (x.2 + 1)%Z ≠ r)
    ∧ (∀ y, head post = Some y → y.2 ≠ (r + Z.of_nat (List.length s))%Z).


(** A card of the hand at an index phase 1 left unmatched. *)
Definition left_by_sets (parsed_hand : list Card) (c : Card) : Prop :=
  ∃ i, parsed_hand !! i = Some c ∧ i ∉ (find_sets parsed_hand).1.

(** The [k] cards of [suit] from rank [r] upwards. *)
Definition run_from (suit : string) (r k : Z) : list Card :=
  (λ x, (x, suit)) <$> seqZ r k.

(** A meld that is a whole block of consecutive ranks of one suit among the
    cards phase 1 left unmatched. *)
Definition maximal_run (parsed_hand : list Card) (m : list Card) : Prop :=
  ∃ suit r k,
    (3 ≤ k)%Z ∧ m = run_from suit r k
    ∧ (∀ c, c ∈ m → left_by_sets parsed_hand c)
    ∧ ¬ left_by_sets parsed_hand ((r - 1)%Z, suit)
    ∧ ¬ left_by_sets parsed_hand ((r + k)%Z, suit).


(** A meld holding a King and an Ace. *)
Definition has_king_and_ace (m : list Card) : Prop :=
  ∃ s1 s2, (13%Z, s1) ∈ m ∧ (1%Z, s2) ∈ m.

(** The Ace is low: in the meld no Ace comes after a King. *)
Definition ace_low (m : list Card) : Prop :=
  ∀ i j s1 s2, m !! i = Some (13%Z, s1) → m !! j = Some (1%Z, s2) → j < i.

(** The suit names in the order of their strings, the order in which the
    sorted hand lists the cards of one rank. *)
Definition SUITS_BY_NAME : list string := ["clubs"; "diamonds"; "hearts"; "spades"].

(** The walk of the specification: the suits in [order] that hold a card of
    [rank] in the hand, and the set they give: one card per suit, up to
    four. *)
Definition suits_present (order : list string) (rank : Z) (parsed_hand : list Card)
    : list string :=
  filter (λ s, (rank, s) ∈ parsed_hand) order.

Definition spec_set (order : list string) (rank : Z) (parsed_hand : list Card)
    : list Card :=
  pair rank <$> take 4 (suits_present order rank parsed_hand).

(** The answer of [GET /deck/validate]. *)
Inductive validate_response :=
| ValidCard (rank suit : string) (deadwood_value : Z)
| InvalidCard (message : string).

Definition validate_card (card : string) : validate_response :=
  match parse_card card with
  | Some (rank_val, suit) =>
      ValidCard (rank_str rank_val) suit
                (default 10%Z (DEADWOOD_VALUES !! rank_str rank_val))
  | None => InvalidCard "Invalid card format. Expected 'Rank-Suit' (e.g., 'A-hearts')"
  end.

(** The number of occurrences of a character in a string. *)
Fixpoint count_char (c : ascii) (s : string) : nat :=
  match s with
  | EmptyString => 0
  | String c' s' => (if Ascii.eqb c' c then 1 else 0) + count_char c s'
  end.

(** The three confidence labels. *)
Definition CONFIDENCE_LEVELS : list string := ["high"; "medium"; "low"].

(** What every suggestion satisfies: a win probability between 0 and 1 and
    one of the three labels. *)
Definition well_formed_suggestion (x : DiscardSuggestion) : Prop :=
  (0 <= win_probability x)%Q ∧ (win_probability x <= 1)%Q
  ∧ confidence x ∈ CONFIDENCE_LEVELS.

(** The labels in their order: low, medium, high. *)
Definition confidence_rank (level : string) : nat :=
  if decide (level = "high") then 2
  else if decide (level = "medium") then 1 else 0.

(** A set: three or four cards of one rank in pairwise distinct suits. *)
Definition is_set (m : list Card) : Prop :=
  ∃ (rank : Z) (suits : list string),
    m = pair rank <$> suits ∧ (3 ≤ List.length suits ≤ 4)%nat ∧ NoDup suits.

(** A run: at least three cards of one suit, the ranks going up by one. *)
Definition is_run (m : list Card) : Prop :=
  ∃ suit r k, (3 ≤ k)%Z ∧ m = run_from suit r k.

(** The suggestions whose sort key is the pair of [win_probability] and
    [expected_deadwood]. *)
Definition same_key (wp ed : Q) (x : DiscardSuggestion) : Prop :=
  (win_probability x == wp)%Q ∧ (expected_deadwood x == ed)%Q.

#[global] Instance same_key_dec (wp ed : Q) (x : DiscardSuggestion) :
  Decision (same_key wp ed x).
Proof.
  unfold same_key.
  destruct (Qeq_dec (win_probability x) wp);
    destruct (Qeq_dec (expected_deadwood x) ed);
    solve [left; done | right; intros [? ?]; done].
Defined.

(** ** The card recogniser ([src/server/card_cv_server.py])

    OpenCV is not embedded: an image is an element of an abstract type, the
    calls into [cv2] are the parameters of the sections below, and each of
    them may raise. A score is the rational it stands for, so no score is
    a NaN. *)
Module CardCV.

(** What a call into [cv2] does: it returns, raises [cv2.error], or raises
    another exception. *)
Inductive outcome (A : Type) :=
| Returns (a : A)
| CvError
| OtherException.
Arguments Returns {A} a.
Arguments CvError {A}.
Arguments OtherException {A}.

(** A point of a contour, [(x, y)], and [int32], the type of its
    coordinates. *)
Definition Point : Type := Z * Z.

Definition int32 (z : Z) : Z := ((z + 2 ^ 31) mod 2 ^ 32 - 2 ^ 31)%Z.

(** [np.argmin] and [np.argmax] of a vector: the first index of its least
    and of its greatest entry. [arg_first] scans [v], whose first entry has
    index [i], with the best entry so far and its index. *)
Fixpoint arg_first (better : Z → Z → bool) (v : list Z) (i best_i : nat) (best : Z)
    : nat :=
  match v with
  | [] => best_i
  | x :: v' =>
      if better x best then arg_first better v' (S i) i x
      else arg_first better v' (S i) best_i best
  end.

Definition argmin (v : list Z) : nat :=
  match v with
  | [] => 0%nat
  | x :: v' => arg_first Z.ltb v' 1 0 x
  end.

Definition argmax (v : list Z) : nat :=
  match v with
  | [] => 0%nat
  | x :: v' => arg_first Z.gtb v' 1 0 x
  end.

(** The corners in the order [warp_card] gives them, [rect]: the point of
    least [x + y], of least [y - x], of greatest [x + y], of greatest
    [y - x]. [pts.sum(axis=1)] adds in 64 bits, [np.diff(pts, axis=1)]
    subtracts in the 32 bits of the contour. [rect] is an array of
    [float32], which holds a coordinate below [2 ^ 24] as it is. *)
Definition rect_of (pts : list Point) : list Point :=
  let s := (λ p : Point, (p.1 + p.2)%Z) <$> pts in
  let diff := (λ p : Point, int32 (p.2 - p.1)) <$> pts in
  (λ i : nat, pts !!! i) <$> [argmin s; argmin diff; argmax s; argmax diff].

Section Warp.
Context {Image Matrix : Type} (CARD_WIDTH CARD_HEIGHT : Z).
Context (getPerspectiveTransform : list Point → list Point → outcome Matrix).
Context (warpPerspective : Image → Matrix → Z * Z → outcome Image).

Definition warp_card (img : Image) (contour : list Point) : option Image :=
  if decide (List.length contour ≠ 4%nat) then None
  else
    let pts := contour in
    let rect := rect_of pts in
    let dst := [(0, 0); (CARD_WIDTH - 1, 0); (CARD_WIDTH - 1, CARD_HEIGHT - 1);
                (0, CARD_HEIGHT - 1)]%Z in
    match getPerspectiveTransform rect dst with
    | Returns M =>
        match warpPerspective img M (CARD_WIDTH, CARD_HEIGHT) with
        | Returns warped => Some warped
        | _ => None
        end
    | _ => None
    end.
End Warp.

Section Matcher.
Context {Image : Type}.
(** [a.size] and, of a 2-D array, [a.shape]. *)
Context (size : Image → Z) (shape : Image → Z * Z).
(** The conversion of a region to gray and its threshold. *)
Context (threshold : Image → outcome Image).
(** [cv2.resize(template, None, fx=scale, fy=scale, ...)]. *)
Context (resize : Image → Q → outcome Image).
(** [max_val] of [cv2.minMaxLoc(cv2.matchTemplate(roi_thresh, t, ...))]. *)
Context (matchTemplate : Image → Image → outcome Q).

(** One turn of the loop over [templates.items()]: the best match after it,
    and whether the loop goes on. An exception that is no [cv2.error], or
    one outside the inner [try], ends the loop with the best match so
    far. *)
Definition match_one (roi_thresh : Image) (name : string) (template : option Image)
    (best : string * Q) : (string * Q) * bool :=
  let continue := (best, true) in
  let stop := (best, false) in
  match template with
  | None => continue
  | Some template =>
      if decide (size template = 0)%Z then continue
      else
        let '(r_h, r_w) := shape roi_thresh in
        let fit (scaled_template : Image) :=
          let '(t_h, t_w) := shape scaled_template in
          if decide (t_h > r_h ∨ t_w > r_w)%Z then continue
          else
            match matchTemplate roi_thresh scaled_template with
            | Returns max_val =>
                if Qltb best.2 max_val then ((name, max_val), true) else continue
            | CvError => continue
            | OtherException => stop
            end in
        let '(t_h, t_w) := shape template in
        if decide (t_h > r_h ∨ t_w > r_w)%Z then
          if decide (t_h = 0 ∨ t_w = 0)%Z then stop
          else
            let scale := py_min (inject_Z r_h / inject_Z t_h)
                                (inject_Z r_w / inject_Z t_w) in
            if Qltb scale (1 # 2) then continue
            else
              match resize template scale with
              | Returns scaled_template => fit scaled_template
              | _ => stop
              end
        else fit template
  end.

Fixpoint match_loop (roi_thresh : Image) (templates : list (string * option Image))
    (best : string * Q) : string * Q :=
  match templates with
  | [] => best
  | (name, template) :: rest =>
      match match_one roi_thresh name template best with
      | (best, true) => match_loop roi_thresh rest best
      | (best, false) => best
      end
  end.

Definition match_template (roi : option Image) (templates : list (string * option Image))
    (min_score : Q) : string * Q :=
  let best_name := "Unknown" in
  let best_score := min_score in
  match templates, roi with
  | [], _ | _, None => (best_name, best_score)
  | _, Some roi =>
      if decide (size roi = 0)%Z then (best_name, best_score)
      else
        match threshold roi with
        | Returns roi_thresh =>
            let '(r_h, r_w) := shape roi_thresh in
            if decide (r_h = 0 ∨ r_w = 0)%Z then (best_name, best_score)
            else match_loop roi_thresh templates (best_name, best_score)
        | _ => (best_name, best_score)
        end
  end.

Record CardResult := {
  rank : string;
  rank_score : Q;
  suit : string;
  suit_score : Q
}.

(** [CardResult(rank=..., rank_score=..., suit=..., suit_score=...)]: the
    model has [ge=0.0, le=1.0] on both scores and raises a validation error
    for a score outside. *)
Definition new_CardResult (rank : string) (rank_score : Q) (suit : string)
    (suit_score : Q) : outcome CardResult :=
  if Qle_bool 0 rank_score && Qle_bool rank_score 1
     && Qle_bool 0 suit_score && Qle_bool suit_score 1
  then Returns {| rank := rank; rank_score := rank_score;
                  suit := suit; suit_score := suit_score |}
  else OtherException.

(** The step of [recognize_cards] that matches the two regions of a corner
    and keeps or rejects the card; the [except] around the body of the loop
    drops the card whose [CardResult] raises. *)
Definition card_result (rank_templates suit_templates : list (string * option Image))
    (MIN_RANK_SCORE MIN_SUIT_SCORE : Q) (rank_roi suit_roi : Image)
    : option CardResult :=
  let '(rank, rank_score) := match_template (Some rank_roi) rank_templates MIN_RANK_SCORE in
  let '(suit, suit_score) := match_template (Some suit_roi) suit_templates MIN_SUIT_SCORE in
  if Qle_bool MIN_RANK_SCORE rank_score && Qle_bool MIN_SUIT_SCORE suit_score
  then
    match new_CardResult rank rank_score suit suit_score with
    | Returns result => Some result
    | _ => None
    end
  else None.
End Matcher.

End CardCV.

(** An indexed entry with its index renamed. *)
Definition retag {A} (ρ : nat → nat) (x : nat * A) : nat * A := (ρ x.1, x.2).

(** The renaming that sends the entries of [l] to the entries of [l'] at the
    same positions. *)
Fixpoint relabel (l l' : list nat) (x : nat) : nat :=
  match l, l' with
  | i :: l, i' :: l' => if decide (x = i) then i' else relabel l l' x
  | _, _ => x
  end.

(** * Properties *)

Example parse_ten : parse_card "10-diamonds" = Some (10%Z, "diamonds").
Proof. vm_compute. reflexivity. Qed.
Example parse_padded : parse_card " A - hearts " = Some (1%Z, "hearts").
Proof. vm_compute. reflexivity. Qed.
Example parse_bad_rank : parse_card "Z-hearts" = None.
Proof. vm_compute. reflexivity. Qed.
Example parse_bad_case : parse_card "A-Hearts" = None.
Proof. vm_compute. reflexivity. Qed.
Example parse_three_parts : parse_card "A-hearts-x" = None.
Proof. vm_compute. reflexivity. Qed.
Example build_deck_52 : List.length build_deck = 52%nat.
Proof. vm_compute. reflexivity. Qed.

Example melds_run : find_melds [(1%Z, "hearts"); (2%Z, "hearts"); (3%Z, "hearts")]
  = ({[0; 1; 2]}, [[(1%Z, "hearts"); (2%Z, "hearts"); (3%Z, "hearts")]]).
Proof. vm_compute. reflexivity. Qed.
Example deadwood_empty : calculate_deadwood [] = 0%Z.
Proof. reflexivity. Qed.
Example deadwood_full_run : calculate_deadwood ["A-hearts"; "2-hearts"; "3-hearts"] = 0%Z.
Proof. vm_compute. reflexivity. Qed.
Example deadwood_set_leftover :
  calculate_deadwood ["K-hearts"; "K-diamonds"; "K-clubs"; "2-spades"] = 2%Z.
Proof. vm_compute. reflexivity. Qed.
Example deadwood_advisor_scenario :
  calculate_deadwood ["A-hearts"; "2-hearts"; "3-hearts"; "K-spades"; "5-diamonds"] = 15%Z.
Proof. vm_compute. reflexivity. Qed.

Example shuffle_tape : Tape.shuffle ["a"; "b"; "c"] [0; 0] = (["b"; "c"; "a"], []).
Proof. vm_compute. reflexivity. Qed.

(** ** CardCodec: the round trip *)

Lemma build_deck_tokens (t : string) :
  t ∈ build_deck ↔ ∃ r s, r ∈ RANKS ∧ s ∈ SUITS ∧ t = token r s.
Proof.
  unfold build_deck. rewrite list_elem_of_bind. split.
  - intros (s & Ht & Hs). apply list_elem_of_bind in Ht as (r & Ht & Hr).
    apply list_elem_of_singleton in Ht. eauto.
  - intros (r & s & Hr & Hs & ->). exists s. split; [|done].
    apply list_elem_of_bind. exists r. split; [|done]. by apply list_elem_of_singleton.
Qed.

Lemma parse_canonical_token (r s : string) :
  r ∈ RANKS → s ∈ SUITS →
  ∃ c, parse_card (token r s) = Some c ∧ format_card c = token r s.
Proof.
  intros Hr Hs. unfold RANKS, SUITS in *. set_unfold.
  destruct Hr as [->|[->|[->|[->|[->|[->|[->|[->|[->|[->|[->|[->|[->|[]]]]]]]]]]]]]];
    destruct Hs as [->|[->|[->|[->|[]]]]];
    eexists; split; vm_compute; reflexivity.
Qed.

(** C6: every canonical token [Rank-Suit] (13 ranks, 4 suits) is a token of
    the deck, parses, and the parsed card is rendered back to the same
    token. *)
Theorem parse_format_round_trip (r s : string) :
  r ∈ RANKS → s ∈ SUITS →
  token r s ∈ build_deck ∧
  ∃ c, parse_card (token r s) = Some c ∧ format_card c = token r s.
Proof.
  intros Hr Hs. split; [apply build_deck_tokens; eauto|].
  by apply parse_canonical_token.
Qed.

Lemma parse_format_round_trip_witness :
  token "10" "clubs" ∈ build_deck ∧
  ∃ c, parse_card (token "10" "clubs") = Some c ∧ format_card c = token "10" "clubs".
Proof.
  apply (parse_format_round_trip "10" "clubs"); unfold RANKS, SUITS; set_solver.
Defined.

(** ** DeadwoodEvaluator *)

Lemma RANK_VALUES_range (r : string) (v : Z) :
  RANK_VALUES !! r = Some v → (1 ≤ v ≤ 13)%Z ∧ rank_str v = r.
Proof.
  intros H. apply elem_of_list_to_map_2 in H. cbn in H. set_unfold.
  repeat (destruct H as [H|H]; [injection H as -> ->; split; [lia|reflexivity]|]).
  destruct H.
Qed.

Lemma parse_card_valid (t : string) (c : Card) :
  parse_card t = Some c → (1 ≤ c.1 ≤ 13)%Z ∧ c.2 ∈ SUITS.
Proof.
  unfold parse_card. intros H.
  destruct (Py.split "-" t) as [|p0 [|p1 [|? ?]]]; try discriminate.
  destruct (RANK_VALUES !! Py.strip p0) as [v|] eqn:Hv; cbn in H.
  - destruct (bool_decide (v = 0%Z)); cbn in H; [discriminate|].
    case_bool_decide; cbn in H; [|discriminate].
    injection H as <-. split; [|done]. by apply RANK_VALUES_range in Hv as [? _].
  - discriminate.
Qed.

Lemma DEADWOOD_VALUES_rank (rank : Z) :
  (1 ≤ rank ≤ 13)%Z →
  default 10%Z (DEADWOOD_VALUES !! rank_str rank) = DeadwoodValue rank.
Proof.
  intros H.
  assert (rank = 1 ∨ rank = 2 ∨ rank = 3 ∨ rank = 4 ∨ rank = 5 ∨ rank = 6
          ∨ rank = 7 ∨ rank = 8 ∨ rank = 9 ∨ rank = 10 ∨ rank = 11 ∨ rank = 12
          ∨ rank = 13)%Z as Hin by lia.
  repeat (destruct Hin as [->|Hin]; [vm_compute; reflexivity|]).
  subst. vm_compute. reflexivity.
Qed.

Lemma DeadwoodValue_pos (rank : Z) : (1 ≤ rank)%Z → (1 ≤ DeadwoodValue rank)%Z.
Proof. unfold DeadwoodValue. intros. repeat case_decide; lia. Qed.

Lemma foldl_score {A} (skip : A → Prop) `{∀ x, Decision (skip x)} (f : A → Z)
    (step : Z → A → Z) (l : list A) (score : Z) :
  (∀ score x, step score x = if decide (skip x) then score else (score + f x)%Z) →
  foldl step score l = (score + Zsum (f <$> filter (λ x, ¬ skip x) l))%Z.
Proof.
  intros Hstep.
  revert score. induction l as [|x l IH]; intros score; [cbn; lia|].
  rewrite filter_cons. cbn [foldl]. rewrite IH, Hstep. destruct (decide (skip x)).
  - by rewrite decide_False by tauto.
  - rewrite decide_True by done. rewrite fmap_cons. cbn [Zsum foldr]. fold (Zsum (f <$> filter (λ x, ¬ skip x) l)). lia.
Qed.

Lemma enumerate_lookup {A} (l : list A) (i : nat) (x : A) :
  (i, x) ∈ Py.enumerate l ↔ l !! i = Some x.
Proof.
  unfold Py.enumerate. rewrite list_elem_of_lookup. split.
  - intros (j & Hj). rewrite list_lookup_imap in Hj.
    destruct (l !! j) eqn:E; cbn in Hj; [|discriminate]. by injection Hj as -> ->.
  - intros H. exists i. by rewrite list_lookup_imap, H.
Qed.

Lemma parseable_valid (hand : list string) (c : Card) :
  c ∈ parseable hand → (1 ≤ c.1 ≤ 13)%Z ∧ c.2 ∈ SUITS.
Proof.
  unfold parseable. rewrite list_elem_of_omap. intros (t & _ & Ht).
  by apply parse_card_valid in Ht.
Qed.

(** The score is the sum of the DeadwoodValue of the unmatched parseable
    cards. *)
Lemma calculate_deadwood_sum (hand : list string) :
  calculate_deadwood hand
  = Zsum ((λ c : Card, DeadwoodValue c.1) <$> unmatched_cards (parseable hand)).
Proof.
  unfold calculate_deadwood, unmatched_cards. fold (parseable hand).
  destruct (parseable hand) as [|c0 l] eqn:E; [reflexivity|]. rewrite <- E.
  set (matched := (find_melds (parseable hand)).1).
  rewrite (foldl_score (λ x : nat * Card, x.1 ∈ matched)
             (λ x, default 10%Z (DEADWOOD_VALUES !! rank_str x.2.1)));
    [|by intros score [i [rank suit]]].
  rewrite Z.add_0_l. f_equal.
  rewrite <- list_fmap_compose. apply list_fmap_ext.
  intros k [i c] Hic%list_elem_of_lookup_2. cbn.
  apply list_elem_of_filter in Hic as [_ Hic].
  apply enumerate_lookup, list_elem_of_lookup_2 in Hic.
  apply DEADWOOD_VALUES_rank. by apply parseable_valid in Hic as [? _].
Qed.

Lemma parseable_filter (hand : list string) :
  parseable (filter (λ t, is_Some (parse_card t)) hand) = parseable hand.
Proof.
  unfold parseable. induction hand as [|t hand IH]; [done|].
  rewrite filter_cons. destruct (decide (is_Some (parse_card t))) as [[c Hc]|Hn]; cbn.
  - by rewrite Hc, IH.
  - destruct (parse_card t); [destruct Hn; eauto|]. done.
Qed.

(** C2: the deadwood of a list of tokens is the sum of the DeadwoodValue
    (A=1, 2..9 face value, 10/J/Q/K=10) of its parseable cards whose index is
    not in the matched set of MeldFinder; the empty hand scores 0; the
    unparseable tokens contribute nothing: the score is that of the hand
    without them. *)
Theorem calculate_deadwood_spec (hand : list string) :
  calculate_deadwood hand
  = Zsum ((λ c : Card, DeadwoodValue c.1) <$> unmatched_cards (parseable hand))
  ∧ calculate_deadwood [] = 0%Z
  ∧ calculate_deadwood hand
    = calculate_deadwood (filter (λ t, is_Some (parse_card t)) hand).
Proof.
  split; [apply calculate_deadwood_sum|]. split; [reflexivity|].
  by rewrite !calculate_deadwood_sum, parseable_filter.
Qed.

Lemma Zsum_pos (l : list Z) :
  Forall (λ x, 1 ≤ x)%Z l → (0 ≤ Zsum l)%Z ∧ (Zsum l = 0%Z ↔ l = []).
Proof.
  induction 1 as [|x l Hx _ [IH1 IH2]]; [done|].
  cbn [Zsum foldr]. fold (Zsum l). split; [lia|]. split; [lia|discriminate].
Qed.

Lemma unmatched_values_pos (hand : list string) :
  Forall (λ x, 1 ≤ x)%Z
    ((λ c : Card, DeadwoodValue c.1) <$> unmatched_cards (parseable hand)).
Proof.
  apply Forall_fmap, Forall_forall. intros c Hc. cbn.
  apply DeadwoodValue_pos. unfold unmatched_cards in Hc.
  apply list_elem_of_fmap in Hc as ([i c'] & -> & Hc).
  apply list_elem_of_filter in Hc as [_ Hc].
  apply enumerate_lookup, list_elem_of_lookup_2, parseable_valid in Hc. cbn. lia.
Qed.

Lemma calculate_deadwood_nonneg (hand : list string) : (0 ≤ calculate_deadwood hand)%Z.
Proof. rewrite calculate_deadwood_sum. apply Zsum_pos, unmatched_values_pos. Qed.

(** ** MonteCarloSimulator: bounds *)

Lemma foldl_invariant {A B} (P : A → Prop) (f : A → B → A) (l : list B) (a : A) :
  P a → (∀ a b, P a → b ∈ l → P (f a b)) → P (foldl f a l).
Proof.
  revert a. induction l as [|b l IH]; intros a Ha Hf; [done|].
  cbn. apply IH; [apply Hf; [done|left]|]. intros. apply Hf; [done|by right].
Qed.

Lemma try_discards_nonneg (current_hand : list string) (b : Z) (c : option string) :
  try_discards current_hand = (Some b, c) → (0 ≤ b)%Z.
Proof.
  unfold try_discards. intros H.
  pose proof (foldl_invariant (B := string) (λ acc : option Z * option string,
      ∀ b, acc.1 = Some b → (0 ≤ b)%Z)) as Hinv.
  eapply Hinv; [| |rewrite H; reflexivity]; [done|].
  intros [best card] t Hacc _ b'. cbn in *.
  destruct (lt_inf _ best); cbn; [|by apply Hacc].
  intros [= <-]. apply calculate_deadwood_nonneg.
Qed.

Lemma draw_bounds (initial_deadwood : Z) (st : trial_state) (drawn : string) :
  (0 ≤ st.1.2)%Z →
  let st' := draw initial_deadwood st drawn in
  (st'.1.2 = st.1.2 ∨ (0 ≤ st'.1.2 < st.1.2)%Z)
  ∧ (st.2 ≤ st'.2 ≤ st.2 + 1)%Z.
Proof.
  destruct st as [[current_hand best_deadwood] improvements]. cbn [fst snd].
  intros Hbest. unfold draw.
  destruct (try_discards _) as [[b|] [c|]] eqn:E; cbn [fst snd]; try (split; [by left|lia]).
  apply try_discards_nonneg in E.
  destruct (bool_decide (b < best_deadwood)%Z) eqn:Hb; cbn [andb]; [|cbn [fst snd]; split; [by left|lia]].
  apply bool_decide_eq_true in Hb.
  destruct (Py.truthy c); cbn [fst snd]; [|split; [by left|lia]].
  split; [right; lia|]. case_decide; lia.
Qed.

Lemma draws_bounds (initial_deadwood : Z) (deck_copy : list string)
    (idxs : list nat) (st : trial_state) :
  (0 ≤ st.1.2)%Z →
  let st' := foldl (λ st draw_num,
                      match deck_copy !! draw_num with
                      | Some drawn => draw initial_deadwood st drawn
                      | None => st
                      end) st idxs in
  (0 ≤ st'.1.2 ≤ st.1.2)%Z ∧ (st.2 ≤ st'.2 ≤ st.2 + Z.of_nat (List.length idxs))%Z.
Proof.
  revert st. induction idxs as [|i idxs IH]; intros st Hst; cbn zeta.
  { cbn. lia. }
  cbn [foldl]. set (st1 := match deck_copy !! i with Some _ => _ | None => _ end).
  assert ((0 ≤ st1.1.2 ≤ st.1.2)%Z ∧ (st.2 ≤ st1.2 ≤ st.2 + 1)%Z) as [H1 H2].
  { subst st1. destruct (deck_copy !! i) as [drawn|]; [|lia].
    pose proof (draw_bounds initial_deadwood st drawn Hst) as [Hb Hi]. lia. }
  specialize (IH st1 ltac:(lia)). cbn zeta in IH. cbn [List.length]. lia.
Qed.

Lemma draw_range_length (max_draws : Z) (deck_copy : list string) :
  (Z.of_nat (List.length (draw_range max_draws deck_copy)) ≤ Z.max 0 max_draws)%Z.
Proof. unfold draw_range. rewrite length_seq. lia. Qed.

Lemma trial_bounds (hand deck_copy : list string) (max_draws initial_deadwood : Z)
    (improvements : Z) :
  (0 ≤ initial_deadwood)%Z →
  let r := trial hand deck_copy max_draws initial_deadwood improvements in
  (0 ≤ r.1 ≤ initial_deadwood)%Z
  ∧ (improvements ≤ r.2 ≤ improvements + Z.max 0 max_draws)%Z.
Proof.
  intros Hinit. unfold trial. cbn [fst snd].
  pose proof (draws_bounds initial_deadwood deck_copy (draw_range max_draws deck_copy)
                (hand, initial_deadwood, improvements) Hinit) as H.
  cbn zeta in H. cbn [fst snd] in H.
  pose proof (draw_range_length max_draws deck_copy). lia.
Qed.

Section SimulatorBounds.
Context {G : Type} (shuffle : list string → G → list string * G).

Lemma run_trials_bounds (n : nat) (hand unknown_deck : list string)
    (max_draws initial_deadwood : Z) (acc : Z * Z) (g : G) :
  (0 ≤ initial_deadwood)%Z →
  let r := run_trials shuffle n hand unknown_deck max_draws initial_deadwood acc g in
  (acc.1 ≤ r.1.1 ≤ acc.1 + Z.of_nat n * initial_deadwood)%Z
  ∧ (acc.2 ≤ r.1.2 ≤ acc.2 + Z.of_nat n * Z.max 0 max_draws)%Z.
Proof.
  intros Hinit. revert acc g. induction n as [|n IH]; intros acc g; cbn zeta.
  { cbn. lia. }
  cbn [run_trials]. destruct (shuffle unknown_deck g) as [deck_copy g'].
  pose proof (trial_bounds hand deck_copy max_draws initial_deadwood acc.2 Hinit) as Ht.
  cbn zeta in Ht. destruct (trial _ _ _ _ _) as [best improvements]. cbn [fst snd] in Ht.
  specialize (IH ((acc.1 + best)%Z, improvements) g'). cbn zeta in IH.
  cbn [fst snd] in IH. nia.
Qed.

Lemma simulate_game_returns (hand unknown_deck : list string) (trials max_draws : Z)
    (g : G) :
  unknown_deck ≠ [] → (1 ≤ trials)%Z →
  ∃ total_deadwood improvements g',
    simulate_game shuffle hand unknown_deck trials max_draws g
    = (Ok ((inject_Z total_deadwood / inject_Z trials)%Q,
           (inject_Z improvements / inject_Z trials)%Q), g')
    ∧ (0 ≤ total_deadwood ≤ trials * calculate_deadwood hand)%Z
    ∧ (0 ≤ improvements ≤ trials * Z.max 0 max_draws)%Z.
Proof.
  intros Hdeck Htrials. unfold simulate_game.
  destruct unknown_deck as [|c deck]; [done|].
  pose proof (run_trials_bounds (Z.to_nat trials) hand (c :: deck) max_draws
                (calculate_deadwood hand) (0%Z, 0%Z) g
                (calculate_deadwood_nonneg hand)) as H.
  cbn zeta in H. destruct (run_trials _ _ _ _ _ _ _ _) as [[total improvements] g'].
  cbn [fst snd] in H. rewrite decide_False by lia.
  exists total, improvements, g'. split; [done|].
  pose proof (calculate_deadwood_nonneg hand). nia.
Qed.

End SimulatorBounds.

Lemma Qdiv_bounds (a b t : Z) :
  (1 ≤ t)%Z → (0 ≤ a ≤ t * b)%Z →
  (0 <= inject_Z a / inject_Z t)%Q ∧ (inject_Z a / inject_Z t <= inject_Z b)%Q.
Proof.
  intros Ht Ha.
  assert (0 < inject_Z t)%Q as Hpos.
  { change (inject_Z 0 < inject_Z t)%Q. rewrite <- Zlt_Qlt. lia. }
  split.
  - apply Qle_shift_div_l; [done|]. rewrite Qmult_0_l.
    change (inject_Z 0 <= inject_Z a)%Q. rewrite <- Zle_Qle. lia.
  - apply Qle_shift_div_r; [done|]. rewrite <- inject_Z_mult, <- Zle_Qle. lia.
Qed.

Section SimulatorClaims.
Context {G : Type} (shuffle : list string → G → list string * G).

(** C9: for a non-empty unknown deck and at least one trial, [simulate_game]
    returns, and its average deadwood lies between 0 and the deadwood of the
    hand: a trial starts from the initial deadwood and replaces it only by a
    strictly smaller non-negative one ([draw_bounds]). *)
Theorem simulate_game_average_bounded (hand unknown_deck : list string)
    (trials max_draws : Z) (g : G) :
  unknown_deck ≠ [] → (1 ≤ trials)%Z →
  ∃ avg_deadwood improvement_prob g',
    simulate_game shuffle hand unknown_deck trials max_draws g
    = (Ok (avg_deadwood, improvement_prob), g')
    ∧ (0 <= avg_deadwood)%Q
    ∧ (avg_deadwood <= inject_Z (calculate_deadwood hand))%Q.
Proof.
  intros Hdeck Htrials.
  destruct (simulate_game_returns shuffle hand unknown_deck trials max_draws g
              Hdeck Htrials) as (total & improvements & g' & -> & Htotal & _).
  eexists _, _, g'. split; [reflexivity|]. by apply Qdiv_bounds.
Qed.

(** The improvement rate lies between 0 and [max_draws]. *)
Lemma simulate_game_rate_in_range (hand unknown_deck : list string)
    (trials max_draws : Z) (g : G) :
  unknown_deck ≠ [] → (1 ≤ trials)%Z → (1 ≤ max_draws)%Z →
  ∃ avg_deadwood improvement_prob g',
    simulate_game shuffle hand unknown_deck trials max_draws g
    = (Ok (avg_deadwood, improvement_prob), g')
    ∧ (0 <= improvement_prob)%Q
    ∧ (improvement_prob <= inject_Z max_draws)%Q.
Proof.
  intros Hdeck Htrials Hdraws.
  destruct (simulate_game_returns shuffle hand unknown_deck trials max_draws g
              Hdeck Htrials) as (total & improvements & g' & -> & _ & Himp).
  eexists _, _, g'. split; [reflexivity|]. apply Qdiv_bounds; [done|lia].
Qed.

End SimulatorClaims.

Lemma simulate_game_average_bounded_witness :
  ["A-hearts"; "2-hearts"] ≠ [] ∧ (1 ≤ 2)%Z ∧
  ∃ avg_deadwood improvement_prob g',
    simulate_game Tape.shuffle ["K-spades"; "Q-diamonds"; "9-clubs"]
                  ["A-hearts"; "2-hearts"] 2 2 [1; 0]
    = (Ok (avg_deadwood, improvement_prob), g')
    ∧ (0 <= avg_deadwood)%Q
    ∧ (avg_deadwood
       <= inject_Z (calculate_deadwood ["K-spades"; "Q-diamonds"; "9-clubs"]))%Q.
Proof.
  split; [done|]. split; [lia|].
  apply (simulate_game_average_bounded Tape.shuffle
           ["K-spades"; "Q-diamonds"; "9-clubs"] ["A-hearts"; "2-hearts"] 2 2 [1; 0]);
    [done|lia].
Defined.

(** One trial can count two improvements: the rate is then 2. *)
Example improvement_rate_two :
  simulate_game Tape.shuffle ["K-spades"; "Q-diamonds"; "9-clubs"]
                ["A-hearts"; "2-hearts"] 1 2 []
  = (Ok ((12 # 1)%Q, (2 # 1)%Q), []).
Proof. vm_compute. reflexivity. Qed.

(** C10: for a non-empty unknown deck, at least one trial and at least one
    draw, [simulate_game] returns an improvement rate between 0 and
    [max_draws]: a trial makes at most [max_draws] draws and each counts at
    most one improvement. The rate can exceed 1: a run of the engine with
    rate 2 exists. *)
Theorem simulate_game_rate_bounded {G : Type} (shuffle : list string → G → list string * G)
    (hand unknown_deck : list string) (trials max_draws : Z) (g : G) :
  unknown_deck ≠ [] → (1 ≤ trials)%Z → (1 ≤ max_draws)%Z →
  (∃ avg_deadwood improvement_prob g',
     simulate_game shuffle hand unknown_deck trials max_draws g
     = (Ok (avg_deadwood, improvement_prob), g')
     ∧ (0 <= improvement_prob)%Q
     ∧ (improvement_prob <= inject_Z max_draws)%Q)
  ∧ (∃ hand0 deck0 trials0 max_draws0 tape avg0 rate0 tape',
       simulate_game Tape.shuffle hand0 deck0 trials0 max_draws0 tape
       = (Ok (avg0, rate0), tape')
       ∧ (1 < rate0)%Q).
Proof.
  intros Hdeck Htrials Hdraws. split.
  - by apply simulate_game_rate_in_range.
  - eexists _, _, _, _, _, _, _, _. split; [apply improvement_rate_two|]. reflexivity.
Qed.

Lemma simulate_game_rate_bounded_witness :
  ["A-hearts"; "2-hearts"] ≠ [] ∧ (1 ≤ 2)%Z ∧ (1 ≤ 2)%Z ∧
  ∃ avg_deadwood improvement_prob g',
    simulate_game Tape.shuffle ["K-spades"; "Q-diamonds"; "9-clubs"]
                  ["A-hearts"; "2-hearts"] 2 2 [1; 0]
    = (Ok (avg_deadwood, improvement_prob), g')
    ∧ (0 <= improvement_prob)%Q
    ∧ (improvement_prob <= inject_Z 2)%Q.
Proof.
  split; [done|]. split; [lia|]. split; [lia|].
  apply (simulate_game_rate_bounded Tape.shuffle
           ["K-spades"; "Q-diamonds"; "9-clubs"] ["A-hearts"; "2-hearts"] 2 2 [1; 0]);
    [done|lia|lia].
Defined.

(** ** The sorts *)

Lemma StronglySorted_weaken {A} (R R' : A → A → Prop) (l : list A) :
  (∀ x y, R x y → R' x y) → StronglySorted R l → StronglySorted R' l.
Proof.
  intros HR. induction 1 as [|x l Hl IH Hx]; constructor; [done|].
  eapply Forall_impl; [exact Hx|]. intros y. apply HR.
Qed.

Section SortLemmas.
Context {A K : Type} (key : A → K) (ltb : K → K → bool).
Hypothesis ltb_asym : ∀ a b, ltb a b = true → ltb b a = false.
Hypothesis geb_trans : ∀ a b c, ltb a b = false → ltb b c = false → ltb a c = false.

Lemma insert_asc_perm (x : A) (l : list A) : Py.insert_asc key ltb x l ≡ₚ x :: l.
Proof.
  induction l as [|y l IH]; cbn; [done|].
  destruct (ltb (key y) (key x)); [|done]. rewrite IH. apply Permutation_swap.
Qed.

Lemma sorted_perm (l : list A) : Py.sorted key ltb l ≡ₚ l.
Proof.
  induction l as [|x l IH]; cbn; [done|].
  fold (Py.sorted key ltb l). by rewrite insert_asc_perm, IH.
Qed.

Lemma insert_desc_perm (x : A) (l : list A) : Py.insert_desc key ltb x l ≡ₚ x :: l.
Proof.
  induction l as [|y l IH]; cbn; [done|].
  destruct (ltb (key x) (key y)); [|done]. rewrite IH. apply Permutation_swap.
Qed.

Lemma sorted_reverse_perm (l : list A) : Py.sorted_reverse key ltb l ≡ₚ l.
Proof.
  induction l as [|x l IH]; cbn; [done|].
  fold (Py.sorted_reverse key ltb l). by rewrite insert_desc_perm, IH.
Qed.

Lemma insert_asc_sorted (x : A) (l : list A) :
  StronglySorted (Py.ascending key ltb) l → StronglySorted (Py.ascending key ltb) (Py.insert_asc key ltb x l).
Proof.
  induction 1 as [|y l Hl IH Hy]; cbn.
  { repeat constructor. }
  destruct (ltb (key y) (key x)) eqn:E.
  - constructor; [done|]. rewrite insert_asc_perm. constructor; [|done].
    by apply ltb_asym.
  - constructor; [by constructor|]. constructor; [done|].
    eapply Forall_impl; [exact Hy|]. intros z Hz. unfold Py.ascending in *.
    eapply geb_trans; [exact Hz|exact E].
Qed.

Lemma sorted_sorted (l : list A) : StronglySorted (Py.ascending key ltb) (Py.sorted key ltb l).
Proof.
  induction l as [|x l IH]; cbn; [constructor|]. by apply insert_asc_sorted.
Qed.

Lemma insert_desc_sorted (x : A) (l : list A) :
  StronglySorted (Py.descending key ltb) l → StronglySorted (Py.descending key ltb) (Py.insert_desc key ltb x l).
Proof.
  induction 1 as [|y l Hl IH Hy]; cbn.
  { repeat constructor. }
  destruct (ltb (key x) (key y)) eqn:E.
  - constructor; [done|]. rewrite insert_desc_perm. constructor; [|done].
    by apply ltb_asym.
  - constructor; [by constructor|]. constructor; [done|].
    eapply Forall_impl; [exact Hy|]. intros z Hz. unfold Py.descending in *.
    eapply geb_trans; [exact E|exact Hz].
Qed.

Lemma sorted_reverse_sorted (l : list A) :
  StronglySorted (Py.descending key ltb) (Py.sorted_reverse key ltb l).
Proof.
  induction l as [|x l IH]; cbn; [constructor|]. by apply insert_desc_sorted.
Qed.
End SortLemmas.

(** ** The order of the suggestions *)

Lemma Qltb_lt (a b : Q) : Qltb a b = true ↔ (a < b)%Q.
Proof.
  unfold Qltb. rewrite negb_true_iff. split.
  - intros H. apply Qnot_le_lt. intros Hle. apply Qle_bool_iff in Hle. congruence.
  - intros H. destruct (Qle_bool b a) eqn:E; [|done].
    apply Qle_bool_iff in E. lra.
Qed.

Lemma Qltb_ge (a b : Q) : Qltb a b = false ↔ (b <= a)%Q.
Proof.
  unfold Qltb. rewrite negb_false_iff. apply Qle_bool_iff.
Qed.

Lemma key_ltb_false (k1 k2 : Q * Q) :
  key_ltb k1 k2 = false ↔ (k2.1 <= k1.1)%Q ∧ (k1.1 == k2.1 → k2.2 <= k1.2)%Q.
Proof.
  unfold key_ltb. rewrite orb_false_iff, andb_false_iff, !Qltb_ge.
  split.
  - intros [H1 [H2|H2]]; split; try done.
    intros Heq. apply Qeq_bool_iff in Heq. congruence.
  - intros [H1 H2]. split; [done|].
    destruct (Qeq_bool k1.1 k2.1) eqn:E; [right|by left].
    apply H2. by apply Qeq_bool_iff.
Qed.

Lemma key_ltb_true (k1 k2 : Q * Q) :
  key_ltb k1 k2 = true ↔ (k1.1 < k2.1)%Q ∨ (k1.1 == k2.1 ∧ k1.2 < k2.2)%Q.
Proof.
  unfold key_ltb. rewrite orb_true_iff, andb_true_iff, !Qltb_lt.
  by rewrite Qeq_bool_iff.
Qed.

Lemma key_ltb_asym (a b : Q * Q) : key_ltb a b = true → key_ltb b a = false.
Proof. rewrite key_ltb_true, key_ltb_false. intros [H|[H1 H2]]; split; lra. Qed.

Lemma key_geb_trans (a b c : Q * Q) :
  key_ltb a b = false → key_ltb b c = false → key_ltb a c = false.
Proof.
  rewrite !key_ltb_false. intros [H1 H2] [H3 H4]. split; [lra|].
  intros Heq. assert (a.1 == b.1)%Q by lra. assert (b.1 == c.1)%Q by lra.
  specialize (H2 ltac:(done)). specialize (H4 ltac:(done)). lra.
Qed.

(** ** DiscardAdvisor *)

Lemma invalid_cards_unparseable (hand : list string) :
  (filter (λ cp : string * option Card, cp.2 = None)
          (zip hand (parse_card <$> hand))).*1 = unparseable hand.
Proof.
  unfold unparseable. induction hand as [|t hand IH]; [done|].
  rewrite fmap_cons. cbn [zip zip_with]. rewrite !filter_cons. cbn [snd].
  destruct (decide (parse_card t = None)); [|done]. rewrite fmap_cons. by f_equal.
Qed.

Lemma unparseable_nil (hand : list string) :
  unparseable hand = [] ↔ Forall (λ t, is_Some (parse_card t)) hand.
Proof.
  unfold unparseable. induction hand as [|t hand IH]; [done|].
  rewrite filter_cons, Forall_cons. destruct (decide (parse_card t = None)) as [E|E].
  - split; [done|]. intros [[c Hc] _]. congruence.
  - rewrite IH. split; [|tauto]. intros H. split; [|done].
    by destruct (parse_card t); [eauto|].
Qed.

Lemma filter_ext_in {A} (P Q : A → Prop) `{∀ x, Decision (P x)} `{∀ x, Decision (Q x)}
    (l : list A) :
  (∀ x, x ∈ l → P x ↔ Q x) → filter P l = filter Q l.
Proof.
  induction l as [|x l IH]; intros HPQ; [done|].
  rewrite !filter_cons. rewrite IH by (intros; apply HPQ; by right).
  destruct (decide (P x)) as [HP|HP], (decide (Q x)) as [HQ|HQ]; try done;
    apply HPQ in HP || apply HPQ in HQ; try done; left.
Qed.

Lemma build_deck_parseable (t : string) : t ∈ build_deck → is_Some (parse_card t).
Proof.
  intros (r & s & Hr & Hs & ->)%build_deck_tokens.
  destruct (parse_canonical_token r s Hr Hs) as (c & -> & _). eauto.
Qed.

(** The unknown deck does not see the unparseable visible tokens. *)
Lemma unknown_deck_ignores_unparseable (my_hand_set : gset string) (visible : list string) :
  unknown_deck_of my_hand_set (list_to_set visible)
  = unknown_deck_of my_hand_set
      (list_to_set (filter (λ t, is_Some (parse_card t)) visible)).
Proof.
  unfold unknown_deck_of. apply filter_ext_in. intros c Hc.
  apply build_deck_parseable in Hc.
  rewrite !elem_of_list_to_set, list_elem_of_filter. tauto.
Qed.

Section AdvisorLemmas.
Context {G : Type} (shuffle : list string → G → list string * G).

Lemma suggest_loop_returns (request : SuggestRequest) (unknown_deck : list string)
    (current_deadwood : Z) (cards : list string) (results : list DiscardSuggestion)
    (g : G) :
  unknown_deck ≠ [] → (1 ≤ trials request)%Z →
  ∃ results' g',
    suggest_loop shuffle request unknown_deck current_deadwood cards results g
    = (Ok (results ++ results'), g')
    ∧ card <$> results' = cards.
Proof.
  intros Hdeck Htrials. revert results g.
  induction cards as [|c cards IH]; intros results g; cbn [suggest_loop].
  { exists [], g. by rewrite app_nil_r. }
  destruct (simulate_game_returns shuffle (without c (my_hand request)) unknown_deck
              (trials request) (max_draws request) g Hdeck Htrials)
    as (total & improvements & g' & -> & _).
  cbn zeta.
  destruct (IH (results ++ [make_suggestion request current_deadwood c
                  (round_double (inject_Z total / inject_Z (trials request)))
                  (round_double (inject_Z improvements / inject_Z (trials request)))])
               g')
    as (results' & g'' & -> & Hcards).
  eexists (_ :: results'), g''. rewrite <- app_assoc. split; [done|].
  by rewrite fmap_cons, Hcards.
Qed.

Lemma suggest_discard_visible (request : SuggestRequest) (g : G) :
  suggest_discard shuffle request g
  = suggest_discard shuffle
      {| my_hand := my_hand request;
         visible := filter (λ t, is_Some (parse_card t)) (visible request);
         trials := trials request;
         max_draws := max_draws request |} g.
Proof.
  unfold suggest_discard. cbn [my_hand visible trials max_draws].
  rewrite <- unknown_deck_ignores_unparseable.
  destruct ((filter _ (zip (my_hand request) _)).*1); [|done].
  case_decide; [done|]. case_decide; [done|].
  set (deck := unknown_deck_of _ _). set (cur := calculate_deadwood _).
  assert (∀ cards results g0,
    suggest_loop shuffle request deck cur cards results g0
    = suggest_loop shuffle
        {| my_hand := my_hand request;
           visible := filter (λ t, is_Some (parse_card t)) (visible request);
           trials := trials request;
           max_draws := max_draws request |} deck cur cards results g0) as Hloop.
  { induction cards as [|c cards IH]; intros results g0; [done|].
    cbn [suggest_loop my_hand visible trials max_draws].
    destruct (simulate_game _ _ _ _ _ _) as [[[avg wp]|e] g1]; [|done].
    apply IH. }
  by rewrite Hloop.
Qed.

Lemma suggest_discard_invalid (request : SuggestRequest) (g : G) :
  unparseable (my_hand request) ≠ [] →
  suggest_discard shuffle request g
  = (Raise (HTTPException 400 (InvalidCardFormats (unparseable (my_hand request)))), g).
Proof.
  intros H. unfold suggest_discard. rewrite invalid_cards_unparseable.
  by destruct (unparseable (my_hand request)).
Qed.

Lemma simulate_game_raises (hand unknown_deck : list string) (trials max_draws : Z)
    (g g' : G) (e : exn) :
  simulate_game shuffle hand unknown_deck trials max_draws g = (Raise e, g') →
  e = ZeroDivisionError.
Proof.
  unfold simulate_game. destruct unknown_deck; [done|].
  destruct (run_trials _ _ _ _ _ _ _ _) as [[? ?] ?]. case_decide; congruence.
Qed.

Lemma suggest_loop_raises (request : SuggestRequest) (unknown_deck : list string)
    (current_deadwood : Z) (cards : list string) (results : list DiscardSuggestion)
    (g g' : G) (e : exn) :
  suggest_loop shuffle request unknown_deck current_deadwood cards results g
  = (Raise e, g') →
  e = ZeroDivisionError.
Proof.
  revert results g. induction cards as [|c cards IH]; intros results g; [done|].
  cbn [suggest_loop].
  destruct (simulate_game _ _ _ _ _ _) as [[[avg wp]|e'] g1] eqn:E.
  - apply IH.
  - intros [= -> ->]. by apply simulate_game_raises in E.
Qed.

Lemma suggest_discard_valid_hand (request : SuggestRequest) (g g' : G)
    (invalid_cards : list string) :
  unparseable (my_hand request) = [] →
  suggest_discard shuffle request g
  ≠ (Raise (HTTPException 400 (InvalidCardFormats invalid_cards)), g').
Proof.
  intros H. unfold suggest_discard. rewrite invalid_cards_unparseable, H.
  case_decide; [done|]. case_decide; [done|].
  destruct (suggest_loop _ _ _ _ _ _ _) as [[results|e] g1] eqn:E; [done|].
  apply suggest_loop_raises in E as ->. done.
Qed.

(** C7, as the engine has it: a request that meets the request model (1 to
    13 hand tokens, [trials] in 50..2000, [max_draws] in 1..10) and has an
    unparseable hand token is refused with the invalid-format error that
    lists the offending tokens, and the generator is left as it was: no
    shuffle, so no simulation, was made. With a hand whose tokens all parse,
    the unparseable visible tokens change nothing: the outcome is the one of
    the request without them, and it is never the invalid-format error. *)
Theorem suggest_discard_invalid_tokens (request : SuggestRequest) (g : G) :
  request_valid request = true →
  (unparseable (my_hand request) ≠ [] →
   post_suggest shuffle request g
   = (Raise (HTTPException 400 (InvalidCardFormats (unparseable (my_hand request)))), g))
  ∧ (unparseable (my_hand request) = [] →
     post_suggest shuffle request g
     = post_suggest shuffle
         {| my_hand := my_hand request;
            visible := filter (λ t, is_Some (parse_card t)) (visible request);
            trials := trials request;
            max_draws := max_draws request |} g
     ∧ ∀ invalid_cards g',
         post_suggest shuffle request g
         ≠ (Raise (HTTPException 400 (InvalidCardFormats invalid_cards)), g')).
Proof.
  intros Hvalid. unfold post_suggest.
  assert (request_valid
            {| my_hand := my_hand request;
               visible := filter (λ t, is_Some (parse_card t)) (visible request);
               trials := trials request;
               max_draws := max_draws request |} = true) as -> by exact Hvalid.
  rewrite Hvalid.
  split; [apply suggest_discard_invalid|]. intros H. split.
  - apply suggest_discard_visible.
  - intros. by apply suggest_discard_valid_hand.
Qed.

Lemma suggest_discard_returns (request : SuggestRequest) (g : G) :
  Forall (λ t, is_Some (parse_card t)) (my_hand request) →
  NoDup (my_hand request) →
  (1 ≤ trials request)%Z →
  unknown_deck_of (list_to_set (my_hand request)) (list_to_set (visible request)) ≠ [] →
  ∃ response g',
    suggest_discard shuffle request g = (Ok response, g')
    ∧ card <$> suggestions response ≡ₚ my_hand request
    ∧ StronglySorted in_suggestion_order (suggestions response).
Proof.
  intros Hparse Hnodup Htrials Hdeck. unfold suggest_discard.
  rewrite invalid_cards_unparseable.
  apply unparseable_nil in Hparse. rewrite Hparse.
  rewrite decide_False by (intros Hne; apply Hne; by rewrite size_list_to_set).
  rewrite decide_False by (by destruct (unknown_deck_of _ _)).
  destruct (suggest_loop_returns request
              (unknown_deck_of (list_to_set (my_hand request))
                               (list_to_set (visible request)))
              (calculate_deadwood (my_hand request)) (my_hand request) [] g
              Hdeck Htrials) as (results & g' & -> & Hcards).
  cbn [app]. eexists _, g'. split; [reflexivity|]. cbn [suggestions]. split.
  - rewrite <- Hcards. apply fmap_Permutation, sorted_reverse_perm.
  - eapply StronglySorted_weaken;
      [|apply (sorted_reverse_sorted suggestion_key key_ltb key_ltb_asym key_geb_trans)].
    intros x y Hxy. unfold Py.descending in Hxy. apply key_ltb_false in Hxy as [H1 H2].
    unfold suggestion_key in *. cbn [fst snd] in *. split; [done|].
    intros Heq. specialize (H2 Heq). lra.
Qed.

(** C5: for a valid request (every hand token parses, no token twice, the
    bounds of the request model hold, the unknown deck is not empty) the
    advisor returns one suggestion per hand card, ranked: the win probability
    never increases along the list and, between suggestions of equal win
    probability, the expected deadwood never decreases. *)
Theorem suggest_discard_ranked (request : SuggestRequest) (g : G) :
  Forall (λ t, is_Some (parse_card t)) (my_hand request) →
  NoDup (my_hand request) →
  request_valid request = true →
  unknown_deck_of (list_to_set (my_hand request)) (list_to_set (visible request)) ≠ [] →
  ∃ response g',
    post_suggest shuffle request g = (Ok response, g')
    ∧ List.length (suggestions response) = List.length (my_hand request)
    ∧ card <$> suggestions response ≡ₚ my_hand request
    ∧ StronglySorted in_suggestion_order (suggestions response).
Proof.
  intros Hparse Hnodup Hvalid Hdeck. unfold post_suggest. rewrite Hvalid.
  assert (1 ≤ trials request)%Z as Htrials.
  { unfold request_valid in Hvalid. apply andb_true_iff in Hvalid as [Hv _].
    apply andb_true_iff in Hv as [_ Hv]. apply bool_decide_eq_true in Hv. lia. }
  destruct (suggest_discard_returns request g Hparse Hnodup Htrials Hdeck)
    as (response & g' & -> & Hperm & Hsorted).
  exists response, g'. split; [done|]. split; [|done].
  by rewrite <- (length_fmap card), Hperm.
Qed.

End AdvisorLemmas.

Lemma suggest_discard_invalid_tokens_witness :
  (request_valid {| my_hand := ["A-hearts"; "Z-hearts"]; visible := []; trials := 50;
                    max_draws := 5 |} = true
   ∧ unparseable ["A-hearts"; "Z-hearts"] ≠ []
   ∧ post_suggest Tape.shuffle
       {| my_hand := ["A-hearts"; "Z-hearts"]; visible := []; trials := 50;
          max_draws := 5 |} [3; 1]
     = (Raise (HTTPException 400 (InvalidCardFormats ["Z-hearts"])), [3; 1]))
  ∧ (request_valid {| my_hand := ["A-hearts"]; visible := ["x"; "2-hearts"];
                      trials := 50; max_draws := 5 |} = true
     ∧ unparseable ["A-hearts"] = []
     ∧ post_suggest Tape.shuffle
         {| my_hand := ["A-hearts"]; visible := ["x"; "2-hearts"]; trials := 50;
            max_draws := 5 |} [3; 1]
       = post_suggest Tape.shuffle
           {| my_hand := ["A-hearts"]; visible := ["2-hearts"]; trials := 50;
              max_draws := 5 |} [3; 1]).
Proof.
  split.
  - assert (request_valid {| my_hand := ["A-hearts"; "Z-hearts"]; visible := [];
                             trials := 50; max_draws := 5 |} = true) as Hv
      by (vm_compute; reflexivity).
    assert (unparseable ["A-hearts"; "Z-hearts"] ≠ []) as H by (vm_compute; discriminate).
    split; [exact Hv|]. split; [exact H|].
    exact (proj1 (suggest_discard_invalid_tokens Tape.shuffle
                    {| my_hand := ["A-hearts"; "Z-hearts"]; visible := []; trials := 50;
                       max_draws := 5 |} [3; 1] Hv) H).
  - assert (request_valid {| my_hand := ["A-hearts"]; visible := ["x"; "2-hearts"];
                             trials := 50; max_draws := 5 |} = true) as Hv
      by (vm_compute; reflexivity).
    assert (unparseable ["A-hearts"] = []) as H by (vm_compute; reflexivity).
    split; [exact Hv|]. split; [exact H|].
    exact (proj1 (proj2 (suggest_discard_invalid_tokens Tape.shuffle
                    {| my_hand := ["A-hearts"]; visible := ["x"; "2-hearts"];
                       trials := 50; max_draws := 5 |} [3; 1] Hv) H)).
Defined.

(** C7, as stated, fails: the request model is checked before the tokens,
    so a request with an unparseable hand token and a number of trials out
    of range is answered with the validation error, not with the
    invalid-format error. *)
Lemma invalid_token_out_of_range :
  ¬ (∀ request g,
       unparseable (my_hand request) ≠ [] →
       post_suggest Tape.shuffle request g
       = (Raise (HTTPException 400 (InvalidCardFormats (unparseable (my_hand request)))),
          g)).
Proof.
  intros H.
  specialize (H {| my_hand := ["Z-hearts"]; visible := []; trials := 10;
                   max_draws := 5 |} [3; 1]).
  assert (unparseable ["Z-hearts"] ≠ []) as Hbad by (vm_compute; discriminate).
  specialize (H Hbad). vm_compute in H. discriminate H.
Qed.

Lemma suggest_discard_ranked_witness :
  ∃ response g',
    post_suggest Tape.shuffle
      {| my_hand := ["A-hearts"; "2-hearts"; "3-hearts"; "K-spades"; "5-diamonds"];
         visible := []; trials := 50; max_draws := 5 |} [3; 1; 4; 1; 5; 9; 2; 6]
    = (Ok response, g')
    ∧ List.length (suggestions response) = 5
    ∧ card <$> suggestions response
      ≡ₚ ["A-hearts"; "2-hearts"; "3-hearts"; "K-spades"; "5-diamonds"]
    ∧ StronglySorted in_suggestion_order (suggestions response).
Proof.
  apply (suggest_discard_ranked Tape.shuffle
           {| my_hand := ["A-hearts"; "2-hearts"; "3-hearts"; "K-spades"; "5-diamonds"];
              visible := []; trials := 50; max_draws := 5 |}
           [3; 1; 4; 1; 5; 9; 2; 6]).
  - repeat constructor; eexists; vm_compute; reflexivity.
  - apply (bool_decide_unpack _). vm_compute. reflexivity.
  - vm_compute. reflexivity.
  - vm_compute. discriminate.
Defined.

(** * MeldFinder *)

(** ** The order of the sort keys *)

Lemma ascii_compare_lt_trans (a b c : ascii) :
  Ascii.compare a b = Lt → Ascii.compare b c = Lt → Ascii.compare a c = Lt.
Proof. unfold Ascii.compare. rewrite !N.compare_lt_iff. lia. Qed.

Lemma string_compare_lt_trans (s1 s2 s3 : string) :
  String.compare s1 s2 = Lt → String.compare s2 s3 = Lt → String.compare s1 s3 = Lt.
Proof.
  revert s2 s3. induction s1 as [|a s1 IH]; intros [|b s2] [|c s3]; cbn; try done.
  destruct (Ascii.compare a b) eqn:Eab; try done;
    destruct (Ascii.compare b c) eqn:Ebc; try done.
  - apply Ascii.compare_eq_iff in Eab as ->, Ebc as ->.
    assert (Ascii.compare c c = Eq) as ->.
    { unfold Ascii.compare. apply N.compare_refl. }
    apply IH.
  - apply Ascii.compare_eq_iff in Eab as ->. by rewrite Ebc.
  - apply Ascii.compare_eq_iff in Ebc as <-. by rewrite Eab.
  - by rewrite (ascii_compare_lt_trans a b c).
Qed.

Lemma string_ltb_lt (s1 s2 : string) :
  String.ltb s1 s2 = true ↔ String.compare s1 s2 = Lt.
Proof. unfold String.ltb. by destruct (String.compare s1 s2). Qed.

Lemma string_ltb_irrefl (s : string) : String.ltb s s = false.
Proof.
  destruct (String.ltb s s) eqn:E; [|done]. apply string_ltb_lt in E.
  pose proof (String.compare_antisym s s) as H. rewrite E in H. discriminate.
Qed.

Lemma string_ltb_asym (s1 s2 : string) :
  String.ltb s1 s2 = true → String.ltb s2 s1 = false.
Proof.
  rewrite string_ltb_lt. intros H. unfold String.ltb.
  by rewrite String.compare_antisym, H.
Qed.

Lemma string_ltb_trans (s1 s2 s3 : string) :
  String.ltb s1 s2 = true → String.ltb s2 s3 = true → String.ltb s1 s3 = true.
Proof. rewrite !string_ltb_lt. apply string_compare_lt_trans. Qed.

(** The order is total: two strings not below one another are equal. *)
Lemma string_ltb_total (s1 s2 : string) :
  String.ltb s1 s2 = false → String.ltb s2 s1 = false → s1 = s2.
Proof.
  unfold String.ltb. rewrite (String.compare_antisym s2 s1).
  destruct (String.compare s1 s2) eqn:E; try done.
  intros _ _. by apply String.compare_eq_iff.
Qed.

Lemma string_geb_trans (s1 s2 s3 : string) :
  String.ltb s1 s2 = false → String.ltb s2 s3 = false → String.ltb s1 s3 = false.
Proof.
  intros H12 H23. destruct (String.ltb s1 s3) eqn:H13; [|done].
  destruct (String.ltb s2 s1) eqn:H21.
  - by rewrite (string_ltb_trans s2 s1 s3) in H23.
  - rewrite (string_ltb_total s1 s2) in H13 by done. congruence.
Qed.

Lemma card_ltb_false (c1 c2 : Card) :
  card_ltb c1 c2 = false
  ↔ (c2.1 ≤ c1.1)%Z ∧ (c1.1 = c2.1 → String.ltb c1.2 c2.2 = false).
Proof.
  unfold card_ltb. rewrite orb_false_iff, andb_false_iff, Z.ltb_ge, Z.eqb_neq.
  split; [intros [H1 [H2|H2]]; by split|].
  intros [H1 H2]. split; [done|].
  destruct (decide (c1.1 = c2.1)); [right; auto|by left].
Qed.

Lemma card_ltb_true (c1 c2 : Card) :
  card_ltb c1 c2 = true
  ↔ (c1.1 < c2.1)%Z ∨ (c1.1 = c2.1 ∧ String.ltb c1.2 c2.2 = true).
Proof.
  unfold card_ltb. by rewrite orb_true_iff, andb_true_iff, Z.ltb_lt, Z.eqb_eq.
Qed.

Lemma card_ltb_asym (c1 c2 : Card) : card_ltb c1 c2 = true → card_ltb c2 c1 = false.
Proof.
  rewrite card_ltb_true, card_ltb_false. intros [H|[H1 H2]]; (split; [lia|]).
  - lia.
  - intros _. by apply string_ltb_asym.
Qed.

Lemma card_geb_trans (c1 c2 c3 : Card) :
  card_ltb c1 c2 = false → card_ltb c2 c3 = false → card_ltb c1 c3 = false.
Proof.
  rewrite !card_ltb_false. intros [H1 H2] [H3 H4]. split; [lia|].
  intros Heq. apply (string_geb_trans _ c2.2); [apply H2|apply H4]; lia.
Qed.

Lemma Z_ltb_asym (a b : Z) : (a <? b)%Z = true → (b <? a)%Z = false.
Proof. rewrite Z.ltb_lt, Z.ltb_ge. lia. Qed.

Lemma Z_geb_trans (a b c : Z) :
  (a <? b)%Z = false → (b <? c)%Z = false → (a <? c)%Z = false.
Proof. rewrite !Z.ltb_ge. lia. Qed.

(** ** The sorted hand *)

Lemma NoDup_enumerate_fst {A} (l : list A) : NoDup (Py.enumerate l).*1.
Proof.
  unfold Py.enumerate. rewrite fmap_imap.
  replace (imap (λ n, fst ∘ pair n) l) with (seq 0 (List.length l)).
  - apply NoDup_seq.
  - apply list_eq. intros i. rewrite list_lookup_imap.
    destruct (l !! i) eqn:E; cbn.
    + apply lookup_seq. split; [done|]. by apply lookup_lt_Some in E.
    + apply lookup_seq_ge. apply lookup_ge_None in E. lia.
Qed.

Lemma sorted_hand_perm (parsed_hand : list Card) :
  sorted_hand parsed_hand ≡ₚ Py.enumerate parsed_hand.
Proof. apply sorted_perm. Qed.

Lemma sorted_hand_lookup (parsed_hand : list Card) (i : nat) (c : Card) :
  (i, c) ∈ sorted_hand parsed_hand ↔ parsed_hand !! i = Some c.
Proof. by rewrite sorted_hand_perm, enumerate_lookup. Qed.

Lemma sorted_hand_NoDup (parsed_hand : list Card) : NoDup (sorted_hand parsed_hand).*1.
Proof. rewrite sorted_hand_perm. apply NoDup_enumerate_fst. Qed.

Lemma sorted_hand_sorted (parsed_hand : list Card) :
  StronglySorted (Py.ascending snd card_ltb) (sorted_hand parsed_hand).
Proof. apply sorted_sorted; [apply card_ltb_asym|apply card_geb_trans]. Qed.

(** ** Groups *)

Section Groups.
Context {K V : Type} `{EqDecision K}.
Implicit Types (k : K) (v : V) (G : list (K * list V)) (l : list (K * V)).

Lemma flat_cons (g : K * list V) G : flat (g :: G) = (pair g.1 <$> g.2) ++ flat G.
Proof. done. Qed.

Lemma group_append_flat k v G : flat (group_append k v G) ≡ₚ flat G ++ [(k, v)].
Proof.
  induction G as [|[k' vs] G IH]; cbn [group_append]; [done|].
  destruct (decide (k' = k)) as [->|Hne].
  - rewrite !flat_cons. cbn [fst snd]. rewrite fmap_app. cbn [fmap list_fmap].
    rewrite <- !app_assoc. apply Permutation_app_head, Permutation_app_comm.
  - rewrite !flat_cons, IH. by rewrite app_assoc.
Qed.

Lemma groups_of_snoc l (kv : K * V) :
  groups_of (l ++ [kv]) = group_append kv.1 kv.2 (groups_of l).
Proof. unfold groups_of. by rewrite foldl_snoc. Qed.

Lemma groups_of_flat l : flat (groups_of l) ≡ₚ l.
Proof.
  induction l as [|kv l IH] using rev_ind; [done|].
  rewrite groups_of_snoc, group_append_flat, IH. by destruct kv.
Qed.

Lemma group_append_keys k v G :
  (group_append k v G).*1 = if decide (k ∈ G.*1) then G.*1 else G.*1 ++ [k].
Proof.
  induction G as [|[k' vs] G IH]; cbn [group_append].
  { rewrite decide_False; [done|]. apply not_elem_of_nil. }
  destruct (decide (k' = k)) as [->|Hne]; cbn [fmap list_fmap fst].
  - rewrite decide_True; [done|]. left.
  - fold (fmap (M := list) (@fst K (list V))). rewrite IH.
    destruct (decide (k ∈ G.*1)) as [Hin|Hin].
    + rewrite decide_True; [done|]. by right.
    + rewrite decide_False; [done|]. rewrite elem_of_cons. naive_solver.
Qed.

Lemma group_append_NoDup k v G : NoDup G.*1 → NoDup (group_append k v G).*1.
Proof.
  intros H. rewrite group_append_keys. case_decide; [done|].
  apply NoDup_app. split; [done|]. split; [|apply NoDup_singleton].
  intros x Hx ->%list_elem_of_singleton. done.
Qed.

Lemma entries_snoc k l (kv : K * V) :
  entries k (l ++ [kv]) = entries k l ++ (if decide (kv.1 = k) then [kv.2] else []).
Proof. unfold entries. rewrite omap_app. cbn. by case_decide. Qed.

Lemma group_append_elem k v G k' (vs' : list V) :
  NoDup G.*1 → (k', vs') ∈ group_append k v G →
  (k' ≠ k ∧ (k', vs') ∈ G)
  ∨ (k' = k ∧ ∃ vs, vs' = vs ++ [v] ∧ ((k, vs) ∈ G ∨ ((k ∉ G.*1) ∧ vs = []))).
Proof.
  induction G as [|[k0 vs0] G IH]; cbn [group_append]; intros Hnd Hin.
  { apply list_elem_of_singleton in Hin as [= -> ->]. right. split; [done|].
    exists []. split; [done|]. right. split; [apply not_elem_of_nil|done]. }
  rewrite fmap_cons in Hnd. apply NoDup_cons in Hnd as [Hk0 Hnd]. cbn [fst] in Hk0.
  destruct (decide (k0 = k)) as [->|Hne].
  - apply elem_of_cons in Hin as [[= -> ->]|Hin].
    + right. split; [done|]. exists vs0. split; [done|]. left. left.
    + left. split; [|by right]. intros ->. apply Hk0.
      apply list_elem_of_fmap. by exists (k, vs').
  - apply elem_of_cons in Hin as [[= -> ->]|Hin].
    + left. split; [done|left].
    + destruct (IH Hnd Hin) as [[? ?]|[-> (vs & -> & [?|[? ->]])]].
      * left. split; [done|by right].
      * right. split; [done|]. exists vs. split; [done|]. left. by right.
      * right. split; [done|]. exists []. split; [done|]. right. split; [|done].
        rewrite fmap_cons, elem_of_cons. cbn. naive_solver.
Qed.

Lemma group_append_grouped k v G l :
  grouped G l → grouped (group_append k v G) (l ++ [(k, v)]).
Proof.
  intros (Hnd & HG & Hnone). split; [by apply group_append_NoDup|]. split.
  - intros k' vs' Hin. rewrite entries_snoc. cbn [fst snd].
    destruct (group_append_elem k v G k' vs' Hnd Hin)
      as [[Hne Hin']|[-> (vs & -> & [Hin'|[Hk ->]])]].
    + rewrite decide_False by done. rewrite app_nil_r. by apply HG.
    + rewrite decide_True by done. destruct (HG k vs Hin') as [<- _].
      split; [done|]. by destruct vs.
    + rewrite decide_True by done. by rewrite (Hnone k Hk).
  - intros k' Hk'. rewrite group_append_keys in Hk'. rewrite entries_snoc. cbn [fst snd].
    destruct (decide (k ∈ G.*1)) as [Hin|Hin].
    + rewrite decide_False by (intros ->; done). rewrite app_nil_r. by apply Hnone.
    + rewrite elem_of_app, list_elem_of_singleton in Hk'.
      rewrite decide_False by naive_solver. rewrite app_nil_r. apply Hnone. naive_solver.
Qed.

Lemma groups_of_grouped l : grouped (groups_of l) l.
Proof.
  induction l as [|[k v] l IH] using rev_ind.
  - split; [constructor|]. split; [|done]. intros k vs Hin. by apply elem_of_nil in Hin.
  - rewrite groups_of_snoc. by apply group_append_grouped.
Qed.

Lemma entries_elem k v l : v ∈ entries k l ↔ (k, v) ∈ l.
Proof.
  unfold entries. rewrite list_elem_of_omap. split.
  - intros ([k' v'] & Hin & H). cbn in H. case_decide; [|done]. by simplify_eq.
  - intros Hin. exists (k, v). split; [done|]. cbn. by rewrite decide_True.
Qed.

(** The group of a key that has an entry. *)
Lemma groups_of_lookup k v l :
  (k, v) ∈ l → (k, entries k l) ∈ groups_of l.
Proof.
  intros Hin. destruct (groups_of_grouped l) as (_ & HG & Hnone).
  destruct (decide (k ∈ (groups_of l).*1)) as [Hk|Hk].
  - apply list_elem_of_fmap in Hk as ([k' vs] & -> & Hk). cbn [fst].
    by destruct (HG _ _ Hk) as [<- _].
  - apply Hnone in Hk. apply entries_elem in Hin. rewrite Hk in Hin.
    by apply elem_of_nil in Hin.
Qed.

End Groups.

Lemma foldl_ext {A B} (f g : A → B → A) (l : list B) (a : A) :
  (∀ a b, f a b = g a b) → foldl f a l = foldl g a l.
Proof. intros H. revert a. induction l as [|b l IH]; intros a; cbn; [done|]. by rewrite H, IH. Qed.

Lemma foldl_omap {A B C} (f : A → C → A) (g : B → option C) (l : list B) (a : A) :
  foldl (λ a b, match g b with Some c => f a c | None => a end) a l
  = foldl f a (omap g l).
Proof.
  revert a. induction l as [|b l IH]; intros a; cbn; [done|].
  destruct (g b); cbn; apply IH.
Qed.

Lemma rank_groups_eq (parsed_hand : list Card) :
  rank_groups parsed_hand = groups_of (by_rank <$> sorted_hand parsed_hand).
Proof.
  unfold rank_groups, groups_of. rewrite foldl_fmap. apply foldl_ext.
  by intros groups [idx [rank suit]].
Qed.

Lemma suit_groups_eq (parsed_hand : list Card) (matched_indices : gset nat) :
  suit_groups parsed_hand matched_indices
  = groups_of (by_suit <$> filter (λ ic, ic.1 ∉ matched_indices) (sorted_hand parsed_hand)).
Proof.
  unfold suit_groups, groups_of. rewrite foldl_fmap.
  generalize (sorted_hand parsed_hand) (@nil (string * list (nat * Z))).
  intros l. induction l as [|[idx [rank suit]] l IH]; intros groups; [done|].
  rewrite filter_cons. cbn [foldl fst]. destruct (decide (idx ∈ matched_indices)).
  - rewrite decide_False by tauto. apply IH.
  - rewrite decide_True by done. cbn [foldl]. apply IH.
Qed.

(** ** The melds a phase emits *)

Lemma emit_nil (st : meld_state) : emit st [] = st.
Proof.
  destruct st as [matched melds]. unfold emit. cbn. f_equal.
  - set_solver.
  - apply app_nil_r.
Qed.

Lemma emit_app (st : meld_state) (p1 p2 : list (list (nat * Card))) :
  emit (emit st p1) p2 = emit st (p1 ++ p2).
Proof.
  unfold emit. cbn [fst snd]. f_equal.
  - rewrite concat_app, fmap_app, list_to_set_app_L. set_solver.
  - by rewrite fmap_app, app_assoc.
Qed.

Lemma foldl_emit {A} (step : meld_state → A → meld_state)
    (pick : A → list (list (nat * Card))) (groups : list A) (st : meld_state) :
  (∀ st g, step st g = emit st (pick g)) →
  foldl step st groups = emit st (groups ≫= pick).
Proof.
  intros Hstep. revert st. induction groups as [|g groups IH]; intros st.
  - cbn. by rewrite emit_nil.
  - cbn [foldl]. rewrite IH, Hstep, emit_app. done.
Qed.

Lemma find_sets_step_emit (st : meld_state) (g : Z * list (nat * string)) :
  find_sets_step st g = emit st (set_pick g).
Proof.
  destruct g as [rank cards]. unfold find_sets_step, set_pick. cbn [fst snd].
  repeat case_decide; try (by rewrite emit_nil).
  unfold emit. cbn. by rewrite app_nil_r.
Qed.

Lemma add_runs_emit (suit : string) (seqs : list (list (nat * Z))) (st : meld_state) :
  foldl (add_run suit) st seqs = emit st ((λ seq : list (nat * Z), of_suit suit <$> seq) <$> seqs).
Proof.
  revert st. induction seqs as [|seq seqs IH]; intros st; [by rewrite emit_nil|].
  cbn [foldl]. rewrite IH, fmap_cons.
  change (_ :: ?l) with ([of_suit suit <$> seq] ++ l). rewrite <- emit_app. f_equal.
  unfold add_run, emit. cbn. by rewrite app_nil_r.
Qed.

Lemma find_runs_step_emit (st : meld_state) (g : string * list (nat * Z)) :
  find_runs_step st g = emit st (run_pick g).
Proof.
  destruct g as [suit cards]. unfold find_runs_step, run_pick. cbn [fst snd].
  case_decide; [by rewrite emit_nil|]. apply add_runs_emit.
Qed.

Lemma find_sets_emit (parsed_hand : list Card) :
  find_sets parsed_hand = emit (∅, []) (set_picks parsed_hand).
Proof. apply foldl_emit, find_sets_step_emit. Qed.

Lemma find_melds_emit (parsed_hand : list Card) :
  find_melds parsed_hand
  = emit (∅, []) (set_picks parsed_hand ++ run_picks parsed_hand).
Proof.
  rewrite <- emit_app, <- find_sets_emit.
  destruct parsed_hand as [|c l] eqn:E; [by vm_compute|]. rewrite <- E.
  unfold find_melds. rewrite E at 1. apply foldl_emit, find_runs_step_emit.
Qed.

(** ** The picks come from the sorted hand *)

Lemma take_set_cards_sublist (rank : Z) (cards : list (nat * string))
    (used_suits : gset string) (set_cards : list (nat * Card)) :
  ∃ taken, take_set_cards rank cards used_suits set_cards = set_cards ++ taken
           ∧ taken `sublist_of` (of_rank rank <$> cards).
Proof.
  revert used_suits set_cards.
  induction cards as [|[idx suit] cards IH]; intros used_suits set_cards.
  { exists []. by rewrite app_nil_r. }
  cbn [take_set_cards]. rewrite fmap_cons. destruct (decide (suit ∈ used_suits)).
  - destruct (IH used_suits set_cards) as (taken & -> & Hsub).
    exists taken. split; [done|]. by apply sublist_cons.
  - case_decide.
    + exists [(idx, (rank, suit))]. split; [done|]. apply sublist_skip, sublist_nil_l.
    + destruct (IH ({[suit]} ∪ used_suits) (set_cards ++ [(idx, (rank, suit))]))
        as (taken & -> & Hsub).
      exists ((idx, (rank, suit)) :: taken). rewrite <- app_assoc. split; [done|].
      by apply sublist_skip.
Qed.

Lemma set_pick_submseteq (g : Z * list (nat * string)) :
  concat (set_pick g) ⊆+ of_rank g.1 <$> g.2.
Proof.
  unfold set_pick. repeat case_decide; try apply submseteq_nil_l.
  cbn [concat]. rewrite app_nil_r.
  destruct (take_set_cards_sublist g.1 g.2 ∅ []) as (taken & -> & Hsub).
  by apply sublist_submseteq.
Qed.

Lemma scan_sequences_sublist (cards : list (nat * Z)) (prev : Z)
    (current_seq : list (nat * Z)) (sequences : list (list (nat * Z))) :
  ∃ found, scan_sequences cards prev current_seq sequences = sequences ++ found
           ∧ concat found `sublist_of` current_seq ++ cards.
Proof.
  revert prev current_seq sequences.
  induction cards as [|c cards IH]; intros prev current_seq sequences; cbn [scan_sequences].
  { case_decide.
    - exists [current_seq]. split; [done|]. cbn. by rewrite !app_nil_r.
    - exists []. rewrite app_nil_r. split; [done|]. apply sublist_nil_l. }
  case_decide.
  - destruct (IH c.2 (current_seq ++ [c]) sequences) as (found & -> & Hsub).
    exists found. split; [done|]. by rewrite <- app_assoc in Hsub.
  - case_decide.
    + destruct (IH c.2 [c] (sequences ++ [current_seq])) as (found & -> & Hsub).
      exists (current_seq :: found). rewrite <- app_assoc. split; [done|].
      cbn [concat]. by apply sublist_app.
    + destruct (IH c.2 [c] sequences) as (found & -> & Hsub).
      exists found. split; [done|]. by apply sublist_inserts_l.
Qed.

Lemma find_sequences_sublist (cards : list (nat * Z)) :
  concat (find_sequences cards) `sublist_of` cards.
Proof.
  destruct cards as [|c0 cards]; [done|]. unfold find_sequences.
  by destruct (scan_sequences_sublist cards c0.2 [c0] []) as (found & -> & Hsub).
Qed.

Lemma concat_fmap_fmap {A B} (f : A → B) (ls : list (list A)) :
  concat ((λ l : list A, f <$> l) <$> ls) = f <$> concat ls.
Proof.
  induction ls as [|l ls IH]; [done|]. cbn. by rewrite fmap_app, <- IH.
Qed.

Lemma run_pick_submseteq (g : string * list (nat * Z)) :
  concat (run_pick g) ⊆+ of_suit g.1 <$> g.2.
Proof.
  unfold run_pick. case_decide; [apply submseteq_nil_l|].
  rewrite concat_fmap_fmap. apply fmap_submseteq.
  etransitivity; [apply sublist_submseteq, find_sequences_sublist|].
  by rewrite (sorted_perm snd Z.ltb).
Qed.

Lemma bind_picks_submseteq {K V} (pick : K * list V → list (list (nat * Card)))
    (untag : K → V → nat * Card) (groups : list (K * list V)) :
  (∀ g, concat (pick g) ⊆+ untag g.1 <$> g.2) →
  concat (groups ≫= pick) ⊆+ (λ kv, untag kv.1 kv.2) <$> flat groups.
Proof.
  intros Hpick. induction groups as [|g groups IH]; [done|].
  rewrite flat_cons, fmap_app. cbn [mbind list_bind]. rewrite concat_app.
  apply submseteq_app; [|exact IH].
  etransitivity; [apply Hpick|]. by rewrite <- list_fmap_compose.
Qed.

Lemma set_picks_submseteq (parsed_hand : list Card) :
  concat (set_picks parsed_hand) ⊆+ sorted_hand parsed_hand.
Proof.
  unfold set_picks.
  etransitivity; [apply (bind_picks_submseteq set_pick of_rank), set_pick_submseteq|].
  rewrite rank_groups_eq, groups_of_flat, <- list_fmap_compose.
  rewrite (list_fmap_ext _ id); [by rewrite list_fmap_id|].
  by intros ? [idx [rank suit]] _.
Qed.

Lemma run_picks_submseteq (parsed_hand : list Card) :
  concat (run_picks parsed_hand)
  ⊆+ filter (λ ic, ic.1 ∉ (find_sets parsed_hand).1) (sorted_hand parsed_hand).
Proof.
  unfold run_picks.
  etransitivity; [apply (bind_picks_submseteq run_pick of_suit), run_pick_submseteq|].
  rewrite suit_groups_eq, groups_of_flat, <- list_fmap_compose.
  rewrite (list_fmap_ext _ id); [by rewrite list_fmap_id|].
  by intros ? [idx [rank suit]] _.
Qed.

Lemma submseteq_NoDup {A} (l k : list A) : l ⊆+ k → NoDup k → NoDup l.
Proof.
  intros (k' & Hk)%submseteq_Permutation Hnd. rewrite Hk in Hnd.
  by apply NoDup_app in Hnd as [? _].
Qed.

(** Every indexed meld card is a card of the hand at its index, the indices
    of all melds are distinct, and the runs use no index matched by a set. *)
Lemma picks_sound (parsed_hand : list Card) :
  let picks := concat (set_picks parsed_hand ++ run_picks parsed_hand) in
  (∀ i c, (i, c) ∈ picks → parsed_hand !! i = Some c) ∧ NoDup picks.*1.
Proof.
  cbn zeta. rewrite concat_app. split.
  - intros i c [Hin|Hin]%elem_of_app; apply sorted_hand_lookup.
    + eapply elem_of_submseteq; [exact Hin|apply set_picks_submseteq].
    + eapply elem_of_submseteq in Hin; [|apply run_picks_submseteq].
      by apply list_elem_of_filter in Hin as [_ ?].
  - rewrite fmap_app. apply NoDup_app. split; [|split].
    + eapply submseteq_NoDup; [apply fmap_submseteq, set_picks_submseteq|].
      apply sorted_hand_NoDup.
    + intros i Hset Hrun. apply list_elem_of_fmap in Hrun as ([i' c] & -> & Hrun).
      eapply elem_of_submseteq in Hrun; [|apply run_picks_submseteq].
      apply list_elem_of_filter in Hrun as [Hun _]. apply Hun.
      rewrite find_sets_emit. unfold emit. cbn [fst]. set_solver.
    + eapply submseteq_NoDup; [apply fmap_submseteq, run_picks_submseteq|].
      eapply submseteq_NoDup; [apply fmap_submseteq, sublist_submseteq, sublist_filter|].
      apply sorted_hand_NoDup.
Qed.

(** ** MeldFinder: the partition *)

Lemma find_melds_matched (parsed_hand : list Card) (i : nat) :
  i ∈ (find_melds parsed_hand).1
  ↔ i ∈ (concat (set_picks parsed_hand ++ run_picks parsed_hand)).*1.
Proof. rewrite find_melds_emit. unfold emit. cbn [fst]. set_solver. Qed.

Lemma find_melds_melds (parsed_hand : list Card) :
  (find_melds parsed_hand).2
  = (λ p : list (nat * Card), p.*2) <$> (set_picks parsed_hand ++ run_picks parsed_hand).
Proof. by rewrite find_melds_emit. Qed.

Lemma NoDup_cards_of_indices (parsed_hand : list Card) (l : list (nat * Card)) :
  NoDup parsed_hand → NoDup l.*1 →
  (∀ i c, (i, c) ∈ l → parsed_hand !! i = Some c) →
  NoDup l.*2.
Proof.
  intros Hhand. induction l as [|[i c] l IH]; intros Hnd Hl; [constructor|].
  rewrite fmap_cons in Hnd. apply NoDup_cons in Hnd as [Hi Hnd]. cbn [fst] in Hi.
  rewrite fmap_cons. apply NoDup_cons. split.
  - cbn [snd]. intros ([j c'] & -> & Hin)%list_elem_of_fmap. cbn [snd] in *.
    assert (i = j) as ->.
    { eapply NoDup_lookup; [exact Hhand|apply Hl; left|apply Hl; by right]. }
    apply Hi. apply list_elem_of_fmap. by exists (j, c').
  - apply IH; [done|]. intros. apply Hl. by right.
Qed.

Lemma elem_of_concat {A} (x : A) (ls : list (list A)) :
  x ∈ concat ls ↔ ∃ l, x ∈ l ∧ l ∈ ls.
Proof.
  induction ls as [|l ls IH]; cbn [concat].
  - split; [by intros ?%elem_of_nil|]. by intros (l & _ & ?%elem_of_nil).
  - rewrite elem_of_app, IH. split.
    + intros [?|(l' & ? & ?)]; [exists l; split; [done|left]|].
      exists l'. split; [done|by right].
    + intros (l' & Hx & [->|?]%elem_of_cons); [by left|]. right. by exists l'.
Qed.

Lemma NoDup_concat_lookup {A} (ls : list (list A)) (j k : nat) (l1 l2 : list A) (x : A) :
  NoDup (concat ls) → ls !! j = Some l1 → ls !! k = Some l2 → x ∈ l1 → x ∈ l2 → j = k.
Proof.
  revert j k. induction ls as [|l ls IH]; intros j k Hnd Hj Hk H1 H2; [done|].
  cbn [concat] in Hnd. apply NoDup_app in Hnd as (_ & Hdis & Hnd).
  assert (∀ n l', ls !! n = Some l' → x ∈ l' → x ∈ concat ls) as Hin.
  { intros n l' Hn Hx. apply elem_of_concat. exists l'. split; [done|].
    by eapply list_elem_of_lookup_2. }
  destruct j as [|j], k as [|k]; cbn in Hj, Hk; simplify_eq.
  - done.
  - destruct (Hdis x H1). by eapply Hin.
  - destruct (Hdis x H2). by eapply Hin.
  - f_equal. by eapply IH.
Qed.

Lemma find_melds_certificate (parsed_hand : list Card) :
  NoDup parsed_hand →
  (∀ i, i ∈ (find_melds parsed_hand).1
        ↔ ∃ c m, parsed_hand !! i = Some c ∧ m ∈ (find_melds parsed_hand).2 ∧ c ∈ m)
  ∧ NoDup (concat (find_melds parsed_hand).2).
Proof.
  intros Hhand. destruct (picks_sound parsed_hand) as [Hsound Hnd]. cbn zeta in *.
  rewrite find_melds_melds. set (picks := set_picks parsed_hand ++ run_picks parsed_hand) in *.
  split.
  - intros i. rewrite find_melds_matched. fold picks. split.
    + intros ([i' c] & -> & Hin)%list_elem_of_fmap. cbn [fst].
      pose proof Hin as (p & Hp & Hpicks)%elem_of_concat.
      exists c, p.*2. split; [by apply Hsound|]. split.
      * apply list_elem_of_fmap. by exists p.
      * apply list_elem_of_fmap. by exists (i', c).
    + intros (c & m & Hi & (p & -> & Hp)%list_elem_of_fmap & Hc).
      apply list_elem_of_fmap in Hc as ([j c'] & -> & Hc). cbn [snd] in Hi.
      assert ((j, c') ∈ concat picks) as Hin.
      { apply elem_of_concat. by exists p. }
      assert (i = j) as ->.
      { eapply NoDup_lookup; [exact Hhand|exact Hi|by apply Hsound]. }
      apply list_elem_of_fmap. by exists (j, c').
  - rewrite concat_fmap_fmap. by apply (NoDup_cards_of_indices parsed_hand).
Qed.

Lemma calculate_deadwood_zero (hand : list string) :
  calculate_deadwood hand = 0%Z
  ↔ ∀ i, i < List.length (parseable hand) → i ∈ (find_melds (parseable hand)).1.
Proof.
  rewrite calculate_deadwood_sum.
  pose proof (Zsum_pos _ (unmatched_values_pos hand)) as [_ ->].
  unfold unmatched_cards. set (matched := (find_melds (parseable hand)).1).
  split.
  - intros Hnil%fmap_nil_inv%fmap_nil_inv i Hi.
    apply lookup_lt_is_Some in Hi as [c Hc].
    destruct (decide (i ∈ matched)) as [|Hn]; [done|].
    apply enumerate_lookup in Hc.
    assert ((i, c) ∈ filter (λ ic : nat * Card, ic.1 ∉ matched)
                       (Py.enumerate (parseable hand))) as Hin.
    { by apply list_elem_of_filter. }
    rewrite Hnil in Hin. by apply elem_of_nil in Hin.
  - intros Hall.
    destruct (filter (λ ic : nat * Card, ic.1 ∉ matched) (Py.enumerate (parseable hand)))
      as [|[i c] l] eqn:E; [done|].
    assert ((i, c) ∈ filter (λ ic : nat * Card, ic.1 ∉ matched)
                       (Py.enumerate (parseable hand))) as Hin.
    { rewrite E. left. }
    apply list_elem_of_filter in Hin as [Hn Hin]. destruct Hn.
    apply Hall. apply enumerate_lookup in Hin. by eapply lookup_lt_Some.
Qed.

(** C4: for a hand without duplicate cards the output of MeldFinder is a
    partition certificate. An index is in the matched set exactly when the
    card at that index lies in one of the melds; no card lies in two melds or
    twice in one (the melds are pairwise disjoint); the card at an index
    outside the matched set lies in no meld. The deadwood is not negative,
    and it is 0 exactly when the index of every parseable card is matched. *)
Theorem find_melds_partition (hand : list string) :
  NoDup (parseable hand) →
  let parsed_hand := parseable hand in
  let matched := (find_melds parsed_hand).1 in
  let melds := (find_melds parsed_hand).2 in
  (∀ i, i ∈ matched ↔ ∃ c m, parsed_hand !! i = Some c ∧ m ∈ melds ∧ c ∈ m)
  ∧ NoDup (concat melds)
  ∧ (∀ j k m1 m2 c,
       melds !! j = Some m1 → melds !! k = Some m2 → c ∈ m1 → c ∈ m2 → j = k)
  ∧ (∀ i c m, parsed_hand !! i = Some c → i ∉ matched → m ∈ melds → c ∉ m)
  ∧ (0 ≤ calculate_deadwood hand)%Z
  ∧ (calculate_deadwood hand = 0%Z
     ↔ ∀ i, i < List.length parsed_hand → i ∈ matched).
Proof.
  intros Hnd. cbn zeta.
  destruct (find_melds_certificate (parseable hand) Hnd) as [Hmatched Hdisjoint].
  split; [exact Hmatched|]. split; [exact Hdisjoint|]. split; [|split; [|split]].
  - intros j k m1 m2 c. by apply NoDup_concat_lookup.
  - intros i c m Hi Hn Hm Hc. apply Hn, Hmatched. eauto.
  - apply calculate_deadwood_nonneg.
  - apply calculate_deadwood_zero.
Qed.

Lemma find_melds_partition_witness :
  let hand := ["K-hearts"; "K-diamonds"; "K-clubs"; "2-spades"; "x"] in
  NoDup (parseable hand)
  ∧ (∀ i, i ∈ (find_melds (parseable hand)).1
          ↔ ∃ c m, parseable hand !! i = Some c
                   ∧ m ∈ (find_melds (parseable hand)).2 ∧ c ∈ m)
  ∧ NoDup (concat (find_melds (parseable hand)).2)
  ∧ (0 ≤ calculate_deadwood hand)%Z.
Proof.
  cbn zeta.
  assert (NoDup (parseable ["K-hearts"; "K-diamonds"; "K-clubs"; "2-spades"; "x"])) as H.
  { apply (bool_decide_unpack _). vm_compute. reflexivity. }
  split; [exact H|].
  pose proof (find_melds_partition
                ["K-hearts"; "K-diamonds"; "K-clubs"; "2-spades"; "x"] H) as Hp.
  cbn zeta in Hp. destruct Hp as (H1 & H2 & _ & _ & H5 & _).
  split; [exact H1|]. split; [exact H2|exact H5].
Defined.

(** ** The scan for runs *)

Lemma scan_sequences_blocks (cards before current_seq : list (nat * Z))
    (sequences : list (list (nat * Z))) (prev r : Z) :
  current_seq ≠ [] →
  current_seq.*2 = seqZ r (Z.of_nat (List.length current_seq)) →
  prev = (r + Z.of_nat (List.length current_seq) - 1)%Z →
  (∀ x, last before = Some x → (x.2 + 1)%Z ≠ r) →
  ∃ found,
    scan_sequences cards prev current_seq sequences = sequences ++ found
    ∧ Forall (λ s : list (nat * Z), (3 ≤ List.length s)%nat
                   ∧ ∃ r', block (before ++ current_seq ++ cards) s r') found.
Proof.
  revert before current_seq sequences prev r.
  induction cards as [|c cards IH];
    intros before current_seq sequences prev r Hne Hrun Hprev Hgap;
    cbn [scan_sequences].
  { assert (block (before ++ current_seq ++ []) current_seq r) as Hblock.
    { exists before, []. by rewrite app_nil_r. }
    case_decide.
    - exists [current_seq]. split; [done|]. repeat constructor; [done|]. by exists r.
    - exists []. rewrite app_nil_r. by split. }
  case_decide as Hc.
  - destruct (IH before (current_seq ++ [c]) sequences c.2 r) as (found & -> & Hfound).
    + by destruct current_seq.
    + rewrite fmap_app, length_app, Hrun. cbn [fmap list_fmap List.length].
      rewrite Nat.add_1_r, seqZ_S. do 2 f_equal. lia.
    + rewrite length_app. cbn [List.length]. lia.
    + done.
    + exists found. split; [done|]. by rewrite <- app_assoc in Hfound.
  - assert (block (before ++ current_seq ++ c :: cards) current_seq r) as Hblock.
    { exists before, (c :: cards). split; [done|]. split; [done|]. split; [done|].
      intros y [= <-]. lia. }
    destruct (IH (before ++ current_seq) [c]
                (if decide (3 ≤ List.length current_seq)%nat
                 then sequences ++ [current_seq] else sequences) c.2 c.2)
      as (found & -> & Hfound).
    + done.
    + cbn. by rewrite seqZ_cons, seqZ_nil by lia.
    + cbn [List.length]. lia.
    + intros x Hx. rewrite last_app in Hx.
      destruct (last current_seq) as [z|] eqn:Hlast.
      * injection Hx as Hzx. subst x. intros Heq. apply Hc.
        assert (z.2 = prev) as <-; [|lia].
        apply last_Some in Hlast as (l' & ->).
        rewrite fmap_app, length_app in Hrun. cbn [fmap list_fmap List.length] in Hrun.
        rewrite Nat.add_1_r, seqZ_S in Hrun. apply app_inj_tail in Hrun as [_ Hz].
        rewrite length_app in Hprev. cbn [List.length] in Hprev. lia.
      * apply last_None in Hlast. done.
    + rewrite <- !app_assoc in Hfound. cbn [app] in Hfound. case_decide.
      * exists (current_seq :: found). rewrite <- app_assoc. split; [done|].
        constructor; [|done]. split; [done|]. by exists r.
      * by exists found.
Qed.

Lemma find_sequences_blocks (cards : list (nat * Z)) :
  Forall (λ s : list (nat * Z), (3 ≤ List.length s)%nat ∧ ∃ r, block cards s r) (find_sequences cards).
Proof.
  destruct cards as [|c0 cards]; [constructor|]. unfold find_sequences.
  destruct (scan_sequences_blocks cards [] [c0] [] c0.2 c0.2) as (found & -> & Hfound).
  - done.
  - cbn. by rewrite seqZ_cons, seqZ_nil by lia.
  - cbn [List.length]. lia.
  - done.
  - done.
Qed.

(** In a list of strictly ascending ranks a block is maximal: no element has
    the rank before its first or after its last. *)
Lemma block_maximal (l s : list (nat * Z)) (r : Z) :
  StronglySorted (λ a b : nat * Z, a.2 < b.2)%Z l → s ≠ [] → block l s r →
  ∀ x, x ∈ l → x.2 ≠ (r - 1)%Z ∧ x.2 ≠ (r + Z.of_nat (List.length s))%Z.
Proof.
  intros Hsorted Hne (pre & post & -> & Hrun & Hbefore & Hafter) x Hx.
  apply StronglySorted_app in Hsorted as (Hpre_s & Hpre & Hsorted).
  apply StronglySorted_app in Hsorted as (Hs_post & Hs & Hpost).
  assert (∀ y, y ∈ s → r ≤ y.2 < r + Z.of_nat (List.length s))%Z as Hs_range.
  { intros y Hy. assert (y.2 ∈ s.*2) as Hin by (apply list_elem_of_fmap; eauto).
    rewrite Hrun in Hin. apply elem_of_seqZ in Hin. lia. }
  assert (∃ first, first ∈ s ∧ first.2 = r) as (first & Hfirst & Hfirst_r).
  { destruct s as [|y s]; [done|]. exists y. split; [left|].
    cbn in Hrun. rewrite seqZ_cons in Hrun by lia. by injection Hrun. }
  assert (∃ final, final ∈ s ∧ final.2 = r + Z.of_nat (List.length s) - 1)%Z
    as (final & Hfinal & Hfinal_r).
  { destruct (last s) as [y|] eqn:Hlast; [|by apply last_None in Hlast].
    apply last_Some in Hlast as (s' & ->). exists y. split; [set_solver|].
    rewrite fmap_app, length_app in Hrun. cbn [fmap list_fmap List.length] in Hrun.
    rewrite Nat.add_1_r, seqZ_S in Hrun. apply app_inj_tail in Hrun as [_ Hy].
    rewrite length_app. cbn [List.length]. lia. }
  apply elem_of_app in Hx as [Hx|Hx]; [|apply elem_of_app in Hx as [Hx|Hx]].
  - (* before the block *)
    pose proof (Hpre_s x first Hx ltac:(set_solver)) as Hlt. cbn in Hlt.
    split; [|lia].
    destruct (last pre) as [z|] eqn:Hlast; [|apply last_None in Hlast; set_solver].
    specialize (Hbefore z eq_refl).
    pose proof (Hpre_s z first ltac:(apply last_Some in Hlast as (? & ->); set_solver)
                  ltac:(set_solver)) as Hz. cbn in Hz.
    apply last_Some in Hlast as (pre' & ->).
    apply elem_of_app in Hx as [Hx|Hx%list_elem_of_singleton]; [|subst; lia].
    apply StronglySorted_app in Hpre as (Hpre' & _ & _).
    pose proof (Hpre' x z Hx ltac:(set_solver)) as Hxz. cbn in Hxz. lia.
  - apply Hs_range in Hx. lia.
  - pose proof (Hs_post final x Hfinal Hx) as Hlt. cbn in Hlt. split; [lia|].
    destruct post as [|y post]; [set_solver|]. specialize (Hafter y eq_refl).
    apply elem_of_cons in Hx as [->|Hx]; [lia|].
    apply StronglySorted_cons in Hpost as [Hy _].
    rewrite Forall_forall in Hy. specialize (Hy x Hx). cbn in Hy.
    pose proof (Hs_post final y Hfinal ltac:(left)) as Hfy. cbn in Hfy. lia.
Qed.

(** ** Phase 2 *)

Lemma entries_retag {X K V} `{EqDecision K} (tag : X → K * V) (untag : K → V → X)
    (k : K) (l : list X) :
  (∀ x, untag (tag x).1 (tag x).2 = x) →
  untag k <$> entries k (tag <$> l) = filter (λ x, (tag x).1 = k) l.
Proof.
  intros Htag. unfold entries. induction l as [|x l IH]; [done|].
  rewrite fmap_cons, filter_cons. cbn [omap list_omap].
  destruct (decide ((tag x).1 = k)) as [<-|Hne].
  - rewrite fmap_cons, Htag. by f_equal.
  - exact IH.
Qed.

Lemma ascending_strict (l : list (nat * Z)) :
  StronglySorted (Py.ascending snd Z.ltb) l → NoDup l.*2 →
  StronglySorted (λ a b : nat * Z, a.2 < b.2)%Z l.
Proof.
  induction 1 as [|x l Hl IH Hx]; intros Hnd; [constructor|].
  rewrite fmap_cons in Hnd. apply NoDup_cons in Hnd as [Hnotin Hnd].
  constructor; [by apply IH|]. rewrite Forall_forall in Hx |- *. intros y Hy.
  specialize (Hx y Hy). unfold Py.ascending in Hx. apply Z.ltb_ge in Hx.
  assert (y.2 ≠ x.2); [|lia]. intros Heq. apply Hnotin. rewrite <- Heq.
  apply list_elem_of_fmap. by exists y.
Qed.

Section SuitGroup.
Context (parsed_hand : list Card) (Hhand : NoDup parsed_hand).
Context (suit : string) (cards : list (nat * Z)).
Context (Hgroup : (suit, cards) ∈ suit_groups parsed_hand (find_sets parsed_hand).1).

Lemma suit_group_cards :
  of_suit suit <$> cards
  = filter (λ ic : nat * Card, ic.2.2 = suit)
      (filter (λ ic, ic.1 ∉ (find_sets parsed_hand).1) (sorted_hand parsed_hand)).
Proof.
  rewrite suit_groups_eq in Hgroup.
  destruct (groups_of_grouped
              (by_suit <$> filter (λ ic, ic.1 ∉ (find_sets parsed_hand).1)
                                  (sorted_hand parsed_hand))) as (_ & HG & _).
  destruct (HG suit cards Hgroup) as [-> _].
  apply (entries_retag by_suit of_suit). by intros [idx [rank s]].
Qed.

Lemma suit_group_elem (idx : nat) (rank : Z) :
  (idx, rank) ∈ cards
  ↔ parsed_hand !! idx = Some (rank, suit) ∧ idx ∉ (find_sets parsed_hand).1.
Proof.
  transitivity ((idx, (rank, suit)) ∈ of_suit suit <$> cards).
  - rewrite list_elem_of_fmap. split.
    + intros H. by exists (idx, rank).
    + intros ([i r] & [= -> ->] & H). done.
  - rewrite suit_group_cards, !list_elem_of_filter, sorted_hand_lookup. cbn. tauto.
Qed.

Lemma suit_group_left (rank : Z) :
  left_by_sets parsed_hand (rank, suit) ↔ rank ∈ cards.*2.
Proof.
  unfold left_by_sets. rewrite list_elem_of_fmap. split.
  - intros (i & Hi). exists (i, rank). split; [done|]. by apply suit_group_elem.
  - intros ([i r] & -> & Hi). exists i. by apply suit_group_elem.
Qed.

Lemma suit_group_NoDup : NoDup cards.*2.
Proof.
  apply (NoDup_fmap_1 (λ x, (x, suit))). rewrite <- list_fmap_compose.
  assert ((λ x : Z, (x, suit)) ∘ snd <$> cards = (of_suit suit <$> cards).*2) as ->.
  { by rewrite <- list_fmap_compose. }
  apply (NoDup_cards_of_indices parsed_hand); [done| |].
  - rewrite suit_group_cards.
    eapply sublist_NoDup; [apply (sorted_hand_NoDup parsed_hand)|].
    apply fmap_sublist. etransitivity; apply sublist_filter.
  - intros i c. rewrite suit_group_cards, !list_elem_of_filter, sorted_hand_lookup. tauto.
Qed.

Lemma run_pick_maximal (p : list (nat * Card)) :
  p ∈ run_pick (suit, cards) → maximal_run parsed_hand p.*2.
Proof.
  unfold run_pick. cbn [fst snd]. case_decide; [by intros ?%elem_of_nil|].
  intros (s & -> & Hs)%list_elem_of_fmap.
  set (l := Py.sorted snd Z.ltb cards) in *.
  assert (l ≡ₚ cards) as Hperm by apply sorted_perm.
  assert (StronglySorted (λ a b : nat * Z, a.2 < b.2)%Z l) as Hsorted.
  { apply ascending_strict.
    - apply sorted_sorted; [apply Z_ltb_asym|apply Z_geb_trans].
    - rewrite Hperm. apply suit_group_NoDup. }
  pose proof (find_sequences_blocks l) as Hblocks.
  rewrite Forall_forall in Hblocks. destruct (Hblocks s Hs) as (Hlen & r & Hblock).
  assert (s ≠ []) as Hne by (intros ->; cbn in Hlen; lia).
  pose proof (block_maximal l s r Hsorted Hne Hblock) as Hmax.
  destruct Hblock as (pre & post & Hl & Hrun & _).
  exists suit, r, (Z.of_nat (List.length s)). split; [lia|]. split; [|split; [|split]].
  - unfold run_from. rewrite <- Hrun, <- !list_fmap_compose. done.
  - intros c ([i x] & -> & ([i' r'] & [= -> ->] & Hin)%list_elem_of_fmap)%list_elem_of_fmap.
    cbn [snd]. apply suit_group_left. rewrite <- Hperm, Hl.
    apply list_elem_of_fmap. exists (i', r'). split; [done|]. set_solver.
  - intros Hleft%suit_group_left. rewrite <- Hperm in Hleft.
    apply list_elem_of_fmap in Hleft as (x & Hx & Hin). destruct (Hmax x Hin). congruence.
  - intros Hleft%suit_group_left. rewrite <- Hperm in Hleft.
    apply list_elem_of_fmap in Hleft as (x & Hx & Hin). destruct (Hmax x Hin). congruence.
Qed.
End SuitGroup.

Lemma run_from_lookup (suit : string) (r k : Z) (i : nat) (c : Card) :
  run_from suit r k !! i = Some c → c = ((r + Z.of_nat i)%Z, suit).
Proof.
  unfold run_from. rewrite list_lookup_fmap. intros H.
  destruct (seqZ r k !! i) as [x|] eqn:E; [|done]. injection H as <-.
  apply lookup_seqZ in E as [-> _]. done.
Qed.

Lemma find_melds_runs (parsed_hand : list Card) :
  (find_melds parsed_hand).2
  = (find_sets parsed_hand).2
    ++ ((λ p : list (nat * Card), p.*2) <$> run_picks parsed_hand).
Proof. by rewrite find_melds_melds, find_sets_emit, fmap_app. Qed.

Lemma run_picks_maximal (parsed_hand : list Card) :
  NoDup parsed_hand →
  Forall (maximal_run parsed_hand)
         ((λ p : list (nat * Card), p.*2) <$> run_picks parsed_hand).
Proof.
  intros Hhand. apply Forall_fmap, Forall_forall. intros p Hp.
  unfold run_picks in Hp. apply list_elem_of_bind in Hp as ([suit cards] & Hp & Hg).
  by apply (run_pick_maximal parsed_hand Hhand suit cards).
Qed.

(** ** Runs *)

Lemma run_from_ace_low (suit : string) (r k : Z) : ace_low (run_from suit r k).
Proof.
  intros i j s1 s2 Hi%run_from_lookup Hj%run_from_lookup.
  injection Hi as Hi _. injection Hj as Hj _. lia.
Qed.

(** Every card the scan walks over lies in a block, and the scan keeps the
    blocks of three cards or more. *)
Lemma scan_sequences_cover (cards before current_seq : list (nat * Z))
    (sequences : list (list (nat * Z))) (prev r : Z) :
  current_seq ≠ [] →
  current_seq.*2 = seqZ r (Z.of_nat (List.length current_seq)) →
  prev = (r + Z.of_nat (List.length current_seq) - 1)%Z →
  (∀ x, last before = Some x → (x.2 + 1)%Z ≠ r) →
  ∃ found,
    scan_sequences cards prev current_seq sequences = sequences ++ found
    ∧ ∀ x, x ∈ current_seq ++ cards →
        ∃ s r', x ∈ s ∧ block (before ++ current_seq ++ cards) s r'
                ∧ ((3 ≤ List.length s)%nat → s ∈ found).
Proof.
  revert before current_seq sequences prev r.
  induction cards as [|c cards IH];
    intros before current_seq sequences prev r Hne Hrun Hprev Hgap;
    cbn [scan_sequences].
  { assert (block (before ++ current_seq ++ []) current_seq r) as Hblock.
    { exists before, []. by rewrite app_nil_r. }
    exists (if decide (3 ≤ List.length current_seq)%nat then [current_seq] else []).
    split; [by case_decide; rewrite ?app_nil_r|].
    intros x Hx. rewrite app_nil_r in Hx. exists current_seq, r.
    split; [done|]. split; [done|]. intros Hlen. rewrite decide_True by done. left. }
  case_decide as Hc.
  - destruct (IH before (current_seq ++ [c]) sequences c.2 r) as (found & -> & Hfound).
    + by destruct current_seq.
    + rewrite fmap_app, length_app, Hrun. cbn [fmap list_fmap List.length].
      rewrite Nat.add_1_r, seqZ_S. do 2 f_equal. lia.
    + rewrite length_app. cbn [List.length]. lia.
    + done.
    + exists found. split; [done|]. intros x Hx.
      rewrite <- app_assoc in Hfound. cbn [app] in Hfound. by apply Hfound.
  - assert (block (before ++ current_seq ++ c :: cards) current_seq r) as Hblock.
    { exists before, (c :: cards). split; [done|]. split; [done|]. split; [done|].
      intros y [= <-]. lia. }
    destruct (IH (before ++ current_seq) [c]
                (if decide (3 ≤ List.length current_seq)%nat
                 then sequences ++ [current_seq] else sequences) c.2 c.2)
      as (found & -> & Hfound).
    + done.
    + cbn. by rewrite seqZ_cons, seqZ_nil by lia.
    + cbn [List.length]. lia.
    + intros x Hx. rewrite last_app in Hx.
      destruct (last current_seq) as [z|] eqn:Hlast.
      * injection Hx as Hzx. subst x. intros Heq. apply Hc.
        assert (z.2 = prev) as <-; [|lia].
        apply last_Some in Hlast as (l' & ->).
        rewrite fmap_app, length_app in Hrun. cbn [fmap list_fmap List.length] in Hrun.
        rewrite Nat.add_1_r, seqZ_S in Hrun. apply app_inj_tail in Hrun as [_ Hz].
        rewrite length_app in Hprev. cbn [List.length] in Hprev. lia.
      * apply last_None in Hlast. done.
    + rewrite <- !app_assoc in Hfound. cbn [app] in Hfound.
      exists ((if decide (3 ≤ List.length current_seq)%nat then [current_seq] else [])
              ++ found).
      split; [by case_decide; rewrite <- ?app_assoc|].
      intros x [Hx|Hx]%elem_of_app.
      * exists current_seq, r. split; [done|]. split; [done|]. intros Hlen.
        rewrite decide_True by done. left.
      * destruct (Hfound x Hx) as (s & r' & Hs & Hb & Hin).
        exists s, r'. split; [done|]. split; [done|]. intros Hlen.
        apply elem_of_app. right. by apply Hin.
Qed.

Lemma find_sequences_cover (cards : list (nat * Z)) (x : nat * Z) :
  x ∈ cards →
  ∃ s r, x ∈ s ∧ block cards s r
         ∧ ((3 ≤ List.length s)%nat → s ∈ find_sequences cards).
Proof.
  destruct cards as [|c0 cards]; [by intros ?%elem_of_nil|]. unfold find_sequences.
  destruct (scan_sequences_cover cards [] [c0] [] c0.2 c0.2) as (found & -> & Hfound).
  - done.
  - cbn. by rewrite seqZ_cons, seqZ_nil by lia.
  - cbn [List.length]. lia.
  - done.
  - intros Hx. by apply Hfound.
Qed.

Section SuitGroupComplete.
Context (parsed_hand : list Card) (Hhand : NoDup parsed_hand).
Context (suit : string) (cards : list (nat * Z)).
Context (Hgroup : (suit, cards) ∈ suit_groups parsed_hand (find_sets parsed_hand).1).

(** A whole block of three cards or more among the cards of the suit that
    phase 1 left is emitted as one run. *)
Lemma run_pick_complete (r k : Z) :
  (3 ≤ k)%Z →
  (∀ c, c ∈ run_from suit r k → left_by_sets parsed_hand c) →
  ¬ left_by_sets parsed_hand ((r - 1)%Z, suit) →
  ¬ left_by_sets parsed_hand ((r + k)%Z, suit) →
  ∃ p, p ∈ run_pick (suit, cards) ∧ p.*2 = run_from suit r k.
Proof.
  intros Hk Hin Hlow Hhigh.
  set (l := Py.sorted snd Z.ltb cards).
  assert (l ≡ₚ cards) as Hperm by apply sorted_perm.
  assert (StronglySorted (λ a b : nat * Z, a.2 < b.2)%Z l) as Hsorted.
  { apply ascending_strict.
    - apply sorted_sorted; [apply Z_ltb_asym|apply Z_geb_trans].
    - rewrite Hperm. by apply (suit_group_NoDup parsed_hand Hhand suit cards). }
  assert (∀ x : Z, left_by_sets parsed_hand (x, suit) ↔ ∃ y, y ∈ l ∧ y.2 = x) as Hleft.
  { intros x. rewrite (suit_group_left parsed_hand suit cards Hgroup), <- Hperm.
    rewrite list_elem_of_fmap. split; intros (y & ? & ?); by exists y. }
  assert (∀ x : Z, (r ≤ x < r + k)%Z → ∃ y, y ∈ l ∧ y.2 = x) as Hrun.
  { intros x Hx. apply Hleft, Hin. unfold run_from.
    apply list_elem_of_fmap. exists x. split; [done|]. apply elem_of_seqZ. lia. }
  destruct (Hrun r ltac:(lia)) as (first & Hfirst & Hfirst_r).
  destruct (find_sequences_cover l first Hfirst) as (s & r0 & Hs & Hblock & Hfound).
  assert (s ≠ []) as Hne by (intros ->; by apply elem_of_nil in Hs).
  pose proof (block_maximal l s r0 Hsorted Hne Hblock) as Hmax.
  destruct Hblock as (pre & post & Hl & Hranks & _).
  assert (∀ x : Z, (r0 ≤ x < r0 + Z.of_nat (List.length s))%Z → ∃ y, y ∈ l ∧ y.2 = x)
    as Hs_in.
  { intros x Hx. assert (x ∈ s.*2) as Hxs by (rewrite Hranks; apply elem_of_seqZ; lia).
    apply list_elem_of_fmap in Hxs as (y & -> & Hy). exists y. split; [|done].
    rewrite Hl. set_solver. }
  assert (r0 ≤ r < r0 + Z.of_nat (List.length s))%Z as Hr_in.
  { assert (first.2 ∈ s.*2) as Hf by (apply list_elem_of_fmap; eauto).
    rewrite Hranks in Hf. apply elem_of_seqZ in Hf. lia. }
  assert (r0 = r) as ->.
  { destruct (decide (r0 = r)) as [|Hne0]; [done|]. destruct Hlow.
    apply Hleft, Hs_in. lia. }
  assert (Z.of_nat (List.length s) = k) as Hlen.
  { destruct (Z.lt_trichotomy (Z.of_nat (List.length s)) k) as [Hlt|[Heq|Hgt]]; [|done|].
    - destruct (Hrun (r + Z.of_nat (List.length s))%Z ltac:(lia)) as (y & Hy & Hy_r).
      destruct (Hmax y Hy) as [_ Hno]. done.
    - destruct Hhigh. apply Hleft, Hs_in. lia. }
  exists (of_suit suit <$> s). split.
  - unfold run_pick. cbn [fst snd].
    assert (List.length s ≤ List.length cards)%nat as Hle.
    { rewrite <- (Permutation_length Hperm). fold l. rewrite Hl, !length_app. lia. }
    rewrite decide_False by lia. apply list_elem_of_fmap. exists s. split; [done|].
    apply Hfound. lia.
  - unfold run_from. rewrite <- Hlen, <- Hranks, <- !list_fmap_compose. done.
Qed.
End SuitGroupComplete.

Lemma run_picks_complete (parsed_hand : list Card) (m : list Card) :
  NoDup parsed_hand → maximal_run parsed_hand m →
  m ∈ (λ p : list (nat * Card), p.*2) <$> run_picks parsed_hand.
Proof.
  intros Hhand (suit & r & k & Hk & -> & Hin & Hlow & Hhigh).
  assert (left_by_sets parsed_hand (r, suit)) as (i & Hi & Hni).
  { apply Hin. unfold run_from. apply list_elem_of_fmap. exists r. split; [done|].
    apply elem_of_seqZ. lia. }
  set (entries_of_suit :=
         by_suit <$> filter (λ ic : nat * Card, ic.1 ∉ (find_sets parsed_hand).1)
                            (sorted_hand parsed_hand)).
  assert ((suit, (i, r)) ∈ entries_of_suit) as Hentry.
  { apply list_elem_of_fmap. exists (i, (r, suit)). split; [done|].
    apply list_elem_of_filter. split; [done|]. by apply sorted_hand_lookup. }
  pose proof (groups_of_lookup _ _ _ Hentry) as Hgroup.
  fold entries_of_suit in Hgroup. unfold entries_of_suit in Hgroup.
  rewrite <- suit_groups_eq in Hgroup.
  destruct (run_pick_complete parsed_hand Hhand suit _ Hgroup r k Hk Hin Hlow Hhigh)
    as (p & Hp & <-).
  apply list_elem_of_fmap. exists p. split; [done|].
  unfold run_picks. apply list_elem_of_bind. eauto.
Qed.

Lemma NoDup_concat_nonempty {A} (ls : list (list A)) :
  NoDup (concat ls) → Forall (λ l, l ≠ []) ls → NoDup ls.
Proof.
  induction ls as [|l ls IH]; [constructor|]. cbn [concat].
  intros [Hl [Hdisj Hls]]%NoDup_app [Hne Hall]%Forall_cons. constructor; [|by apply IH].
  intros Hin. destruct l as [|x l]; [done|].
  apply (Hdisj x); [left|]. apply elem_of_concat. exists (x :: l). split; [left|done].
Qed.

(** C3, as the engine has it: for a hand without duplicate cards the melds
    are the sets of phase 1 followed by the runs of phase 2, and the runs
    are exactly the whole blocks of three cards or more: every run is at
    least three cards of one suit with ranks going up by exactly one, all of
    them cards phase 1 left unmatched, such that neither the card one rank
    below the first nor the card one rank above the last is left unmatched
    in that suit; every such block is emitted, and emitted once, as one
    meld. In a run no Ace comes after a King: the Ace is never rank-high; a
    run that holds a King and an Ace holds the whole suit between them. *)
Theorem find_melds_runs_maximal (parsed_hand : list Card) :
  NoDup parsed_hand →
  ∃ runs,
    (find_melds parsed_hand).2 = (find_sets parsed_hand).2 ++ runs
    ∧ Forall (λ m, maximal_run parsed_hand m ∧ ace_low m) runs
    ∧ (∀ m, maximal_run parsed_hand m → m ∈ runs)
    ∧ NoDup runs
    ∧ Forall (λ m, has_king_and_ace m →
                   ∃ suit, ∀ x, (1 ≤ x ≤ 13)%Z → (x, suit) ∈ m) runs.
Proof.
  intros Hhand. eexists. split; [apply find_melds_runs|].
  pose proof (run_picks_maximal parsed_hand Hhand) as Hruns.
  split; [|split; [|split]].
  - eapply Forall_impl; [exact Hruns|]. intros m Hm. split; [done|].
    destruct Hm as (suit & r & k & _ & -> & _). apply run_from_ace_low.
  - intros m Hm. by apply run_picks_complete.
  - destruct (find_melds_certificate parsed_hand Hhand) as [_ Hnd].
    rewrite find_melds_runs, concat_app in Hnd. apply NoDup_app in Hnd as (_ & _ & Hnd).
    apply NoDup_concat_nonempty; [done|].
    eapply Forall_impl; [exact Hruns|]. intros m (suit & r & k & Hk & -> & _).
    unfold run_from. intros Hnil%fmap_nil_inv.
    assert (r ∈ seqZ r k) as Hr by (apply elem_of_seqZ; lia).
    rewrite Hnil in Hr. by apply elem_of_nil in Hr.
  - eapply Forall_impl; [exact Hruns|].
    intros m (suit & r & k & Hk & -> & _) (s1 & s2 & Hking & Hace).
    unfold run_from in Hking, Hace.
    apply list_elem_of_fmap in Hking as (x13 & [= Hx13 _] & H13%elem_of_seqZ).
    apply list_elem_of_fmap in Hace as (x1 & [= Hx1 _] & H1%elem_of_seqZ).
    exists suit. intros x Hx. unfold run_from. apply list_elem_of_fmap.
    exists x. split; [done|]. apply elem_of_seqZ. lia.
Qed.

Lemma find_melds_runs_maximal_witness :
  let parsed_hand := [(7%Z, "hearts"); (13%Z, "spades"); (5%Z, "hearts"); (6%Z, "hearts")] in
  NoDup parsed_hand
  ∧ ∃ runs,
      (find_melds parsed_hand).2 = (find_sets parsed_hand).2 ++ runs
      ∧ Forall (λ m, maximal_run parsed_hand m ∧ ace_low m) runs
      ∧ (∀ m, maximal_run parsed_hand m → m ∈ runs)
      ∧ NoDup runs
      ∧ Forall (λ m, has_king_and_ace m →
                     ∃ suit, ∀ x, (1 ≤ x ≤ 13)%Z → (x, suit) ∈ m) runs.
Proof.
  cbn zeta.
  assert (NoDup [(7%Z, "hearts"); (13%Z, "spades"); (5%Z, "hearts"); (6%Z, "hearts")])
    as H.
  { apply (bool_decide_unpack _). vm_compute. reflexivity. }
  split; [exact H|].
  exact (find_melds_runs_maximal
           [(7%Z, "hearts"); (13%Z, "spades"); (5%Z, "hearts"); (6%Z, "hearts")] H).
Defined.

(** Seven consecutive cards of one suit make one meld of seven cards. *)
Example seven_card_run :
  (find_melds (run_from "clubs" 4 7)).2 = [run_from "clubs" 4 7].
Proof. vm_compute. reflexivity. Qed.

(** C3, as stated, fails: the thirteen cards of a suit make one run, from
    the Ace up to the King, so a run can hold both a King and an Ace. *)
Lemma full_suit_run_has_king_and_ace :
  ¬ (∀ parsed_hand runs,
       NoDup parsed_hand →
       (find_melds parsed_hand).2 = (find_sets parsed_hand).2 ++ runs →
       Forall (λ m, ¬ has_king_and_ace m) runs).
Proof.
  intros H.
  specialize (H (run_from "hearts" 1 13) [run_from "hearts" 1 13]).
  assert (NoDup (run_from "hearts" 1 13)) as Hnd.
  { apply (bool_decide_unpack _). vm_compute. reflexivity. }
  specialize (H Hnd ltac:(vm_compute; reflexivity)).
  apply Forall_inv in H. apply H. exists "hearts", "hearts".
  split; apply (bool_decide_unpack _); vm_compute; reflexivity.
Qed.

(** ** Phase 1 *)

Lemma StronglySorted_sublist {A} (R : A → A → Prop) (l k : list A) :
  l `sublist_of` k → StronglySorted R k → StronglySorted R l.
Proof.
  induction 1 as [|x l k Hsub IH|x l k Hsub IH]; intros Hk; [done| |].
  - apply StronglySorted_cons in Hk as [Hx Hk]. constructor; [by apply IH|].
    rewrite Forall_forall in Hx |- *. intros y Hy. apply Hx.
    by eapply sublist_subseteq.
  - apply StronglySorted_cons in Hk as [_ Hk]. by apply IH.
Qed.

Lemma StronglySorted_Forall_impl {A} (R R' : A → A → Prop) (P : A → Prop) (l : list A) :
  (∀ x y, P x → P y → R x y → R' x y) → Forall P l →
  StronglySorted R l → StronglySorted R' l.
Proof.
  intros HR HP. induction 1 as [|x l Hl IH Hx]; [constructor|].
  apply Forall_cons in HP as [HPx HP]. constructor; [by apply IH|].
  rewrite Forall_forall in Hx, HP |- *. intros y Hy. apply HR; auto.
Qed.

Lemma take_set_cards_spec (rank : Z) (cards : list (nat * string))
    (used_suits : gset string) (set_cards : list (nat * Card)) :
  ∃ taken : list (nat * string),
    take_set_cards rank cards used_suits set_cards = set_cards ++ (of_rank rank <$> taken)
    ∧ taken `sublist_of` cards
    ∧ NoDup taken.*2
    ∧ (∀ s, s ∈ taken.*2 → s ∉ used_suits)
    ∧ (List.length set_cards < 4 → List.length set_cards + List.length taken ≤ 4)%nat
    ∧ ((4 ≤ List.length set_cards + List.length taken)%nat
       ∨ ∀ s, s ∈ cards.*2 → s ∈ used_suits ∨ s ∈ taken.*2).
Proof.
  revert used_suits set_cards.
  induction cards as [|[idx suit] cards IH]; intros used_suits set_cards.
  { exists []. rewrite app_nil_r. split; [done|]. split; [done|].
    split; [constructor|]. split; [by intros s ?%elem_of_nil|].
    split; [cbn; lia|]. right. by intros s ?%elem_of_nil. }
  cbn [take_set_cards]. destruct (decide (suit ∈ used_suits)) as [Hused|Hused].
  - destruct (IH used_suits set_cards) as (taken & -> & Hsub & Hnd & Hnew & Hlen & Hall).
    exists taken. split; [done|]. split; [by apply sublist_cons|].
    split; [done|]. split; [done|]. split; [done|].
    destruct Hall as [?|Hall]; [by left|right]. intros s.
    rewrite fmap_cons, elem_of_cons. cbn. intros [->|?]; [by left|by apply Hall].
  - rewrite length_app. cbn [List.length]. case_decide as Hfour.
    + exists [(idx, suit)]. split; [done|].
      split; [apply sublist_skip, sublist_nil_l|].
      split; [cbn; apply NoDup_singleton|].
      split; [cbn; by intros s ->%list_elem_of_singleton|].
      split; [cbn; lia|]. left. cbn. lia.
    + destruct (IH ({[suit]} ∪ used_suits) (set_cards ++ [(idx, (rank, suit))]))
        as (taken & -> & Hsub & Hnd & Hnew & Hlen & Hall).
      rewrite length_app in Hlen, Hall. cbn [List.length] in Hlen, Hall.
      exists ((idx, suit) :: taken). rewrite <- app_assoc. split; [done|].
      split; [by apply sublist_skip|]. split; [|split; [|split]].
      * rewrite fmap_cons. apply NoDup_cons. split; [|done]. cbn.
        intros Hin. apply Hnew in Hin. set_solver.
      * intros s. rewrite fmap_cons, elem_of_cons. cbn.
        intros [->|Hin]; [done|]. apply Hnew in Hin. set_solver.
      * cbn [List.length]. lia.
      * cbn [List.length]. destruct Hall as [?|Hall]; [left; lia|right].
        intros s. rewrite !fmap_cons, !elem_of_cons. cbn.
        intros [->|Hin]; [right; by left|].
        destruct (Hall s Hin) as [Hs|Hs]; [|right; by right].
        apply elem_of_union in Hs as [->%elem_of_singleton|Hs]; [right; by left|by left].
Qed.

Lemma suits_by_name_sorted :
  StronglySorted (λ a b, String.ltb a b = true) SUITS_BY_NAME.
Proof. repeat constructor. Qed.

Lemma suits_by_name_elem (s : string) : s ∈ SUITS_BY_NAME ↔ s ∈ SUITS.
Proof. unfold SUITS_BY_NAME, SUITS. set_solver. Qed.

(** Two lists in strictly ascending order with the same elements are equal. *)
Lemma strictly_sorted_unique (l k : list string) :
  StronglySorted (λ a b, String.ltb a b = true) l →
  StronglySorted (λ a b, String.ltb a b = true) k →
  NoDup l → NoDup k → (∀ s, s ∈ l ↔ s ∈ k) → l = k.
Proof.
  intros Hl Hk Hndl Hndk Helem.
  apply (StronglySorted_unique_strong (λ a b, String.ltb a b = true)); try done.
  - intros a b _ _ Hab Hba. apply string_ltb_asym in Hab. congruence.
  - by apply NoDup_Permutation.
Qed.

Lemma suits_by_name_NoDup : NoDup SUITS_BY_NAME.
Proof. apply (bool_decide_unpack _). vm_compute. reflexivity. Qed.

Lemma nonstrict_NoDup_strict (l : list string) :
  StronglySorted (λ a b, String.ltb b a = false) l → NoDup l →
  StronglySorted (λ a b, String.ltb a b = true) l.
Proof.
  induction 1 as [|x l Hl IH Hx]; intros Hnd; [constructor|].
  apply NoDup_cons in Hnd as [Hnotin Hnd]. constructor; [by apply IH|].
  rewrite Forall_forall in Hx |- *. intros y Hy. specialize (Hx y Hy).
  destruct (String.ltb x y) eqn:E; [done|].
  rewrite (string_ltb_total x y E Hx) in Hnotin. done.
Qed.

Section RankGroup.
Context (parsed_hand : list Card).
Context (Hvalid : Forall (λ c : Card, c.2 ∈ SUITS) parsed_hand).
Context (rank : Z) (cards : list (nat * string)).
Context (Hgroup : (rank, cards) ∈ rank_groups parsed_hand).

Lemma rank_group_cards :
  of_rank rank <$> cards
  = filter (λ ic : nat * Card, ic.2.1 = rank) (sorted_hand parsed_hand).
Proof.
  rewrite rank_groups_eq in Hgroup.
  destruct (groups_of_grouped (by_rank <$> sorted_hand parsed_hand)) as (_ & HG & _).
  destruct (HG rank cards Hgroup) as [-> _].
  apply (entries_retag by_rank of_rank). by intros [idx [r s]].
Qed.

Lemma rank_group_suits (s : string) : s ∈ cards.*2 ↔ (rank, s) ∈ parsed_hand.
Proof.
  transitivity (∃ idx, (idx, (rank, s)) ∈ of_rank rank <$> cards).
  - rewrite list_elem_of_fmap. split.
    + intros ([idx s'] & -> & Hin). exists idx. apply list_elem_of_fmap.
      by exists (idx, s').
    + intros (idx & ([i s'] & [= -> ->] & Hin)%list_elem_of_fmap). by exists (i, s').
  - rewrite rank_group_cards. split.
    + intros (idx & [_ Hin]%list_elem_of_filter). apply sorted_hand_lookup in Hin.
      by eapply list_elem_of_lookup_2.
    + intros (idx & Hidx)%list_elem_of_lookup. exists idx.
      apply list_elem_of_filter. split; [done|]. by apply sorted_hand_lookup.
Qed.

Lemma rank_group_sorted :
  StronglySorted (λ a b, String.ltb b a = false) cards.*2.
Proof.
  assert (cards.*2 = (λ ic : nat * Card, ic.2.2) <$> (of_rank rank <$> cards)) as ->.
  { by rewrite <- list_fmap_compose. }
  rewrite rank_group_cards.
  apply (StronglySorted_fmap _ (λ x y : nat * Card,
           String.ltb y.2.2 x.2.2 = false)); [done|].
  apply (StronglySorted_Forall_impl (Py.ascending snd card_ltb)
           _ (λ ic : nat * Card, ic.2.1 = rank)).
  - intros x y Hx Hy Hxy. unfold Py.ascending in Hxy.
    apply card_ltb_false in Hxy as [_ Hxy]. apply Hxy. congruence.
  - apply Forall_forall. by intros x [? _]%list_elem_of_filter.
  - eapply StronglySorted_sublist; [apply sublist_filter|apply sorted_hand_sorted].
Qed.

(** The suits the walk takes are the suits present, in the order of their
    names. *)
Lemma rank_group_walk :
  ∃ taken : list (nat * string),
    take_set_cards rank cards ∅ [] = of_rank rank <$> taken
    ∧ taken `sublist_of` cards
    ∧ taken.*2 = suits_present SUITS_BY_NAME rank parsed_hand.
Proof.
  destruct (take_set_cards_spec rank cards ∅ [])
    as (taken & Htaken & Hsub & Hnd & _ & Hlen & Hall).
  exists taken. split; [done|]. split; [done|].
  assert (taken.*2 `sublist_of` cards.*2) as Hsub2 by (by apply fmap_sublist).
  assert (∀ s, s ∈ cards.*2 → s ∈ SUITS_BY_NAME) as Hsuits.
  { intros s Hs%rank_group_suits. apply suits_by_name_elem.
    rewrite Forall_forall in Hvalid. by apply (Hvalid (rank, s)). }
  apply strictly_sorted_unique.
  - apply nonstrict_NoDup_strict; [|done].
    eapply StronglySorted_sublist; [exact Hsub2|apply rank_group_sorted].
  - eapply StronglySorted_sublist; [apply sublist_filter|apply suits_by_name_sorted].
  - done.
  - apply NoDup_filter, suits_by_name_NoDup.
  - intros s. unfold suits_present. rewrite list_elem_of_filter, <- rank_group_suits.
    split.
    + intros Hs. assert (s ∈ cards.*2) by (by eapply sublist_subseteq). auto.
    + intros [Hs _]. destruct Hall as [Hfour|Hall].
      * cbn [List.length] in Hfour.
        assert (taken.*2 ≡ₚ SUITS_BY_NAME) as ->; [|by apply Hsuits].
        apply submseteq_length_Permutation.
        -- apply NoDup_submseteq; [done|]. intros x Hx. apply Hsuits.
           by eapply sublist_subseteq.
        -- rewrite length_fmap. cbn. lia.
      * destruct (Hall s Hs) as [?|?]; [set_solver|done].
Qed.

Lemma suits_present_length :
  (List.length (suits_present SUITS_BY_NAME rank parsed_hand) ≤ 4)%nat.
Proof. unfold suits_present. by rewrite length_filter. Qed.

(** The group emits a set exactly when three suits are present, and the set
    is the one of the walk by suit name. *)
Lemma rank_group_pick :
  ∃ set_cards,
    set_pick (rank, cards)
    = (if decide (3 ≤ List.length (suits_present SUITS_BY_NAME rank parsed_hand))%nat
       then [set_cards] else [])
    ∧ set_cards.*2 = spec_set SUITS_BY_NAME rank parsed_hand.
Proof.
  destruct rank_group_walk as (taken & Htaken & Hsub & Hsuits).
  exists (of_rank rank <$> taken). split.
  - unfold set_pick. cbn [fst snd]. rewrite Htaken, length_fmap.
    assert (List.length taken
            = List.length (suits_present SUITS_BY_NAME rank parsed_hand)) as Hlen.
    { by rewrite <- Hsuits, length_fmap. }
    assert (size (list_to_set (C := gset string) cards.*2)
            = List.length (suits_present SUITS_BY_NAME rank parsed_hand)) as Hsize.
    { rewrite <- (size_list_to_set (C := gset string))
        by (apply NoDup_filter, suits_by_name_NoDup).
      f_equal. apply set_eq. intros s. rewrite !elem_of_list_to_set. unfold suits_present.
      rewrite list_elem_of_filter, rank_group_suits, suits_by_name_elem. split; [|tauto].
      intros Hs. split; [done|]. rewrite Forall_forall in Hvalid.
      by apply (Hvalid (rank, s)). }
    rewrite Hsize, Hlen. apply sublist_length in Hsub.
    repeat case_decide; try done; lia.
  - unfold spec_set. rewrite take_ge by apply suits_present_length.
    rewrite <- Hsuits, <- !list_fmap_compose. done.
Qed.
End RankGroup.

Lemma find_sets_melds (parsed_hand : list Card) :
  (find_sets parsed_hand).2 = (λ p : list (nat * Card), p.*2) <$> set_picks parsed_hand.
Proof. by rewrite find_sets_emit. Qed.

(** C8, as the engine has it: the cards of a rank are walked in the order of
    the sorted hand, which lists the suits by name (clubs, diamonds, hearts,
    spades), taking one card per suit until the suits are exhausted or four
    cards are taken. For a hand of valid cards, every rank with at least
    three suits present gets the set of that walk, and every set phase 1
    emits is the set of that walk for a rank with at least three suits
    present; so the cards of each set appear in the order of the suit
    names. *)
Theorem find_sets_by_suit_name (parsed_hand : list Card) :
  Forall (λ c : Card, c.2 ∈ SUITS) parsed_hand →
  (∀ rank,
     (3 ≤ List.length (suits_present SUITS_BY_NAME rank parsed_hand))%nat →
     spec_set SUITS_BY_NAME rank parsed_hand ∈ (find_sets parsed_hand).2)
  ∧ (∀ m,
       m ∈ (find_sets parsed_hand).2 →
       ∃ rank,
         (3 ≤ List.length (suits_present SUITS_BY_NAME rank parsed_hand))%nat
         ∧ m = spec_set SUITS_BY_NAME rank parsed_hand).
Proof.
  intros Hvalid. rewrite find_sets_melds. split.
  - intros rank Hthree.
    destruct (suits_present SUITS_BY_NAME rank parsed_hand) as [|s l] eqn:E;
      [cbn in Hthree; lia|].
    assert (s ∈ suits_present SUITS_BY_NAME rank parsed_hand) as Hs by (rewrite E; left).
    apply list_elem_of_filter in Hs as [Hs _].
    apply list_elem_of_lookup in Hs as (idx & Hidx).
    apply sorted_hand_lookup in Hidx.
    assert ((rank, (idx, s)) ∈ by_rank <$> sorted_hand parsed_hand) as Hentry.
    { apply list_elem_of_fmap. by exists (idx, (rank, s)). }
    apply groups_of_lookup in Hentry. rewrite <- rank_groups_eq in Hentry.
    destruct (rank_group_pick parsed_hand Hvalid rank _ Hentry) as (set_cards & Hpick & Hset).
    rewrite E in Hpick. rewrite decide_True in Hpick by done.
    apply list_elem_of_fmap. exists set_cards. split; [by rewrite Hset|].
    unfold set_picks. apply list_elem_of_bind. eexists. split; [|exact Hentry].
    rewrite Hpick. left.
  - intros m (p & -> & Hp)%list_elem_of_fmap. unfold set_picks in Hp.
    apply list_elem_of_bind in Hp as ([rank cards] & Hp & Hg).
    destruct (rank_group_pick parsed_hand Hvalid rank cards Hg) as (set_cards & Hpick & Hset).
    rewrite Hpick in Hp. exists rank. case_decide; [|by apply elem_of_nil in Hp].
    split; [done|]. by apply list_elem_of_singleton in Hp as ->.
Qed.

Lemma find_sets_by_suit_name_witness :
  let parsed_hand :=
    [(13%Z, "hearts"); (13%Z, "diamonds"); (2%Z, "spades"); (13%Z, "clubs")] in
  Forall (λ c : Card, c.2 ∈ SUITS) parsed_hand
  ∧ (3 ≤ List.length (suits_present SUITS_BY_NAME 13 parsed_hand))%nat
  ∧ spec_set SUITS_BY_NAME 13 parsed_hand ∈ (find_sets parsed_hand).2.
Proof.
  cbn zeta.
  assert (Forall (λ c : Card, c.2 ∈ SUITS)
            [(13%Z, "hearts"); (13%Z, "diamonds"); (2%Z, "spades"); (13%Z, "clubs")])
    as H.
  { repeat constructor; apply (bool_decide_unpack _); vm_compute; reflexivity. }
  assert (3 ≤ List.length (suits_present SUITS_BY_NAME 13
            [(13%Z, "hearts"); (13%Z, "diamonds"); (2%Z, "spades"); (13%Z, "clubs")]))%nat
    as H3.
  { vm_compute. lia. }
  split; [exact H|]. split; [exact H3|].
  exact (proj1 (find_sets_by_suit_name
                  [(13%Z, "hearts"); (13%Z, "diamonds"); (2%Z, "spades"); (13%Z, "clubs")]
                  H) 13%Z H3).
Defined.

(** The set of three Kings lists them clubs, diamonds, hearts. *)
Example three_kings :
  (find_sets [(13%Z, "hearts"); (13%Z, "diamonds"); (13%Z, "clubs")]).2
  = [[(13%Z, "clubs"); (13%Z, "diamonds"); (13%Z, "hearts")]].
Proof. vm_compute. reflexivity. Qed.

(** C8, as stated, fails: the walk in the order hearts, diamonds, clubs,
    spades of the suit enumeration gives a set phase 1 does not emit. *)
Lemma set_not_in_suit_enumeration_order :
  ¬ (∀ parsed_hand rank,
       Forall (λ c : Card, c.2 ∈ SUITS) parsed_hand →
       (3 ≤ List.length (suits_present SUITS rank parsed_hand))%nat →
       spec_set SUITS rank parsed_hand ∈ (find_sets parsed_hand).2).
Proof.
  intros H.
  specialize (H [(13%Z, "hearts"); (13%Z, "diamonds"); (13%Z, "clubs")] 13%Z).
  assert (spec_set SUITS 13 [(13%Z, "hearts"); (13%Z, "diamonds"); (13%Z, "clubs")]
          = [(13%Z, "hearts"); (13%Z, "diamonds"); (13%Z, "clubs")]) as Hspec.
  { vm_compute. reflexivity. }
  rewrite Hspec, three_kings in H.
  assert (Forall (λ c : Card, c.2 ∈ SUITS)
            [(13%Z, "hearts"); (13%Z, "diamonds"); (13%Z, "clubs")]) as Hvalid.
  { repeat constructor; apply (bool_decide_unpack _); vm_compute; reflexivity. }
  specialize (H Hvalid ltac:(vm_compute; lia)).
  apply list_elem_of_singleton in H. discriminate H.
Qed.

(** ** CardCodec: more of the parser *)

Lemma valid_card_round_trip (c : Card) :
  (1 ≤ c.1 ≤ 13)%Z → c.2 ∈ SUITS →
  rank_str c.1 ∈ RANKS ∧ format_card c ∈ build_deck
  ∧ parse_card (format_card c) = Some c.
Proof.
  destruct c as [rank suit]. cbn [fst snd]. intros Hrank Hsuit.
  assert (rank_str rank ∈ RANKS) as Hr.
  { assert (rank = 1 ∨ rank = 2 ∨ rank = 3 ∨ rank = 4 ∨ rank = 5 ∨ rank = 6
            ∨ rank = 7 ∨ rank = 8 ∨ rank = 9 ∨ rank = 10 ∨ rank = 11 ∨ rank = 12
            ∨ rank = 13)%Z as Hin by lia.
    repeat (destruct Hin as [->|Hin]; [apply (bool_decide_unpack _); vm_compute; reflexivity|]).
    subst. apply (bool_decide_unpack _). vm_compute. reflexivity. }
  split; [done|]. split.
  - apply build_deck_tokens. by exists (rank_str rank), suit.
  - unfold format_card. cbn [fst snd].
    destruct (parse_canonical_token (rank_str rank) suit Hr Hsuit) as ([rank' suit'] & Hp & Hf).
    rewrite Hp. f_equal.
    assert (rank = 1 ∨ rank = 2 ∨ rank = 3 ∨ rank = 4 ∨ rank = 5 ∨ rank = 6
            ∨ rank = 7 ∨ rank = 8 ∨ rank = 9 ∨ rank = 10 ∨ rank = 11 ∨ rank = 12
            ∨ rank = 13)%Z as Hin by lia.
    unfold SUITS in Hsuit. set_unfold.
    repeat (destruct Hin as [->|Hin];
      [destruct Hsuit as [->|[->|[->|[->|[]]]]]; vm_compute in Hp; congruence|]).
    subst. destruct Hsuit as [->|[->|[->|[->|[]]]]]; vm_compute in Hp; congruence.
Qed.

(** X1: every card the parser returns is a card of the deck: its rendering
    is one of the 52 deck tokens and parses back to the same card. *)
Theorem parse_card_normal_form (card_str : string) (c : Card) :
  parse_card card_str = Some c →
  format_card c ∈ build_deck ∧ parse_card (format_card c) = Some c.
Proof.
  intros [Hrank Hsuit]%parse_card_valid.
  by destruct (valid_card_round_trip c Hrank Hsuit) as (_ & ? & ?).
Qed.

Lemma parse_card_normal_form_witness :
  parse_card " Q - spades " = Some (12%Z, "spades")
  ∧ format_card (12%Z, "spades") ∈ build_deck
  ∧ parse_card (format_card (12%Z, "spades")) = Some (12%Z, "spades").
Proof.
  assert (parse_card " Q - spades " = Some (12%Z, "spades")) as H
    by (vm_compute; reflexivity).
  split; [exact H|]. exact (parse_card_normal_form " Q - spades " (12%Z, "spades") H).
Defined.

Lemma split_length (sep : ascii) (s : string) :
  List.length (Py.split sep s) = S (count_char sep s).
Proof.
  induction s as [|c s IH]; [done|]. cbn [Py.split count_char].
  destruct (Ascii.eqb c sep); cbn [List.length]; [by rewrite IH|].
  destruct (Py.split sep s) as [|p ps]; [done|]. cbn [List.length] in *. lia.
Qed.

Lemma split_none (sep : ascii) (s : string) :
  count_char sep s = 0 → Py.split sep s = [s].
Proof.
  induction s as [|c s IH]; [done|]. cbn [Py.split count_char].
  destruct (Ascii.eqb c sep); [done|]. intros H. by rewrite IH.
Qed.

Lemma split_join (sep : ascii) (p0 p1 : string) :
  count_char sep p0 = 0 → count_char sep p1 = 0 →
  Py.split sep (p0 ++ String sep p1) = [p0; p1].
Proof.
  intros H0 H1. induction p0 as [|c p0 IH].
  - change (Py.split sep (String sep p1) = [""; p1]). cbn [Py.split].
    by rewrite Ascii.eqb_refl, split_none.
  - change (Py.split sep (String c (p0 ++ String sep p1)) = [String c p0; p1]).
    cbn [Py.split]. cbn [count_char] in H0.
    destruct (Ascii.eqb c sep); [done|]. by rewrite IH.
Qed.

Lemma RANK_VALUES_lookup (r : string) (v : Z) :
  RANK_VALUES !! r = Some v ↔ (1 ≤ v ≤ 13)%Z ∧ rank_str v = r.
Proof.
  split; [apply RANK_VALUES_range|]. intros [Hv <-].
  assert (v = 1 ∨ v = 2 ∨ v = 3 ∨ v = 4 ∨ v = 5 ∨ v = 6 ∨ v = 7 ∨ v = 8 ∨ v = 9
          ∨ v = 10 ∨ v = 11 ∨ v = 12 ∨ v = 13)%Z as Hin by lia.
  repeat (destruct Hin as [->|Hin]; [vm_compute; reflexivity|]).
  subst. vm_compute. reflexivity.
Qed.

(** What [parse_card] returns on two parts. *)
Lemma parse_card_parts (card_str p0 p1 : string) (c : Card) :
  Py.split "-" card_str = [p0; p1] →
  parse_card card_str = Some c
  ↔ (1 ≤ c.1 ≤ 13)%Z ∧ Py.strip p0 = rank_str c.1
    ∧ Py.strip p1 = c.2 ∧ c.2 ∈ SUITS.
Proof.
  intros Hsplit. unfold parse_card. rewrite Hsplit.
  destruct (RANK_VALUES !! Py.strip p0) as [v|] eqn:Hv; cbn [default from_option id].
  - pose proof Hv as [Hrange Hstr]%RANK_VALUES_lookup.
    rewrite bool_decide_eq_false_2 by lia. cbn [orb].
    destruct (bool_decide (Py.strip p1 ∈ SUITS)) eqn:Hs; cbn [negb].
    + apply bool_decide_eq_true in Hs. split.
      * intros [= <-]. cbn [fst snd]. done.
      * intros (Hc & Hr & Hs' & _). destruct c as [rank suit]. cbn [fst snd] in *.
        subst suit. symmetry in Hr. f_equal. f_equal.
        assert (RANK_VALUES !! Py.strip p0 = Some rank) as Hrank
          by (by apply RANK_VALUES_lookup).
        congruence.
    + apply bool_decide_eq_false in Hs. split; [done|].
      intros (_ & _ & <- & Hin). done.
  - rewrite bool_decide_eq_true_2 by done. cbn. split; [done|].
    intros (Hc & Hr & _). symmetry in Hr.
    assert (RANK_VALUES !! Py.strip p0 = Some c.1) as Hrank
      by (by apply RANK_VALUES_lookup).
    congruence.
Qed.

(** X2: a string that does not hold exactly one hyphen never parses. *)
Theorem parse_card_one_hyphen (card_str : string) (c : Card) :
  parse_card card_str = Some c → count_char "-" card_str = 1.
Proof.
  unfold parse_card. intros H. pose proof (split_length "-" card_str) as Hlen.
  destruct (Py.split "-" card_str) as [|p0 [|p1 [|? ?]]]; try done.
  cbn in Hlen. lia.
Qed.

Lemma parse_card_one_hyphen_witness :
  parse_card "10-diamonds" = Some (10%Z, "diamonds")
  ∧ count_char "-" "10-diamonds" = 1.
Proof.
  assert (parse_card "10-diamonds" = Some (10%Z, "diamonds")) as H
    by (vm_compute; reflexivity).
  split; [exact H|]. exact (parse_card_one_hyphen "10-diamonds" (10%Z, "diamonds") H).
Defined.

(** X3: the token joined from a rank and a suit without hyphens, as the test
    client joins the recognised cards, parses exactly when the rank, stripped
    of surrounding white space, is one of the 13 rank strings and the
    stripped suit one of the 4 suits; the card is then that rank's value with
    the stripped suit. *)
Theorem parse_joined_token (r s : string) (c : Card) :
  count_char "-" r = 0 → count_char "-" s = 0 →
  parse_card (token r s) = Some c
  ↔ (1 ≤ c.1 ≤ 13)%Z ∧ Py.strip r = rank_str c.1
    ∧ Py.strip s = c.2 ∧ c.2 ∈ SUITS.
Proof.
  intros Hr Hs. apply parse_card_parts. by apply split_join.
Qed.

Lemma parse_joined_token_witness :
  count_char "-" " 10 " = 0 ∧ count_char "-" "clubs " = 0
  ∧ parse_card (token " 10 " "clubs ") = Some (10%Z, "clubs").
Proof.
  assert (count_char "-" " 10 " = 0) as H1 by reflexivity.
  assert (count_char "-" "clubs " = 0) as H2 by reflexivity.
  split; [exact H1|]. split; [exact H2|].
  apply (proj2 (parse_joined_token " 10 " "clubs " (10%Z, "clubs") H1 H2)).
  split; [cbn; lia|]. split; [vm_compute; reflexivity|].
  split; [vm_compute; reflexivity|]. apply (bool_decide_unpack _). vm_compute. reflexivity.
Defined.

(** X4: the validation endpoint answers valid exactly for the strings that
    parse; the rank and suit it reports are canonical, they name the parsed
    card, and the deadwood value it reports is the DeadwoodValue of the rank,
    between 1 and 10. *)
Theorem validate_card_spec (card : string) :
  match validate_card card with
  | ValidCard rank suit deadwood_value =>
      rank ∈ RANKS ∧ suit ∈ SUITS
      ∧ (∃ c, parse_card card = Some c ∧ parse_card (token rank suit) = Some c
              ∧ deadwood_value = DeadwoodValue c.1)
      ∧ (1 ≤ deadwood_value ≤ 10)%Z
  | InvalidCard _ => parse_card card = None
  end.
Proof.
  unfold validate_card. destruct (parse_card card) as [[rank_val suit]|] eqn:Hp; [|done].
  pose proof Hp as [Hrank Hsuit]%parse_card_valid. cbn [fst snd] in *.
  destruct (valid_card_round_trip (rank_val, suit) Hrank Hsuit) as (Hr & _ & Hparse).
  split; [done|]. split; [done|]. rewrite DEADWOOD_VALUES_rank by done. split.
  - exists (rank_val, suit). done.
  - unfold DeadwoodValue. repeat case_decide; lia.
Qed.

(** ** DeckModel *)

Lemma build_deck_NoDup : NoDup build_deck.
Proof. apply (bool_decide_unpack _). vm_compute. reflexivity. Qed.

(** X5: the deck has 52 distinct tokens, and the cards they parse to are
    exactly the valid cards: a rank value from 1 to 13 with one of the four
    suits. *)
Theorem build_deck_cards :
  List.length build_deck = 52 ∧ NoDup build_deck
  ∧ ∀ c : Card,
      ((1 ≤ c.1 ≤ 13)%Z ∧ c.2 ∈ SUITS)
      ↔ ∃ t, t ∈ build_deck ∧ parse_card t = Some c.
Proof.
  split; [vm_compute; reflexivity|]. split; [apply build_deck_NoDup|].
  intros c. split.
  - intros [Hrank Hsuit]. exists (format_card c).
    by destruct (valid_card_round_trip c Hrank Hsuit) as (_ & ? & ?).
  - intros (t & _ & Ht). by apply parse_card_valid in Ht.
Qed.

Lemma size_list_to_set_le (l : list string) :
  (size (list_to_set (C := gset string) l) ≤ List.length l)%nat.
Proof.
  induction l as [|x l IH]; [done|]. cbn [list_to_set List.length].
  rewrite size_union_alt, size_singleton.
  assert (size (list_to_set (C := gset string) l ∖ {[x]})
          ≤ size (list_to_set (C := gset string) l))%nat
    by (apply subseteq_size; set_solver).
  lia.
Qed.

Lemma size_list_to_set_NoDup (l : list string) :
  size (list_to_set (C := gset string) l) = List.length l ↔ NoDup l.
Proof.
  split; [|apply size_list_to_set].
  induction l as [|x l IH]; [constructor|]. cbn [list_to_set List.length]. intros Hsize.
  pose proof (size_list_to_set_le l) as Hle.
  destruct (decide (x ∈ l)) as [Hin|Hin].
  - assert ({[x]} ∪ list_to_set l =@{gset string} list_to_set l) as Heq by set_solver.
    rewrite Heq in Hsize. lia.
  - rewrite size_union, size_singleton in Hsize by set_solver.
    constructor; [done|]. apply IH. lia.
Qed.

(** The unknown deck loses at most one token per distinct hand or visible
    token. *)
Lemma unknown_deck_count (my_hand_set visible_set : gset string) :
  (52 ≤ List.length (unknown_deck_of my_hand_set visible_set)
        + size my_hand_set + size visible_set)%nat.
Proof.
  unfold unknown_deck_of.
  set (P := λ c : string, (c ∉ my_hand_set) ∧ (c ∉ visible_set)).
  pose proof (filter_app_complement P build_deck) as Hperm.
  apply Permutation_length in Hperm. rewrite length_app in Hperm.
  assert (List.length build_deck = 52) as Hdeck by (vm_compute; reflexivity).
  assert (List.length (filter (λ x, ¬ P x) build_deck)
          ≤ size (my_hand_set ∪ visible_set))%nat as Hseen.
  { unfold size, set_size. cbn [elements].
    change (List.length (filter (λ x, ¬ P x) build_deck)
            ≤ List.length (elements (my_hand_set ∪ visible_set)))%nat.
    apply submseteq_length, NoDup_submseteq.
    - apply NoDup_filter, build_deck_NoDup.
    - intros t [Ht _]%list_elem_of_filter. apply elem_of_elements. unfold P in Ht.
      destruct (decide (t ∈ my_hand_set)); [set_solver|].
      destruct (decide (t ∈ visible_set)); [set_solver|]. tauto. }
  rewrite size_union_alt in Hseen.
  assert (size (visible_set ∖ my_hand_set) ≤ size visible_set)%nat
    by (apply subseteq_size; set_solver).
  lia.
Qed.

(** X6: the unknown deck is the deck without the hand and the visible tokens,
    in deck order and without repetition, and it loses at most one token per
    distinct hand or visible token. *)
Theorem unknown_deck_size (my_hand_set visible_set : gset string) :
  unknown_deck_of my_hand_set visible_set `sublist_of` build_deck
  ∧ NoDup (unknown_deck_of my_hand_set visible_set)
  ∧ (52 ≤ List.length (unknown_deck_of my_hand_set visible_set)
          + size my_hand_set + size visible_set)%nat.
Proof.
  split; [apply sublist_filter|].
  split; [apply NoDup_filter, build_deck_NoDup|].
  apply unknown_deck_count.
Qed.

(** ** DiscardAdvisor: errors and the response *)

Section AdvisorOutcomes.
Context {G : Type} (shuffle : list string → G → list string * G).

(** X7: the handler refuses a hand for duplicates exactly when all its tokens
    parse and some token occurs twice, and it does so before any shuffle. *)
Theorem suggest_discard_duplicates (request : SuggestRequest) (g : G) :
  suggest_discard shuffle request g = (Raise (HTTPException 400 DuplicateCards), g)
  ↔ unparseable (my_hand request) = [] ∧ ¬ NoDup (my_hand request).
Proof.
  unfold suggest_discard. rewrite invalid_cards_unparseable.
  destruct (unparseable (my_hand request)) as [|t l] eqn:Hun.
  - case_decide as Hsize.
    + split; [|done]. intros _. split; [done|].
      intros Hnd%size_list_to_set_NoDup. congruence.
    + assert (NoDup (my_hand request)) as Hnd.
      { apply size_list_to_set_NoDup. destruct (decide (size (list_to_set (C := gset string) (my_hand request)) = List.length (my_hand request))); [done|]. destruct Hsize. congruence. }
      split; [|tauto]. case_decide; [done|].
      destruct (suggest_loop _ _ _ _ _ _ _) as [[results|e] g1] eqn:E; [done|].
      apply suggest_loop_raises in E as ->. done.
  - split; [done|]. by intros [? _].
Qed.

(** X8: the handler reports an exhausted deck exactly when the hand is valid
    and every deck token is in the hand or among the visible tokens, before
    any shuffle; the hand and the visible list then hold at least 52 tokens
    together. *)
Theorem suggest_discard_deck_exhausted (request : SuggestRequest) (g : G) :
  (suggest_discard shuffle request g = (Raise (HTTPException 400 NoUnknownCards), g)
   ↔ unparseable (my_hand request) = [] ∧ NoDup (my_hand request)
     ∧ ∀ t, t ∈ build_deck → t ∈ my_hand request ∨ t ∈ visible request)
  ∧ (suggest_discard shuffle request g = (Raise (HTTPException 400 NoUnknownCards), g)
     → (52 ≤ List.length (my_hand request) + List.length (visible request))%nat).
Proof.
  assert (unknown_deck_of (list_to_set (my_hand request)) (list_to_set (visible request))
          = []
          ↔ ∀ t, t ∈ build_deck → t ∈ my_hand request ∨ t ∈ visible request) as Hdeck.
  { unfold unknown_deck_of. split.
    - intros Hnil t Ht.
      destruct (decide (t ∈ my_hand request)); [by left|].
      destruct (decide (t ∈ visible request)); [by right|].
      assert (t ∉ build_deck) as Hn; [|done].
      eapply filter_nil_not_elem_of; [exact Hnil|]. cbn beta.
      by rewrite !elem_of_list_to_set.
    - intros Hall.
      destruct (filter _ build_deck) as [|t l] eqn:E; [done|].
      assert (t ∈ filter (λ c : string,
                (c ∉ (list_to_set (my_hand request) : gset string))
                ∧ (c ∉ (list_to_set (visible request) : gset string))) build_deck) as Hin.
      { rewrite E. left. }
      apply list_elem_of_filter in Hin as [[H1 H2] Hin].
      rewrite elem_of_list_to_set in H1, H2. destruct (Hall t Hin); done. }
  assert (suggest_discard shuffle request g
          = (Raise (HTTPException 400 NoUnknownCards), g)
          ↔ unparseable (my_hand request) = [] ∧ NoDup (my_hand request)
            ∧ unknown_deck_of (list_to_set (my_hand request))
                              (list_to_set (visible request)) = []) as Hiff.
  { unfold suggest_discard. rewrite invalid_cards_unparseable.
    destruct (unparseable (my_hand request)) as [|t l] eqn:Hun.
    - case_decide as Hsize.
      + split; [done|]. intros (_ & Hnd%size_list_to_set_NoDup & _). congruence.
      + assert (NoDup (my_hand request)) as Hnd.
        { apply size_list_to_set_NoDup.
          destruct (decide (size (list_to_set (C := gset string) (my_hand request))
                            = List.length (my_hand request))); [done|].
          destruct Hsize. congruence. }
        case_decide as Hlen.
        * split; [|done]. intros _. split; [done|]. split; [done|].
          by destruct (unknown_deck_of _ _).
        * split; [|intros (_ & _ & Hnil); rewrite Hnil in Hlen; done].
          destruct (suggest_loop _ _ _ _ _ _ _) as [[results|e] g1] eqn:E; [done|].
          apply suggest_loop_raises in E as ->. done.
    - split; [done|]. by intros [? _]. }
  split; [by rewrite Hiff, Hdeck|].
  intros (_ & _ & Hnil)%Hiff.
  pose proof (unknown_deck_count (list_to_set (my_hand request))
                                 (list_to_set (visible request))) as Hsize.
  rewrite Hnil in Hsize. cbn [List.length] in Hsize.
  pose proof (size_list_to_set_le (my_hand request)).
  pose proof (size_list_to_set_le (visible request)). lia.
Qed.

(** X9: the endpoint never answers with an internal error: whatever it
    refuses, it refuses with the request-model error or one of the three
    errors of the handler, and the generator is left as it was, so no trial
    has run. *)
Theorem post_suggest_errors (request : SuggestRequest) (g g' : G) (e : exn) :
  post_suggest shuffle request g = (Raise e, g') →
  g' = g
  ∧ (e = HTTPException 422 RequestValidationError
     ∨ e = HTTPException 400 (InvalidCardFormats (unparseable (my_hand request)))
     ∨ e = HTTPException 400 DuplicateCards
     ∨ e = HTTPException 400 NoUnknownCards).
Proof.
  unfold post_suggest. destruct (request_valid request) eqn:Hvalid.
  - assert (1 ≤ trials request)%Z as Htrials.
    { unfold request_valid in Hvalid. apply andb_true_iff in Hvalid as [Hv _].
      apply andb_true_iff in Hv as [_ Hv]. apply bool_decide_eq_true in Hv. lia. }
    unfold suggest_discard. rewrite invalid_cards_unparseable.
    destruct (unparseable (my_hand request)) as [|t l] eqn:Hun.
    + case_decide; [intros [= <- <-]; auto|].
      case_decide as Hlen; [intros [= <- <-]; auto|].
      destruct (suggest_loop_returns shuffle request
                  (unknown_deck_of (list_to_set (my_hand request))
                                   (list_to_set (visible request)))
                  (calculate_deadwood (my_hand request)) (my_hand request) [] g)
        as (results & g1 & -> & _); [|done|done].
      intros Hnil. by rewrite Hnil in Hlen.
    + intros [= <- <-]. auto.
  - intros [= <- <-]. auto.
Qed.
End AdvisorOutcomes.

Lemma post_suggest_errors_witness :
  post_suggest Tape.shuffle
    {| my_hand := ["A-hearts"; "A-hearts"]; visible := []; trials := 50; max_draws := 5 |}
    [7; 7]
  = (Raise (HTTPException 400 DuplicateCards), [7; 7])
  ∧ [7; 7] = [7; 7]
  ∧ (HTTPException 400 DuplicateCards = HTTPException 422 RequestValidationError
     ∨ HTTPException 400 DuplicateCards
       = HTTPException 400 (InvalidCardFormats (unparseable ["A-hearts"; "A-hearts"]))
     ∨ HTTPException 400 DuplicateCards = HTTPException 400 DuplicateCards
     ∨ HTTPException 400 DuplicateCards = HTTPException 400 NoUnknownCards).
Proof.
  assert (post_suggest Tape.shuffle
            {| my_hand := ["A-hearts"; "A-hearts"]; visible := []; trials := 50;
               max_draws := 5 |} [7; 7]
          = (Raise (HTTPException 400 DuplicateCards), [7; 7])) as H
    by (vm_compute; reflexivity).
  split; [exact H|].
  exact (post_suggest_errors Tape.shuffle _ _ _ _ H).
Defined.

(** ** Doubles *)

(** The literals of the advisor and the quotients of small integers are the
    floats the division of the Standard Library's IEEE 754 specification
    gives. *)
Example round_double_division :
  Forall (λ nd : Z * Z,
            round_double (nd.1 # Z.to_pos nd.2)
            = SF_value (SFdiv 53 1024 (SF_of_Z nd.1) (SF_of_Z nd.2)))
         [(3, 10); (4, 10); (45, 100); (5, 10); (7, 10); (75, 100); (8, 10);
          (11, 20); (535, 200); (46, 50); (4, 50); (1, 3); (2, 3); (1, 2000);
          (129, 7); (-7, 3)]%Z.
Proof. repeat constructor; vm_compute; reflexivity. Qed.

(** [1.0 * (1.0 - 11.0 / 20)] is the float of the specification, just below
    the float [0.45]. *)
Example normalized_prob_below_literal :
  fmul 1 (fsub 1 (fdiv 11 20))
  = SF_value (SFmul 53 1024 (SF_of_Z 1)
                (SFsub 53 1024 (SF_of_Z 1) (SFdiv 53 1024 (SF_of_Z 11) (SF_of_Z 20))))
  ∧ (fmul 1 (fsub 1 (fdiv 11 20)) < literal (45 # 100))%Q
  ∧ (fmul 1 (fsub 1 (fdiv (literal (84 # 10)) 12)) < literal (3 # 10))%Q.
Proof. split; [vm_compute; reflexivity|]. split; vm_compute; reflexivity. Qed.

(** [round(x, 2)] rounds the value the float holds: [535 / 200] is below
    2.675 and goes to 2.67, [11.525] is above its decimal and goes to
    11.53, [0.125] is a half and goes to the even 0.12. *)
Example round2_of_floats :
  round2 (fdiv 535 200) = literal (267 # 100)
  ∧ round2 (literal (11525 # 1000)) = literal (1153 # 100)
  ∧ round2 (literal (5 # 1000)) = literal (1 # 100)
  ∧ round2 (literal (125 # 1000)) = literal (12 # 100).
Proof. repeat split; vm_compute; reflexivity. Qed.

(** ** DiscardAdvisor: the suggestions *)

Lemma clamp_range (q : Q) : (0 <= py_min (py_max q 0) 1)%Q ∧ (py_min (py_max q 0) 1 <= 1)%Q.
Proof.
  unfold py_min, py_max.
  destruct (Qltb q 0) eqn:E1.
  - destruct (Qltb 1 0) eqn:E2.
    + apply Qltb_lt in E2. lra.
    + split; lra.
  - apply Qltb_ge in E1. destruct (Qltb 1 q) eqn:E2.
    + split; lra.
    + apply Qltb_ge in E2. split; lra.
Qed.

Lemma get_confidence_level_label (prob : Q) (trials : Z) :
  get_confidence_level prob trials ∈ CONFIDENCE_LEVELS.
Proof.
  unfold get_confidence_level, CONFIDENCE_LEVELS.
  repeat case_decide; repeat (destruct (Qle_bool _ _)); set_solver.
Qed.

Lemma make_suggestion_well_formed (request : SuggestRequest) (current_deadwood : Z)
    (card_to_discard : string) (avg_deadwood win_prob : Q) :
  well_formed_suggestion
    (make_suggestion request current_deadwood card_to_discard avg_deadwood win_prob).
Proof.
  unfold well_formed_suggestion, make_suggestion. cbn [win_probability confidence].
  split; [apply clamp_range|]. split; [apply clamp_range|].
  apply get_confidence_level_label.
Qed.

Section AdvisorResponse.
Context {G : Type} (shuffle : list string → G → list string * G).

Lemma suggest_loop_well_formed (request : SuggestRequest) (unknown_deck : list string)
    (current_deadwood : Z) (cards : list string) (results out : list DiscardSuggestion)
    (g g' : G) :
  suggest_loop shuffle request unknown_deck current_deadwood cards results g
  = (Ok out, g') →
  Forall well_formed_suggestion results →
  Forall well_formed_suggestion out ∧ card <$> out = (card <$> results) ++ cards.
Proof.
  revert results g. induction cards as [|c cards IH]; intros results g; cbn [suggest_loop].
  { intros [= <- <-] H. by rewrite app_nil_r. }
  destruct (simulate_game _ _ _ _ _ _) as [[[avg wp]|e] g1]; [|done].
  intros Hloop Hres.
  assert (Forall well_formed_suggestion
            (results ++ [make_suggestion request current_deadwood c
                           (round_double avg) (round_double wp)])) as Hres'.
  { apply Forall_app. split; [done|].
    constructor; [apply make_suggestion_well_formed|constructor]. }
  destruct (IH _ _ Hloop Hres') as [Hout Hcards].
  split; [done|]. rewrite Hcards, fmap_app. cbn. by rewrite <- app_assoc.
Qed.

(** What a response of the handler is made of: the suggestions of the loop,
    one per token of the hand and in its order, then sorted; the message is
    read off the first of the sorted suggestions. *)
Lemma suggest_discard_sorted (request : SuggestRequest) (g g' : G)
    (response : SuggestResponse) :
  suggest_discard shuffle request g = (Ok response, g') →
  ∃ results,
    card <$> results = my_hand request
    ∧ Forall well_formed_suggestion results
    ∧ suggestions response = Py.sorted_reverse suggestion_key key_ltb results
    ∧ message response
      = match suggestions response with
        | first :: _ =>
            if Qltb (win_probability first) (literal (3 # 10))
            then Some low_probability_message else None
        | [] => None
        end.
Proof.
  unfold suggest_discard.
  destruct ((filter _ (zip (my_hand request) _)).*1); [|done].
  case_decide; [done|]. case_decide; [done|].
  destruct (suggest_loop _ _ _ _ _ _ _) as [[results|[|s d]] g1] eqn:E; [|done..].
  apply suggest_loop_well_formed in E as [Hwf Hcards]; [|constructor].
  intros [= <- <-]. cbn [suggestions message]. by exists results.
Qed.

(** A response of the endpoint is a response of the handler to a request
    that meets the request model. *)
Lemma post_suggest_ok (request : SuggestRequest) (g g' : G)
    (response : SuggestResponse) :
  post_suggest shuffle request g = (Ok response, g') →
  request_valid request = true
  ∧ suggest_discard shuffle request g = (Ok response, g').
Proof. unfold post_suggest. by destruct (request_valid request). Qed.

(** X10: whenever the endpoint returns a response, it holds one suggestion
    per token of the hand, each with a win probability between 0 and 1 and
    one of the labels high, medium, low; the advisory message is present
    exactly when the first win probability is below the float [0.3]. *)
Theorem suggest_discard_response (request : SuggestRequest) (g g' : G)
    (response : SuggestResponse) :
  post_suggest shuffle request g = (Ok response, g') →
  card <$> suggestions response ≡ₚ my_hand request
  ∧ Forall well_formed_suggestion (suggestions response)
  ∧ (message response = Some low_probability_message
     ↔ ∃ first rest, suggestions response = first :: rest
                     ∧ (win_probability first < literal (3 # 10))%Q)
  ∧ (message response = None ∨ message response = Some low_probability_message).
Proof.
  intros [_ (results & Hcards & Hwf & Hsorted & Hmsg)%suggest_discard_sorted]%post_suggest_ok.
  rewrite Hmsg, Hsorted. clear Hmsg Hsorted.
  set (sorted := Py.sorted_reverse suggestion_key key_ltb results).
  assert (sorted ≡ₚ results) as Hperm by apply sorted_reverse_perm.
  split; [by rewrite Hperm, Hcards|]. split; [by rewrite Hperm|].
  destruct sorted as [|first rest]; [split; [|by left]|].
  - split; [done|]. by intros (? & ? & ? & _).
  - destruct (Qltb (win_probability first) (literal (3 # 10))) eqn:Hlt.
    + apply Qltb_lt in Hlt. split; [|by right]. split; [|done]. intros _. eauto.
    + apply Qltb_ge in Hlt. split; [|by left]. split; [done|].
      intros (? & ? & [= <- <-] & Hlow). lra.
Qed.
End AdvisorResponse.

Lemma suggest_discard_response_witness :
  ∃ response g',
    post_suggest Tape.shuffle
      {| my_hand := ["K-spades"; "5-diamonds"]; visible := []; trials := 50;
         max_draws := 1 |} [3; 1; 4]
    = (Ok response, g')
    ∧ card <$> suggestions response ≡ₚ ["K-spades"; "5-diamonds"]
    ∧ Forall well_formed_suggestion (suggestions response).
Proof.
  destruct (post_suggest Tape.shuffle
      {| my_hand := ["K-spades"; "5-diamonds"]; visible := []; trials := 50;
         max_draws := 1 |} [3; 1; 4]) as [[response|e] g'] eqn:E.
  - exists response, g'. split; [reflexivity|].
    destruct (suggest_discard_response Tape.shuffle _ _ _ _ E) as (H1 & H2 & _).
    split; [exact H1|exact H2].
  - vm_compute in E. discriminate E.
Defined.

(** ** ConfidenceClassifier *)

(** The doubles behind the decimal literals of the goal. *)
Ltac literal_values :=
  repeat match goal with
  | |- context [literal ?q] =>
      let v := eval vm_compute in (literal q) in change (literal q) with v
  end.

(** X11: the confidence label is one of high, medium, low, and it never drops
    when the probability or the number of trials grows. *)
Theorem get_confidence_level_monotone (prob prob' : Q) (trials trials' : Z) :
  (prob <= prob')%Q → (trials ≤ trials')%Z →
  get_confidence_level prob trials ∈ CONFIDENCE_LEVELS
  ∧ (confidence_rank (get_confidence_level prob trials)
     ≤ confidence_rank (get_confidence_level prob' trials'))%nat.
Proof.
  intros Hprob Htrials. split; [apply get_confidence_level_label|].
  unfold get_confidence_level. literal_values.
  repeat case_decide; try lia;
    repeat match goal with
    | |- context [Qle_bool ?a ?b] =>
        let E := fresh "E" in
        destruct (Qle_bool a b) eqn:E;
        [apply Qle_bool_iff in E
        |apply not_true_iff_false in E; rewrite Qle_bool_iff in E]
    end;
    first [by (vm_compute; lia) | exfalso; lra].
Qed.

Lemma get_confidence_level_monotone_witness :
  (45 # 100 <= 72 # 100)%Q ∧ (200 ≤ 500)%Z
  ∧ (confidence_rank (get_confidence_level (45 # 100) 200)
     ≤ confidence_rank (get_confidence_level (72 # 100) 500))%nat.
Proof.
  assert (45 # 100 <= 72 # 100)%Q as H1 by (vm_compute; discriminate).
  assert (200 ≤ 500)%Z as H2 by lia.
  split; [exact H1|]. split; [exact H2|].
  exact (proj2 (get_confidence_level_monotone _ _ _ _ H1 H2)).
Defined.

(** ** MonteCarloSimulator: what an improvement costs *)

(** A draw either leaves the best deadwood and the counter as they were, or
    lowers the one and counts one improvement. *)
Lemma draw_commit_or_revert (initial_deadwood : Z) (st : trial_state) (drawn : string) :
  (st.1.2 ≤ initial_deadwood)%Z →
  let st' := draw initial_deadwood st drawn in
  (st'.1.2 = st.1.2 ∧ st'.2 = st.2)
  ∨ ((0 ≤ st'.1.2 < st.1.2)%Z ∧ st'.2 = (st.2 + 1)%Z).
Proof.
  destruct st as [[current_hand best_deadwood] improvements]. cbn [fst snd].
  intros Hbest. unfold draw.
  destruct (try_discards _) as [[b|] [c|]] eqn:E; cbn [fst snd]; try (by left).
  apply try_discards_nonneg in E.
  destruct (bool_decide (b < best_deadwood)%Z) eqn:Hb; cbn [andb]; [|by left].
  apply bool_decide_eq_true in Hb.
  destruct (Py.truthy c); cbn [fst snd]; [|by left].
  right. rewrite decide_True by lia. split; [lia|done].
Qed.

Lemma draws_slack (initial_deadwood : Z) (deck_copy : list string)
    (idxs : list nat) (st : trial_state) (improvements0 : Z) :
  (0 ≤ st.1.2)%Z → (improvements0 ≤ st.2)%Z →
  (st.1.2 + (st.2 - improvements0) ≤ initial_deadwood)%Z →
  (st.2 = improvements0 → st.1.2 = initial_deadwood) →
  let st' := foldl (λ st draw_num,
                      match deck_copy !! draw_num with
                      | Some drawn => draw initial_deadwood st drawn
                      | None => st
                      end) st idxs in
  (0 ≤ st'.1.2)%Z ∧ (improvements0 ≤ st'.2)%Z
  ∧ (st'.1.2 + (st'.2 - improvements0) ≤ initial_deadwood)%Z
  ∧ (st'.2 = improvements0 → st'.1.2 = initial_deadwood).
Proof.
  revert st. induction idxs as [|i idxs IH]; intros st H0 H1 H2 H3; cbn zeta; [done|].
  cbn [foldl]. apply IH; destruct (deck_copy !! i) as [drawn|]; try done;
    pose proof (draw_commit_or_revert initial_deadwood st drawn ltac:(lia)) as Hd;
    cbn zeta in Hd; destruct Hd as [[Hb Hi]|[Hb Hi]]; rewrite ?Hb, ?Hi; lia.
Qed.

Lemma trial_slack (hand deck_copy : list string) (max_draws initial_deadwood : Z)
    (improvements : Z) :
  (0 ≤ initial_deadwood)%Z →
  let r := trial hand deck_copy max_draws initial_deadwood improvements in
  (0 ≤ r.1)%Z ∧ (improvements ≤ r.2)%Z
  ∧ (r.1 + (r.2 - improvements) ≤ initial_deadwood)%Z
  ∧ (r.2 = improvements → r.1 = initial_deadwood).
Proof.
  intros Hinit. unfold trial. cbn [fst snd].
  apply (draws_slack initial_deadwood deck_copy (draw_range max_draws deck_copy)
           (hand, initial_deadwood, improvements) improvements); cbn [fst snd]; lia.
Qed.

Section SimulatorSlack.
Context {G : Type} (shuffle : list string → G → list string * G).

Lemma run_trials_slack (n : nat) (hand unknown_deck : list string)
    (max_draws initial_deadwood : Z) (acc : Z * Z) (g : G) :
  (0 ≤ initial_deadwood)%Z →
  let r := run_trials shuffle n hand unknown_deck max_draws initial_deadwood acc g in
  (acc.1 ≤ r.1.1)%Z ∧ (acc.2 ≤ r.1.2)%Z
  ∧ ((r.1.1 - acc.1) + (r.1.2 - acc.2) ≤ Z.of_nat n * initial_deadwood)%Z
  ∧ (r.1.2 = acc.2 → (r.1.1 - acc.1 = Z.of_nat n * initial_deadwood)%Z).
Proof.
  intros Hinit. revert acc g. induction n as [|n IH]; intros acc g; cbn zeta.
  { cbn. lia. }
  cbn [run_trials]. destruct (shuffle unknown_deck g) as [deck_copy g'].
  pose proof (trial_slack hand deck_copy max_draws initial_deadwood acc.2 Hinit) as Ht.
  cbn zeta in Ht. destruct (trial _ _ _ _ _) as [best improvements]. cbn [fst snd] in Ht.
  specialize (IH ((acc.1 + best)%Z, improvements) g'). cbn zeta in IH.
  cbn [fst snd] in IH. destruct IH as (I1 & I2 & I3 & I4).
  destruct Ht as (T1 & T2 & T3 & T4).
  split; [lia|]. split; [lia|]. split; [lia|].
  intros Heq. assert (improvements = acc.2) as Himp by lia.
  specialize (T4 Himp). specialize (I4 ltac:(lia)). lia.
Qed.

(** The totals of a simulation: each counted improvement lowered a trial's
    best deadwood by at least one point, and no improvement means no
    trial ended below the initial deadwood. *)
Lemma simulate_game_totals (hand unknown_deck : list string) (trials max_draws : Z)
    (g : G) :
  unknown_deck ≠ [] → (1 ≤ trials)%Z →
  ∃ total_deadwood improvements g',
    simulate_game shuffle hand unknown_deck trials max_draws g
    = (Ok ((inject_Z total_deadwood / inject_Z trials)%Q,
           (inject_Z improvements / inject_Z trials)%Q), g')
    ∧ (0 ≤ total_deadwood)%Z ∧ (0 ≤ improvements)%Z
    ∧ (total_deadwood + improvements ≤ trials * calculate_deadwood hand)%Z
    ∧ (improvements = 0%Z → total_deadwood = (trials * calculate_deadwood hand)%Z)
    ∧ (improvements ≤ trials * Z.max 0 max_draws)%Z.
Proof.
  intros Hdeck Htrials. unfold simulate_game.
  destruct unknown_deck as [|c deck]; [done|].
  pose proof (run_trials_slack (Z.to_nat trials) hand (c :: deck) max_draws
                (calculate_deadwood hand) (0%Z, 0%Z) g
                (calculate_deadwood_nonneg hand)) as H.
  pose proof (run_trials_bounds shuffle (Z.to_nat trials) hand (c :: deck) max_draws
                (calculate_deadwood hand) (0%Z, 0%Z) g
                (calculate_deadwood_nonneg hand)) as Hb.
  cbn zeta in H, Hb.
  destruct (run_trials _ _ _ _ _ _ _ _) as [[total improvements] g'].
  cbn [fst snd] in H, Hb. rewrite decide_False by lia.
  exists total, improvements, g'. split; [done|].
  destruct H as (H1 & H2 & H3 & H4). split; [lia|]. split; [lia|].
  split; [lia|]. split; [|lia]. intros ->. specialize (H4 eq_refl). lia.
Qed.
End SimulatorSlack.

Lemma Qdiv_eq (a b n : Z) :
  (1 ≤ n)%Z → (inject_Z a / inject_Z n == inject_Z b)%Q ↔ a = (n * b)%Z.
Proof.
  intros Hn.
  assert (¬ (inject_Z n == 0)%Q) as Hne.
  { intros H. change (inject_Z n == inject_Z 0)%Q in H.
    apply (proj1 (inject_Z_injective _ _)) in H. lia. }
  split.
  - intros H. apply inject_Z_injective. rewrite inject_Z_mult, <- H. by field.
  - intros ->. rewrite inject_Z_mult. by field.
Qed.

Section SimulatorExtras.
Context {G : Type} (shuffle : list string → G → list string * G).

(** X12: every counted improvement costs at least one point of deadwood: when
    the loop over the trials ends, [total_deadwood] plus [improvements] is at
    most the number of trials times the deadwood of the hand; both totals
    are non-negative, and a trial counts at most [max_draws] improvements.
    The bound is one of the two totals, which the floats hold exactly, not
    of the two rounded quotients the simulation returns. *)
Theorem run_trials_improvement_cost (trials : nat) (hand unknown_deck : list string)
    (max_draws : Z) (g : G) :
  let totals :=
    (run_trials shuffle trials hand unknown_deck max_draws (calculate_deadwood hand)
                (0%Z, 0%Z) g).1 in
  (0 ≤ totals.1)%Z ∧ (0 ≤ totals.2)%Z
  ∧ (totals.1 + totals.2 ≤ Z.of_nat trials * calculate_deadwood hand)%Z
  ∧ (totals.2 ≤ Z.of_nat trials * Z.max 0 max_draws)%Z
  ∧ (totals.2 = 0%Z → totals.1 = (Z.of_nat trials * calculate_deadwood hand)%Z).
Proof.
  pose proof (run_trials_slack shuffle trials hand unknown_deck max_draws
                (calculate_deadwood hand) (0%Z, 0%Z) g
                (calculate_deadwood_nonneg hand)) as H.
  pose proof (run_trials_bounds shuffle trials hand unknown_deck max_draws
                (calculate_deadwood hand) (0%Z, 0%Z) g
                (calculate_deadwood_nonneg hand)) as Hb.
  cbn zeta in *. cbn [fst snd] in *. lia.
Qed.

(** X13: the improvement rate is 0 exactly when the average deadwood is the
    deadwood of the hand: a simulation that reports no improvement reports
    the hand unchanged, and conversely. *)
Theorem simulate_game_no_improvement (hand unknown_deck : list string)
    (trials max_draws : Z) (g : G) :
  unknown_deck ≠ [] → (1 ≤ trials)%Z →
  ∃ avg_deadwood improvement_prob g',
    simulate_game shuffle hand unknown_deck trials max_draws g
    = (Ok (avg_deadwood, improvement_prob), g')
    ∧ (improvement_prob == 0 ↔ avg_deadwood == inject_Z (calculate_deadwood hand))%Q.
Proof.
  intros Hdeck Htrials.
  destruct (simulate_game_totals shuffle hand unknown_deck trials max_draws g
              Hdeck Htrials)
    as (total & improvements & g' & -> & Ht & Hi & Hsum & Hzero & _).
  eexists _, _, g'. split; [reflexivity|].
  change 0%Q with (inject_Z 0). rewrite !Qdiv_eq by done. lia.
Qed.

(** X14: with no draw allowed, or with a hand that has no deadwood, the
    simulation reports the deadwood of the hand and no improvement. *)
Theorem simulate_game_nothing_to_gain (hand unknown_deck : list string)
    (trials max_draws : Z) (g : G) :
  unknown_deck ≠ [] → (1 ≤ trials)%Z →
  (max_draws ≤ 0)%Z ∨ calculate_deadwood hand = 0%Z →
  ∃ avg_deadwood improvement_prob g',
    simulate_game shuffle hand unknown_deck trials max_draws g
    = (Ok (avg_deadwood, improvement_prob), g')
    ∧ (avg_deadwood == inject_Z (calculate_deadwood hand))%Q
    ∧ (improvement_prob == 0)%Q.
Proof.
  intros Hdeck Htrials Hedge.
  destruct (simulate_game_totals shuffle hand unknown_deck trials max_draws g
              Hdeck Htrials)
    as (total & improvements & g' & -> & Ht & Hi & Hsum & Hzero & Hmax).
  eexists _, _, g'. split; [reflexivity|].
  assert (improvements = 0%Z) as Himp by (destruct Hedge; nia).
  change 0%Q with (inject_Z 0). rewrite !Qdiv_eq by done. split; [auto|lia].
Qed.

End SimulatorExtras.

Lemma simulate_game_no_improvement_witness :
  ["A-hearts"; "2-hearts"] ≠ [] ∧ (1 ≤ 2)%Z ∧
  ∃ avg_deadwood improvement_prob g',
    simulate_game Tape.shuffle ["A-spades"; "2-diamonds"]
                  ["A-hearts"; "2-hearts"] 2 2 [1; 0]
    = (Ok (avg_deadwood, improvement_prob), g')
    ∧ (improvement_prob == 0
       ↔ avg_deadwood == inject_Z (calculate_deadwood ["A-spades"; "2-diamonds"]))%Q.
Proof.
  split; [done|]. split; [lia|].
  apply (simulate_game_no_improvement Tape.shuffle
           ["A-spades"; "2-diamonds"] ["A-hearts"; "2-hearts"] 2 2 [1; 0]);
    [done|lia].
Defined.

Lemma simulate_game_nothing_to_gain_witness :
  ["K-clubs"] ≠ [] ∧ (1 ≤ 3)%Z
  ∧ ((5 ≤ 0)%Z ∨ calculate_deadwood ["A-hearts"; "2-hearts"; "3-hearts"] = 0%Z)
  ∧ ∃ avg_deadwood improvement_prob g',
      simulate_game Tape.shuffle ["A-hearts"; "2-hearts"; "3-hearts"] ["K-clubs"] 3 5 []
      = (Ok (avg_deadwood, improvement_prob), g')
      ∧ (avg_deadwood
         == inject_Z (calculate_deadwood ["A-hearts"; "2-hearts"; "3-hearts"]))%Q
      ∧ (improvement_prob == 0)%Q.
Proof.
  assert ((5 ≤ 0)%Z ∨ calculate_deadwood ["A-hearts"; "2-hearts"; "3-hearts"] = 0%Z)
    as H by (right; vm_compute; reflexivity).
  split; [done|]. split; [lia|]. split; [exact H|].
  apply (simulate_game_nothing_to_gain Tape.shuffle
           ["A-hearts"; "2-hearts"; "3-hearts"] ["K-clubs"] 3 5 []); [done|lia|exact H].
Defined.


(** ** MeldFinder: every meld is a meld *)

Lemma set_pick_is_set (g : Z * list (nat * string)) (p : list (nat * Card)) :
  p ∈ set_pick g → is_set p.*2.
Proof.
  unfold set_pick. case_decide; [|by intros ?%elem_of_nil].
  case_decide; [|by intros ?%elem_of_nil].
  destruct (take_set_cards_spec g.1 g.2 ∅ []) as (taken & -> & _ & Hnd & _ & Hlen & _).
  cbn [app List.length] in *. rewrite length_fmap.
  case_decide as Hthree; [|by intros ?%elem_of_nil].
  intros ->%list_elem_of_singleton. exists g.1, taken.*2. split.
  - by rewrite <- !list_fmap_compose.
  - rewrite length_fmap. split; [|done]. specialize (Hlen ltac:(lia)). lia.
Qed.

Lemma run_pick_is_run (g : string * list (nat * Z)) (p : list (nat * Card)) :
  p ∈ run_pick g → is_run p.*2.
Proof.
  unfold run_pick. case_decide; [by intros ?%elem_of_nil|].
  intros (s & -> & Hs)%list_elem_of_fmap.
  pose proof (find_sequences_blocks (Py.sorted snd Z.ltb g.2)) as Hblocks.
  rewrite Forall_forall in Hblocks.
  destruct (Hblocks s Hs) as (Hlen & r & pre & post & _ & Hrun & _).
  exists g.1, r, (Z.of_nat (List.length s)). split; [lia|].
  unfold run_from. rewrite <- Hrun, <- !list_fmap_compose. done.
Qed.

Lemma find_melds_shape (parsed_hand : list Card) :
  Forall is_set (find_sets parsed_hand).2
  ∧ ∃ runs, (find_melds parsed_hand).2 = (find_sets parsed_hand).2 ++ runs
            ∧ Forall is_run runs.
Proof.
  split.
  - rewrite find_sets_melds. apply Forall_fmap, Forall_forall. intros p Hp.
    unfold set_picks in Hp. apply list_elem_of_bind in Hp as (g & Hp & _).
    by apply (set_pick_is_set g).
  - eexists. split; [apply find_melds_runs|].
    apply Forall_fmap, Forall_forall. intros p Hp.
    unfold run_picks in Hp. apply list_elem_of_bind in Hp as (g & Hp & _).
    by apply (run_pick_is_run g).
Qed.

(** X16: whatever the hand, duplicates included, MeldFinder returns the sets
    of phase 1 followed by the runs of phase 2; every set has three or four
    cards of one rank in distinct suits, every run at least three cards of
    one suit with ranks going up by one, and every card of a meld is a card
    of the hand. *)
Theorem find_melds_valid (parsed_hand : list Card) :
  Forall is_set (find_sets parsed_hand).2
  ∧ (∃ runs, (find_melds parsed_hand).2 = (find_sets parsed_hand).2 ++ runs
             ∧ Forall is_run runs)
  ∧ (∀ m c, m ∈ (find_melds parsed_hand).2 → c ∈ m → c ∈ parsed_hand).
Proof.
  destruct (find_melds_shape parsed_hand) as [Hsets Hruns].
  split; [done|]. split; [done|].
  intros m c. rewrite find_melds_melds.
  intros (p & -> & Hp)%list_elem_of_fmap ([i c'] & -> & Hc)%list_elem_of_fmap.
  destruct (picks_sound parsed_hand) as [Hsound _]. cbn zeta in Hsound.
  eapply list_elem_of_lookup_2, (Hsound i). apply elem_of_concat. eauto.
Qed.

(** ** MeldFinder: how much is matched *)

Lemma find_melds_matched_set (parsed_hand : list Card) :
  (find_melds parsed_hand).1
  = list_to_set (concat (set_picks parsed_hand ++ run_picks parsed_hand)).*1.
Proof. rewrite find_melds_emit. unfold emit. cbn [fst]. set_solver. Qed.

Lemma find_melds_concat (parsed_hand : list Card) :
  concat (find_melds parsed_hand).2
  = (concat (set_picks parsed_hand ++ run_picks parsed_hand)).*2.
Proof. by rewrite find_melds_melds, concat_fmap_fmap. Qed.

Lemma meld_length (parsed_hand : list Card) (m : list Card) :
  m ∈ (find_melds parsed_hand).2 → (3 ≤ List.length m)%nat.
Proof.
  destruct (find_melds_shape parsed_hand) as (Hsets & runs & Hmelds & Hruns).
  rewrite Hmelds, elem_of_app. rewrite Forall_forall in Hsets, Hruns.
  intros [Hm|Hm].
  - destruct (Hsets m Hm) as (rank & suits & -> & Hlen & _). rewrite length_fmap. lia.
  - destruct (Hruns m Hm) as (suit & r & k & Hk & ->). unfold run_from.
    rewrite length_fmap, length_seqZ. lia.
Qed.

(** X17: the matched set holds as many indices as the melds hold cards, all
    of them indices of the hand, and every meld holds at least three cards;
    a hand of fewer than three cards has no meld. *)
Theorem find_melds_matched_count (parsed_hand : list Card) :
  size (find_melds parsed_hand).1 = List.length (concat (find_melds parsed_hand).2)
  ∧ (∀ i, i ∈ (find_melds parsed_hand).1 → i < List.length parsed_hand)
  ∧ (∀ m, m ∈ (find_melds parsed_hand).2 → (3 ≤ List.length m)%nat)
  ∧ (List.length parsed_hand < 3 → find_melds parsed_hand = (∅, [])).
Proof.
  destruct (picks_sound parsed_hand) as [Hsound Hnd]. cbn zeta in Hsound, Hnd.
  assert (size (find_melds parsed_hand).1
          = List.length (concat (find_melds parsed_hand).2)) as Hsize.
  { rewrite find_melds_matched_set, find_melds_concat, size_list_to_set by done.
    by rewrite !length_fmap. }
  assert (∀ i, i ∈ (find_melds parsed_hand).1 → i < List.length parsed_hand) as Hidx.
  { intros i. rewrite find_melds_matched_set, elem_of_list_to_set.
    intros ([i' c] & -> & Hin)%list_elem_of_fmap.
    by eapply lookup_lt_Some, Hsound. }
  split; [done|]. split; [done|]. split; [apply meld_length|].
  intros Hshort.
  assert (size (find_melds parsed_hand).1 ≤ List.length parsed_hand)%nat as Hle.
  { transitivity (size (list_to_set (C := gset nat) (seq 0 (List.length parsed_hand)))).
    - apply subseteq_size. intros i Hi%Hidx. apply elem_of_list_to_set, elem_of_seq. lia.
    - rewrite size_list_to_set by apply NoDup_seq. by rewrite length_seq. }
  destruct (find_melds parsed_hand) as [matched melds] eqn:E. cbn [fst snd] in *.
  destruct melds as [|m melds].
  - f_equal. cbn in Hsize. by apply size_empty_inv, leibniz_equiv in Hsize.
  - assert (3 ≤ List.length m)%nat as Hm.
    { apply (meld_length parsed_hand). rewrite E. left. }
    cbn [concat] in Hsize. rewrite length_app in Hsize. lia.
Qed.

(** ** DeadwoodEvaluator: what the melds save *)

Lemma Zsum_app (l k : list Z) : Zsum (l ++ k) = (Zsum l + Zsum k)%Z.
Proof. induction l as [|x l IH]; cbn; [done|]. fold (Zsum (l ++ k)) (Zsum l). lia. Qed.

Lemma Zsum_Permutation (l k : list Z) : l ≡ₚ k → Zsum l = Zsum k.
Proof.
  induction 1 as [|x l k _ IH|x y l|l k j _ IH1 _ IH2]; cbn; try done.
  - fold (Zsum l) (Zsum k). lia.
  - fold (Zsum l). lia.
  - congruence.
Qed.

(** The value of the parseable cards is the deadwood and the value of the
    cards in the melds. *)
Lemma calculate_deadwood_split (hand : list string) :
  Zsum ((λ c : Card, DeadwoodValue c.1) <$> parseable hand)
  = (calculate_deadwood hand
     + Zsum ((λ c : Card, DeadwoodValue c.1) <$> concat (find_melds (parseable hand)).2))%Z.
Proof.
  set (value := λ c : Card, DeadwoodValue c.1).
  set (h := parseable hand).
  destruct (picks_sound h) as [Hsound Hnd]. cbn zeta in Hsound, Hnd.
  set (picks := concat (set_picks h ++ run_picks h)) in *.
  assert (filter (λ ic : nat * Card, ic.1 ∈ (find_melds h).1) (Py.enumerate h) ≡ₚ picks)
    as Hmatched.
  { apply NoDup_Permutation.
    - apply NoDup_filter. eapply NoDup_fmap_1, NoDup_enumerate_fst.
    - eapply NoDup_fmap_1, Hnd.
    - intros [i c]. rewrite list_elem_of_filter, enumerate_lookup. cbn [fst].
      rewrite find_melds_matched. fold picks. split.
      + intros [([i' c'] & -> & Hin)%list_elem_of_fmap Hc]. cbn [fst] in Hc.
        pose proof (Hsound _ _ Hin). by simplify_eq.
      + intros Hin. split; [|by apply Hsound].
        apply list_elem_of_fmap. by exists (i, c). }
  rewrite calculate_deadwood_sum. unfold unmatched_cards. fold h value.
  rewrite find_melds_concat. fold picks.
  rewrite <- (Zsum_Permutation _ _
    (fmap_Permutation value _ _ (fmap_Permutation snd _ _ Hmatched))).
  rewrite <- Zsum_app, <- fmap_app, <- fmap_app.
  assert (h = (Py.enumerate h).*2) as Hh.
  { unfold Py.enumerate. rewrite fmap_imap. clear.
    induction h as [|c l IH] using rev_ind; [done|].
    rewrite imap_app, <- IH. cbn. done. }
  rewrite Hh at 1. apply Zsum_Permutation, fmap_Permutation, fmap_Permutation.
  rewrite (comm app). symmetry. apply filter_app_complement.
Qed.

(** X18: the deadwood of a hand is the value of all its parseable cards less
    the value of the cards in the melds, for every hand; it is at most the
    value of all the parseable cards, ten points a card at most. *)
Theorem calculate_deadwood_saved (hand : list string) :
  calculate_deadwood hand
  = (Zsum ((λ c : Card, DeadwoodValue c.1) <$> parseable hand)
     - Zsum ((λ c : Card, DeadwoodValue c.1) <$> concat (find_melds (parseable hand)).2))%Z
  ∧ (calculate_deadwood hand
     ≤ Zsum ((λ c : Card, DeadwoodValue c.1) <$> parseable hand))%Z
  ∧ (Zsum ((λ c : Card, DeadwoodValue c.1) <$> parseable hand)
     ≤ 10 * Z.of_nat (List.length (parseable hand)))%Z.
Proof.
  pose proof (calculate_deadwood_split hand) as Hsplit.
  set (value := λ c : Card, DeadwoodValue c.1) in *.
  set (h := parseable hand) in *.
  split; [lia|]. split.
  - assert (0 ≤ Zsum (value <$> concat (find_melds h).2))%Z; [|lia].
    assert (∀ l : list Card, Forall (λ c, 1 ≤ c.1)%Z l → 0 ≤ Zsum (value <$> l))%Z as Hpos.
    { induction 1 as [|c l Hc _ IH]; [done|]. cbn. fold (Zsum (value <$> l)).
      pose proof (DeadwoodValue_pos c.1 Hc). unfold value at 1. lia. }
    destruct (picks_sound h) as [Hsound _]. cbn zeta in Hsound.
    apply Hpos, Forall_forall. intros c Hc. rewrite find_melds_concat in Hc.
    apply list_elem_of_fmap in Hc as ([i c'] & -> & Hin).
    apply Hsound, list_elem_of_lookup_2, parseable_valid in Hin. cbn. lia.
  - clear. induction h as [|c l IH]; [done|]. cbn [fmap list_fmap List.length].
    cbn [Zsum foldr]. fold (Zsum (value <$> l)).
    assert (value c ≤ 10)%Z; [|lia]. unfold value, DeadwoodValue. repeat case_decide; lia.
Qed.

Lemma find_melds_matched_count_witness :
  let hand : list Card := [(13%Z, "Hearts"); (13%Z, "Spades")] in
  List.length hand < 3 ∧ find_melds hand = (∅, []).
Proof.
  cbn zeta.
  assert (List.length [(13%Z, "Hearts"); (13%Z, "Spades")] < 3) as H by (cbn; lia).
  split; [exact H|].
  destruct (find_melds_matched_count [(13%Z, "Hearts"); (13%Z, "Spades")])
    as (_ & _ & _ & Hshort).
  exact (Hshort H).
Defined.

Lemma find_melds_valid_witness :
  let hand : list Card :=
    [(7%Z, "Hearts"); (7%Z, "Spades"); (2%Z, "Clubs"); (7%Z, "Clubs")] in
  let m : list Card := [(7%Z, "Clubs"); (7%Z, "Hearts"); (7%Z, "Spades")] in
  m ∈ (find_melds hand).2 ∧ (7%Z, "Spades") ∈ m ∧ (7%Z, "Spades") ∈ hand.
Proof.
  cbn zeta.
  assert ([(7%Z, "Clubs"); (7%Z, "Hearts"); (7%Z, "Spades")]
          ∈ (find_melds [(7%Z, "Hearts"); (7%Z, "Spades"); (2%Z, "Clubs");
                         (7%Z, "Clubs")]).2) as Hm.
  { apply (bool_decide_unpack _). vm_compute. reflexivity. }
  assert ((7%Z, "Spades") ∈ [(7%Z, "Clubs"); (7%Z, "Hearts"); (7%Z, "Spades")]) as Hc.
  { apply (bool_decide_unpack _). vm_compute. reflexivity. }
  split; [exact Hm|]. split; [exact Hc|].
  destruct (find_melds_valid [(7%Z, "Hearts"); (7%Z, "Spades"); (2%Z, "Clubs");
                              (7%Z, "Clubs")]) as (_ & _ & Hin).
  exact (Hin _ _ Hm Hc).
Defined.

(** ** The sorts are stable *)

Section SortStable.
Context {A K : Type} (key : A → K) (ltb : K → K → bool).
Context (P : A → Prop) `{!∀ x, Decision (P x)}.
Hypothesis P_tied : ∀ x y, P x → P y → ltb (key x) (key y) = false.

Lemma insert_desc_filter (x : A) (l : list A) :
  filter P (Py.insert_desc key ltb x l) = filter P (x :: l).
Proof.
  induction l as [|y l IH]; cbn [Py.insert_desc]; [done|].
  destruct (ltb (key x) (key y)) eqn:E; [|done].
  rewrite filter_cons, IH, !filter_cons.
  destruct (decide (P y)) as [Hy|Hy]; [|done].
  destruct (decide (P x)) as [Hx|Hx]; [|done].
  rewrite (P_tied x y Hx Hy) in E. done.
Qed.

Lemma sorted_reverse_filter (l : list A) :
  filter P (Py.sorted_reverse key ltb l) = filter P l.
Proof.
  induction l as [|x l IH]; [done|]. cbn [Py.sorted_reverse foldr].
  fold (Py.sorted_reverse key ltb l).
  by rewrite insert_desc_filter, !filter_cons, IH.
Qed.
End SortStable.

(** ** DiscardAdvisor: the order of the response *)

Section AdvisorOrder.
Context {G : Type} (shuffle : list string → G → list string * G).

(** X19: the advisory message tells the truth: when a response of the
    endpoint carries it, every suggestion has a win probability below the
    float [0.3]; when it does not, the first suggestion has one of [0.3] at
    least, and no suggestion a higher one. *)
Theorem suggest_discard_message (request : SuggestRequest) (g g' : G)
    (response : SuggestResponse) :
  post_suggest shuffle request g = (Ok response, g') →
  (message response = Some low_probability_message
   ∧ suggestions response ≠ []
   ∧ Forall (λ x, win_probability x < literal (3 # 10))%Q (suggestions response))
  ∨ (message response = None
     ∧ ∀ first, head (suggestions response) = Some first →
         (literal (3 # 10) <= win_probability first)%Q
         ∧ Forall (λ x, win_probability x <= win_probability first)%Q
                  (suggestions response)).
Proof.
  intros [_ (results & _ & _ & Hsorted & Hmsg)%suggest_discard_sorted]%post_suggest_ok.
  pose proof (sorted_reverse_sorted suggestion_key key_ltb key_ltb_asym key_geb_trans
                results) as Hdesc.
  rewrite <- Hsorted in Hdesc. rewrite Hmsg. clear Hmsg Hsorted.
  destruct (suggestions response) as [|first rest]; [by right|].
  apply StronglySorted_inv in Hdesc as [_ Hfirst].
  assert (Forall (λ x, win_probability x <= win_probability first)%Q (first :: rest))
    as Hle.
  { constructor; [lra|]. eapply Forall_impl; [exact Hfirst|]. intros x Hx.
    unfold Py.descending in Hx. by apply key_ltb_false in Hx as [Hx _]. }
  destruct (Qltb (win_probability first) (literal (3 # 10))) eqn:Hlt.
  - apply Qltb_lt in Hlt. left. split; [done|]. split; [done|].
    eapply Forall_impl; [exact Hle|]. intros x Hx. cbn beta in Hx. lra.
  - apply Qltb_ge in Hlt. right. split; [done|]. by intros ? [= <-].
Qed.

(** X20: the sort of the suggestions is stable: in a response of the endpoint
    the suggestions that share a win probability and an expected deadwood
    stand in the order of their cards in the hand. *)
Theorem suggest_discard_ties_in_hand_order (request : SuggestRequest) (g g' : G)
    (response : SuggestResponse) (wp ed : Q) :
  post_suggest shuffle request g = (Ok response, g') →
  card <$> filter (same_key wp ed) (suggestions response)
  `sublist_of` my_hand request.
Proof.
  intros [_ (results & Hcards & _ & -> & _)%suggest_discard_sorted]%post_suggest_ok.
  rewrite sorted_reverse_filter.
  - rewrite <- Hcards. apply fmap_sublist, sublist_filter.
  - intros x y [Hx1 Hx2] [Hy1 Hy2]. apply key_ltb_false.
    unfold suggestion_key. cbn [fst snd]. split; [lra|]. intros _. lra.
Qed.
End AdvisorOrder.

Lemma suggest_discard_message_witness :
  ∃ response g',
    post_suggest Tape.shuffle
      {| my_hand := ["A-spades"]; visible := []; trials := 50; max_draws := 1 |} []
    = (Ok response, g')
    ∧ ((message response = Some low_probability_message
        ∧ suggestions response ≠ []
        ∧ Forall (λ x, win_probability x < literal (3 # 10))%Q (suggestions response))
       ∨ (message response = None
          ∧ ∀ first, head (suggestions response) = Some first →
              (literal (3 # 10) <= win_probability first)%Q
              ∧ Forall (λ x, win_probability x <= win_probability first)%Q
                       (suggestions response))).
Proof.
  destruct (post_suggest Tape.shuffle
      {| my_hand := ["A-spades"]; visible := []; trials := 50; max_draws := 1 |} [])
    as [[response|e] g'] eqn:E.
  - exists response, g'. split; [reflexivity|].
    exact (suggest_discard_message Tape.shuffle _ _ _ _ E).
  - vm_compute in E. discriminate E.
Defined.

Lemma suggest_discard_ties_in_hand_order_witness :
  ∃ response g',
    post_suggest Tape.shuffle
      {| my_hand := ["K-spades"; "K-hearts"; "2-clubs"]; visible := []; trials := 50;
         max_draws := 1 |} []
    = (Ok response, g')
    ∧ card <$> filter (same_key (fmul 1 (fsub 1 (fdiv 4 23))) 4) (suggestions response)
      `sublist_of` ["K-spades"; "K-hearts"; "2-clubs"].
Proof.
  destruct (post_suggest Tape.shuffle
      {| my_hand := ["K-spades"; "K-hearts"; "2-clubs"]; visible := []; trials := 50;
         max_draws := 1 |} []) as [[response|e] g'] eqn:E.
  - exists response, g'. split; [reflexivity|].
    exact (suggest_discard_ties_in_hand_order Tape.shuffle _ _ _ _
             (fmul 1 (fsub 1 (fdiv 4 23))) 4 E).
  - vm_compute in E. discriminate E.
Defined.

(** * The card recogniser *)

(** ** The order of the corners *)

Lemma arg_first_least (v pre : list Z) (best_i : nat) (best : Z) :
  pre !! best_i = Some best →
  Forall (λ x, best ≤ x)%Z pre →
  ∃ m, (pre ++ v) !! CardCV.arg_first Z.ltb v (List.length pre) best_i best = Some m
       ∧ Forall (λ x, m ≤ x)%Z (pre ++ v).
Proof.
  revert pre best_i best. induction v as [|x v IH]; intros pre best_i best Hbest Hpre.
  { cbn. exists best. rewrite app_nil_r. done. }
  cbn [CardCV.arg_first].
  replace (S (List.length pre)) with (List.length (pre ++ [x]))
    by (rewrite length_app; cbn; lia).
  rewrite (assoc_L app pre [x] v : pre ++ x :: v = (pre ++ [x]) ++ v).
  destruct (Z.ltb_spec x best) as [Hlt|Hge]; apply IH.
  - rewrite lookup_app_r by lia. by rewrite Nat.sub_diag.
  - apply Forall_app. split; [|by constructor].
    eapply Forall_impl; [exact Hpre|]. cbn. lia.
  - by apply lookup_app_l_Some.
  - apply Forall_app. split; [done|]. by constructor.
Qed.

Lemma arg_first_greatest (v pre : list Z) (best_i : nat) (best : Z) :
  pre !! best_i = Some best →
  Forall (λ x, x ≤ best)%Z pre →
  ∃ m, (pre ++ v) !! CardCV.arg_first Z.gtb v (List.length pre) best_i best = Some m
       ∧ Forall (λ x, x ≤ m)%Z (pre ++ v).
Proof.
  revert pre best_i best. induction v as [|x v IH]; intros pre best_i best Hbest Hpre.
  { cbn. exists best. rewrite app_nil_r. done. }
  cbn [CardCV.arg_first].
  replace (S (List.length pre)) with (List.length (pre ++ [x]))
    by (rewrite length_app; cbn; lia).
  rewrite (assoc_L app pre [x] v : pre ++ x :: v = (pre ++ [x]) ++ v).
  destruct (Z.gtb_spec x best) as [Hlt|Hge]; apply IH.
  - rewrite lookup_app_r by lia. by rewrite Nat.sub_diag.
  - apply Forall_app. split; [|by constructor].
    eapply Forall_impl; [exact Hpre|]. cbn. lia.
  - by apply lookup_app_l_Some.
  - apply Forall_app. split; [done|]. by constructor.
Qed.

Lemma argmin_least (v : list Z) :
  v ≠ [] → ∃ m, v !! CardCV.argmin v = Some m ∧ Forall (λ x, m ≤ x)%Z v.
Proof.
  destruct v as [|x v]; [done|]. intros _.
  apply (arg_first_least v [x] 0 x); [done|]. by constructor.
Qed.

Lemma argmax_greatest (v : list Z) :
  v ≠ [] → ∃ m, v !! CardCV.argmax v = Some m ∧ Forall (λ x, x ≤ m)%Z v.
Proof.
  destruct v as [|x v]; [done|]. intros _.
  apply (arg_first_greatest v [x] 0 x); [done|]. by constructor.
Qed.

(** The point that is strictly least under [f] is the one at [argmin]. *)
Lemma pick_least (f : CardCV.Point → Z) (pts : list CardCV.Point) (p : CardCV.Point) :
  p ∈ pts → (∀ q, q ∈ pts → q ≠ p → (f p < f q)%Z) →
  pts !!! CardCV.argmin (f <$> pts) = p.
Proof.
  intros Hp Hleast.
  destruct (argmin_least (f <$> pts)) as (m & Hm & Hall).
  { destruct pts; [|done]. by apply elem_of_nil in Hp. }
  rewrite list_lookup_fmap in Hm.
  destruct (pts !! CardCV.argmin (f <$> pts)) as [q|] eqn:Hq; [|done].
  injection Hm as <-. rewrite (list_lookup_total_correct _ _ _ Hq).
  destruct (decide (q = p)) as [->|Hne]; [done|].
  pose proof (Hleast q (list_elem_of_lookup_2 _ _ _ Hq) Hne).
  rewrite Forall_fmap, Forall_forall in Hall. specialize (Hall p Hp). cbn in Hall. lia.
Qed.

Lemma pick_greatest (f : CardCV.Point → Z) (pts : list CardCV.Point) (p : CardCV.Point) :
  p ∈ pts → (∀ q, q ∈ pts → q ≠ p → (f q < f p)%Z) →
  pts !!! CardCV.argmax (f <$> pts) = p.
Proof.
  intros Hp Hleast.
  destruct (argmax_greatest (f <$> pts)) as (m & Hm & Hall).
  { destruct pts; [|done]. by apply elem_of_nil in Hp. }
  rewrite list_lookup_fmap in Hm.
  destruct (pts !! CardCV.argmax (f <$> pts)) as [q|] eqn:Hq; [|done].
  injection Hm as <-. rewrite (list_lookup_total_correct _ _ _ Hq).
  destruct (decide (q = p)) as [->|Hne]; [done|].
  pose proof (Hleast q (list_elem_of_lookup_2 _ _ _ Hq) Hne).
  rewrite Forall_fmap, Forall_forall in Hall. specialize (Hall p Hp). cbn in Hall. lia.
Qed.

Lemma int32_small (z : Z) : (- 2 ^ 31 ≤ z < 2 ^ 31)%Z → CardCV.int32 z = z.
Proof. intros H. unfold CardCV.int32. rewrite Z.mod_small; lia. Qed.

Lemma rect_of_rectangle (pts : list CardCV.Point) (x0 x1 y0 y1 : Z) :
  pts ≡ₚ [(x0, y0); (x1, y0); (x1, y1); (x0, y1)] →
  (0 ≤ x0 < x1)%Z → (x1 < 2 ^ 24)%Z → (0 ≤ y0 < y1)%Z → (y1 < 2 ^ 24)%Z →
  CardCV.rect_of pts = [(x0, y0); (x1, y0); (x1, y1); (x0, y1)].
Proof.
  intros Hperm Hx Hx1 Hy Hy1. unfold CardCV.rect_of. cbn [fmap list_fmap].
  assert (∀ q, q ∈ pts ↔ q = (x0, y0) ∨ q = (x1, y0) ∨ q = (x1, y1) ∨ q = (x0, y1))
    as Hin.
  { intros q. rewrite Hperm, !elem_of_cons, elem_of_nil. tauto. }
  assert (∀ q : CardCV.Point, q ∈ pts → CardCV.int32 (q.2 - q.1) = (q.2 - q.1)%Z)
    as Hdiff.
  { intros q Hq. apply int32_small.
    apply Hin in Hq as [-> | [-> | [-> | ->]]]; cbn [fst snd]; lia. }
  assert ((λ p : CardCV.Point, CardCV.int32 (p.2 - p.1)) <$> pts
          = (λ p : CardCV.Point, (p.2 - p.1)%Z) <$> pts) as ->.
  { apply list_eq. intros i. rewrite !list_lookup_fmap.
    destruct (pts !! i) as [q|] eqn:Hq; [|done]. cbn. f_equal.
    apply Hdiff. by eapply list_elem_of_lookup_2. }
  f_equal; [|f_equal; [|f_equal; [|f_equal]]].
  - apply (pick_least (λ p : CardCV.Point, (p.1 + p.2)%Z)); [apply Hin; tauto|].
    intros q [-> | [-> | [-> | ->]]]%Hin Hne; cbn [fst snd]; try done; lia.
  - apply (pick_least (λ p : CardCV.Point, (p.2 - p.1)%Z)); [apply Hin; tauto|].
    intros q [-> | [-> | [-> | ->]]]%Hin Hne; cbn [fst snd]; try done; lia.
  - apply (pick_greatest (λ p : CardCV.Point, (p.1 + p.2)%Z)); [apply Hin; tauto|].
    intros q [-> | [-> | [-> | ->]]]%Hin Hne; cbn [fst snd]; try done; lia.
  - apply (pick_greatest (λ p : CardCV.Point, (p.2 - p.1)%Z)); [apply Hin; tauto|].
    intros q [-> | [-> | [-> | ->]]]%Hin Hne; cbn [fst snd]; try done; lia.
Qed.

Section WarpCard.
Context {Image Matrix : Type} (CARD_WIDTH CARD_HEIGHT : Z).
Context (getPerspectiveTransform : list CardCV.Point → list CardCV.Point
                                   → CardCV.outcome Matrix).
Context (warpPerspective : Image → Matrix → Z * Z → CardCV.outcome Image).

(** X21: a contour that holds the four corners of an upright rectangle, in any
    order, is warped as the contour that lists them top-left, top-right,
    bottom-right, bottom-left: that is the order in which the corners are
    matched with the corners of the normalised card. A contour of another
    length than four is not warped. *)
Theorem warp_card_rectangle (img : Image) (contour : list CardCV.Point)
    (x0 x1 y0 y1 : Z) :
  contour ≡ₚ [(x0, y0); (x1, y0); (x1, y1); (x0, y1)] →
  (0 ≤ x0 < x1)%Z → (x1 < 2 ^ 24)%Z → (0 ≤ y0 < y1)%Z → (y1 < 2 ^ 24)%Z →
  CardCV.rect_of contour = [(x0, y0); (x1, y0); (x1, y1); (x0, y1)]
  ∧ CardCV.warp_card CARD_WIDTH CARD_HEIGHT getPerspectiveTransform warpPerspective
      img contour
    = CardCV.warp_card CARD_WIDTH CARD_HEIGHT getPerspectiveTransform warpPerspective
        img [(x0, y0); (x1, y0); (x1, y1); (x0, y1)].
Proof.
  intros Hperm Hx Hx1 Hy Hy1.
  pose proof (rect_of_rectangle contour x0 x1 y0 y1 Hperm Hx Hx1 Hy Hy1) as Hrect.
  split; [done|]. unfold CardCV.warp_card.
  rewrite (Permutation_length Hperm). cbn [List.length].
  rewrite Hrect.
  by rewrite (rect_of_rectangle _ x0 x1 y0 y1 (reflexivity _) Hx Hx1 Hy Hy1).
Qed.
End WarpCard.

(** ** The best template *)

Section MatcherLemmas.
Context {Image : Type}.
Context (size : Image → Z) (shape : Image → Z * Z).
Context (threshold : Image → CardCV.outcome Image).
Context (resize : Image → Q → CardCV.outcome Image).
Context (matchTemplate : Image → Image → CardCV.outcome Q).

Lemma match_one_best (roi_thresh : Image) (name : string) (template : option Image)
    (best : string * Q) :
  let after := CardCV.match_one size shape resize matchTemplate roi_thresh name template
                 best in
  after.1 = best
  ∨ (after.1.1 = name ∧ is_Some template ∧ (best.2 < after.1.2)%Q ∧ after.2 = true).
Proof.
  cbn zeta. unfold CardCV.match_one.
  destruct template as [template|]; [|by left].
  case_decide; [by left|].
  destruct (shape roi_thresh) as [r_h r_w].
  assert (∀ scaled_template,
    let after :=
      (let '(t_h, t_w) := shape scaled_template in
       if decide (t_h > r_h ∨ t_w > r_w)%Z then (best, true)
       else
         match matchTemplate roi_thresh scaled_template with
         | CardCV.Returns max_val =>
             if Qltb best.2 max_val then ((name, max_val), true) else (best, true)
         | CardCV.CvError => (best, true)
         | CardCV.OtherException => (best, false)
         end) in
    after.1 = best
    ∨ (after.1.1 = name ∧ is_Some (Some template) ∧ (best.2 < after.1.2)%Q
       ∧ after.2 = true)) as Hfit.
  { intros scaled_template. cbn zeta. destruct (shape scaled_template) as [t_h t_w].
    case_decide; [by left|].
    destruct (matchTemplate roi_thresh scaled_template) as [max_val| |]; [|by left..].
    destruct (Qltb best.2 max_val) eqn:Hlt; [|by left].
    apply Qltb_lt in Hlt. right. cbn [fst snd]. by eauto. }
  pose proof (Hfit template) as Hsame. cbn zeta in Hsame.
  destruct (shape template) as [t_h t_w].
  case_decide; [|exact Hsame].
  case_decide; [by left|].
  destruct (Qltb _ (1 # 2)); [by left|].
  destruct (resize template _) as [scaled_template| |]; [apply Hfit|by left..].
Qed.

Lemma match_loop_best (roi_thresh : Image) (templates : list (string * option Image))
    (best : string * Q) :
  let found := CardCV.match_loop size shape resize matchTemplate roi_thresh templates
                 best in
  found = best
  ∨ ((∃ template, (found.1, Some template) ∈ templates) ∧ (best.2 < found.2)%Q).
Proof.
  cbn zeta. revert best.
  induction templates as [|[name template] rest IH]; intros best; [by left|].
  cbn [CardCV.match_loop].
  pose proof (match_one_best roi_thresh name template best) as Hone. cbn zeta in Hone.
  destruct (CardCV.match_one _ _ _ _ _ _ _ _) as [best' goes_on]. cbn [fst snd] in Hone.
  assert (best' = best ∨ ((∃ t, (best'.1, Some t) ∈ (name, template) :: rest)
                          ∧ (best.2 < best'.2)%Q)) as Hbest'.
  { destruct Hone as [?|(<- & [t ->] & ? & _)]; [by left|right].
    split; [|done]. exists t. left. }
  destruct goes_on; [|done].
  destruct (IH best') as [->|[[t Hin] Hlt]]; [done|right].
  split; [exists t; by right|].
  destruct Hbest' as [->|[_ ?]]; [done|lra].
Qed.

(** What the matcher found: nothing, or a template above the threshold. *)
Lemma match_template_best (roi : option Image)
    (templates : list (string * option Image)) (min_score : Q) :
  let found := CardCV.match_template size shape threshold resize matchTemplate roi
                 templates min_score in
  found = ("Unknown", min_score)
  ∨ ((∃ template, (found.1, Some template) ∈ templates) ∧ (min_score < found.2)%Q).
Proof.
  cbn zeta. unfold CardCV.match_template.
  destruct templates as [|t templates]; [by left|].
  destruct roi as [roi|]; [|by left].
  case_decide; [by left|].
  destruct (threshold roi) as [roi_thresh| |]; [|by left..].
  destruct (shape roi_thresh) as [r_h r_w] eqn:Hshape.
  case_decide; [by left|].
  apply (match_loop_best roi_thresh (t :: templates) ("Unknown", min_score)).
Qed.

(** X22: the matcher answers with [Unknown] and the threshold it was given,
    or with the name of one of the templates and a score above that
    threshold: never with a score below it, whatever the calls into the
    vision library do. *)
Theorem match_template_above_threshold (roi : option Image)
    (templates : list (string * option Image)) (min_score : Q) :
  let found := CardCV.match_template size shape threshold resize matchTemplate roi
                 templates min_score in
  found = ("Unknown", min_score)
  ∨ ((∃ template, (found.1, Some template) ∈ templates) ∧ (min_score < found.2)%Q).
Proof.
  cbn zeta. unfold CardCV.match_template.
  destruct templates as [|t templates]; [by left|].
  destruct roi as [roi|]; [|by left].
  case_decide; [by left|].
  destruct (threshold roi) as [roi_thresh| |]; [|by left..].
  destruct (shape roi_thresh) as [r_h r_w] eqn:Hshape.
  case_decide; [by left|].
  apply (match_loop_best roi_thresh (t :: templates) ("Unknown", min_score)).
Qed.

End MatcherLemmas.

Lemma warp_card_rectangle_witness :
  let contour : list CardCV.Point := [(50, 10); (10, 10); (10, 70); (50, 70)]%Z in
  let corners : list CardCV.Point := [(10, 10); (50, 10); (50, 70); (10, 70)]%Z in
  let getPerspectiveTransform (rect dst : list CardCV.Point) :=
    CardCV.Returns (rect, dst) in
  let warpPerspective (img : unit) (M : list CardCV.Point * list CardCV.Point)
      (dsize : Z * Z) := CardCV.Returns img in
  contour ≡ₚ corners
  ∧ CardCV.rect_of contour = corners
  ∧ CardCV.warp_card 200 300 getPerspectiveTransform warpPerspective () contour
    = CardCV.warp_card 200 300 getPerspectiveTransform warpPerspective () corners.
Proof.
  cbn zeta.
  assert ([(50, 10); (10, 10); (10, 70); (50, 70)]%Z
          ≡ₚ@{CardCV.Point} [(10, 10); (50, 10); (50, 70); (10, 70)]%Z) as Hperm.
  { etrans; [apply Permutation_swap|]. do 2 apply Permutation_skip.
    apply Permutation_swap. }
  split; [exact Hperm|].
  apply (warp_card_rectangle 200 300
           (λ rect dst : list CardCV.Point, CardCV.Returns (rect, dst))
           (λ (img : unit) (M : list CardCV.Point * list CardCV.Point) (dsize : Z * Z),
              CardCV.Returns img)
           () _ 10 50 10 70 Hperm); lia.
Defined.

(** ** MeldFinder: the order of the hand *)

Lemma relabel_fmap (l l' : list nat) :
  NoDup l → List.length l = List.length l' → relabel l l' <$> l = l'.
Proof.
  revert l'. induction l as [|i l IH]; intros [|i' l'] Hnd Hlen; try done.
  apply NoDup_cons in Hnd as [Hi Hnd]. cbn [fmap list_fmap relabel].
  rewrite decide_True by done. f_equal.
  transitivity (relabel l l' <$> l); [|apply IH; [done|cbn in Hlen; lia]].
  apply list_fmap_ext. intros k x Hx. cbn [relabel].
  rewrite decide_False; [done|]. intros ->. apply Hi. by eapply list_elem_of_lookup_2.
Qed.

Lemma NoDup_fmap_inj {A B} (f : A → B) (l : list A) (x y : A) :
  NoDup (f <$> l) → x ∈ l → y ∈ l → f x = f y → x = y.
Proof.
  induction l as [|a l IH]; [by intros _ ?%elem_of_nil|].
  rewrite fmap_cons, NoDup_cons, !elem_of_cons. intros [Ha Hnd] [->|Hx] [->|Hy] Heq.
  - done.
  - destruct Ha. rewrite Heq. by apply list_elem_of_fmap_2.
  - destruct Ha. rewrite <- Heq. by apply list_elem_of_fmap_2.
  - by apply IH.
Qed.

Lemma retag_eq {A} (ρ : nat → nat) (l l' : list (nat * A)) :
  l'.*1 = ρ <$> l.*1 → l'.*2 = l.*2 → l' = retag ρ <$> l.
Proof.
  revert l'. induction l as [|[i a] l IH]; intros [|[i' a'] l']; try done.
  cbn. intros [= -> H1] [= -> H2]. unfold retag at 1. cbn. f_equal. by apply IH.
Qed.

Lemma filter_fmap {A B} (f : A → B) (P : B → Prop) `{!∀ x, Decision (P x)}
    (l : list A) :
  filter P (f <$> l) = f <$> filter (λ x, P (f x)) l.
Proof.
  induction l as [|x l IH]; [done|]. rewrite fmap_cons, !filter_cons, IH.
  by destruct (decide (P (f x))).
Qed.

Section Retag.
Context (ρ : nat → nat).

Lemma group_append_fmap {K V W} `{EqDecision K} (f : V → W) (k : K) (v : V)
    (G : list (K * list V)) :
  group_append k (f v) ((λ g : K * list V, (g.1, f <$> g.2)) <$> G)
  = (λ g : K * list V, (g.1, f <$> g.2)) <$> group_append k v G.
Proof.
  induction G as [|[k' vs] G IH]; [done|]. cbn.
  case_decide; cbn; [by rewrite fmap_app|by rewrite IH].
Qed.

Lemma groups_of_fmap {K V W} `{EqDecision K} (f : V → W) (l : list (K * V)) :
  groups_of ((λ kv : K * V, (kv.1, f kv.2)) <$> l)
  = (λ g : K * list V, (g.1, f <$> g.2)) <$> groups_of l.
Proof.
  induction l as [|kv l IH] using rev_ind; [done|].
  rewrite fmap_app. cbn [fmap list_fmap].
  rewrite !groups_of_snoc, IH. cbn [fst snd].
  apply group_append_fmap.
Qed.

Lemma take_set_cards_retag (rank : Z) (cards : list (nat * string))
    (used_suits : gset string) (set_cards : list (nat * Card)) :
  take_set_cards rank (retag ρ <$> cards) used_suits (retag ρ <$> set_cards)
  = retag ρ <$> take_set_cards rank cards used_suits set_cards.
Proof.
  revert used_suits set_cards.
  induction cards as [|[idx suit] cards IH]; intros used_suits set_cards; [done|].
  cbn [fmap list_fmap take_set_cards retag fst snd].
  case_decide; [apply IH|].
  assert (retag ρ <$> set_cards ++ [(idx, (rank, suit))]
          = (retag ρ <$> set_cards) ++ [(ρ idx, (rank, suit))]) as <-
    by by rewrite fmap_app.
  rewrite length_fmap. case_decide; [done|]. apply IH.
Qed.

Lemma set_pick_retag (rank : Z) (cards : list (nat * string)) :
  set_pick (rank, retag ρ <$> cards)
  = (λ p : list (nat * Card), retag ρ <$> p) <$> set_pick (rank, cards).
Proof.
  unfold set_pick. cbn [fst snd]. rewrite length_fmap.
  assert ((retag ρ <$> cards).*2 = cards.*2) as ->.
  { rewrite <- list_fmap_compose. by apply list_fmap_ext. }
  case_decide; [|done]. case_decide; [|done].
  rewrite (take_set_cards_retag rank cards ∅ []), length_fmap.
  by case_decide.
Qed.

Lemma insert_asc_fmap {A K} (key : A → K) (ltb : K → K → bool) (f : A → A)
    (x : A) (l : list A) :
  (∀ x, key (f x) = key x) →
  Py.insert_asc key ltb (f x) (f <$> l) = f <$> Py.insert_asc key ltb x l.
Proof.
  intros Hkey. induction l as [|y l IH]; [done|]. cbn. rewrite !Hkey.
  destruct (ltb (key y) (key x)); cbn; [by rewrite IH|done].
Qed.

Lemma sorted_fmap {A K} (key : A → K) (ltb : K → K → bool) (f : A → A) (l : list A) :
  (∀ x, key (f x) = key x) →
  Py.sorted key ltb (f <$> l) = f <$> Py.sorted key ltb l.
Proof.
  intros Hkey. induction l as [|x l IH]; [done|]. cbn [fmap list_fmap Py.sorted foldr].
  fold (Py.sorted key ltb (f <$> l)) (Py.sorted key ltb l).
  by rewrite IH, insert_asc_fmap.
Qed.

Lemma scan_sequences_retag (cards : list (nat * Z)) (prev : Z)
    (current_seq : list (nat * Z)) (sequences : list (list (nat * Z))) :
  scan_sequences (retag ρ <$> cards) prev (retag ρ <$> current_seq)
    ((λ s : list (nat * Z), retag ρ <$> s) <$> sequences)
  = (λ s : list (nat * Z), retag ρ <$> s) <$> scan_sequences cards prev current_seq sequences.
Proof.
  revert prev current_seq sequences.
  induction cards as [|c cards IH]; intros prev current_seq sequences;
    cbn [fmap list_fmap scan_sequences retag snd]; rewrite ?length_fmap.
  { case_decide; [|done]. by rewrite fmap_app. }
  case_decide.
  - rewrite <- IH. by rewrite fmap_app.
  - rewrite <- IH. case_decide; [|done]. by rewrite fmap_app.
Qed.

Lemma find_sequences_retag (cards : list (nat * Z)) :
  find_sequences (retag ρ <$> cards)
  = (λ s : list (nat * Z), retag ρ <$> s) <$> find_sequences cards.
Proof.
  destruct cards as [|c0 cards]; [done|]. cbn [fmap list_fmap find_sequences retag snd].
  apply (scan_sequences_retag cards c0.2 [c0] []).
Qed.

Lemma run_pick_retag (suit : string) (cards : list (nat * Z)) :
  run_pick (suit, retag ρ <$> cards)
  = (λ p : list (nat * Card), retag ρ <$> p) <$> run_pick (suit, cards).
Proof.
  unfold run_pick. cbn [fst snd]. rewrite length_fmap. case_decide; [done|].
  rewrite (sorted_fmap snd Z.ltb (retag ρ)) by done.
  rewrite find_sequences_retag, <- !list_fmap_compose.
  apply list_fmap_ext. intros _ seq _. cbn. rewrite <- !list_fmap_compose.
  by apply list_fmap_ext.
Qed.

Lemma bind_retag {K V} (pick : K * list (nat * V) → list (list (nat * Card)))
    (G : list (K * list (nat * V))) :
  (∀ k vs, pick (k, retag ρ <$> vs)
           = (λ p : list (nat * Card), retag ρ <$> p) <$> pick (k, vs)) →
  ((λ g : K * list (nat * V), (g.1, retag ρ <$> g.2)) <$> G) ≫= pick
  = (λ p : list (nat * Card), retag ρ <$> p) <$> (G ≫= pick).
Proof.
  intros Hpick. induction G as [|[k vs] G IH]; [done|].
  cbn [fmap list_fmap mbind list_bind fst snd] in *.
  by rewrite fmap_app, Hpick, IH.
Qed.

Lemma set_picks_retag (parsed_hand parsed_hand' : list Card) :
  sorted_hand parsed_hand' = retag ρ <$> sorted_hand parsed_hand →
  set_picks parsed_hand'
  = (λ p : list (nat * Card), retag ρ <$> p) <$> set_picks parsed_hand.
Proof.
  intros Hsorted. unfold set_picks. rewrite !rank_groups_eq, Hsorted.
  rewrite <- list_fmap_compose.
  rewrite (list_fmap_ext (by_rank ∘ retag ρ)
             ((λ kv : Z * (nat * string), (kv.1, retag ρ kv.2)) ∘ by_rank)
             _ (λ _ _ _, eq_refl)).
  rewrite list_fmap_compose, groups_of_fmap.
  apply bind_retag, set_pick_retag.
Qed.

Lemma run_picks_retag (parsed_hand parsed_hand' : list Card) :
  sorted_hand parsed_hand' = retag ρ <$> sorted_hand parsed_hand →
  NoDup (ρ <$> (sorted_hand parsed_hand).*1) →
  run_picks parsed_hand'
  = (λ p : list (nat * Card), retag ρ <$> p) <$> run_picks parsed_hand.
Proof.
  intros Hsorted Hinj. unfold run_picks. rewrite !suit_groups_eq, Hsorted.
  rewrite filter_fmap.
  rewrite (filter_ext_in
             (λ ic : nat * Card, (retag ρ ic).1 ∉ (find_sets parsed_hand').1)
             (λ ic : nat * Card, ic.1 ∉ (find_sets parsed_hand).1)).
  - rewrite <- list_fmap_compose.
    rewrite (list_fmap_ext (by_suit ∘ retag ρ)
               ((λ kv : string * (nat * Z), (kv.1, retag ρ kv.2)) ∘ by_suit)
               _ (λ _ _ _, eq_refl)).
    rewrite list_fmap_compose, groups_of_fmap.
    apply bind_retag, run_pick_retag.
  - intros [i c] Hic. cbn [retag fst].
    rewrite !find_sets_emit, (set_picks_retag _ _ Hsorted). unfold emit. cbn [fst].
    rewrite !elem_of_union, !elem_of_list_to_set, concat_fmap_fmap.
    rewrite <- list_fmap_compose.
    assert (∀ j, j ∈ (concat (set_picks parsed_hand)).*1 → j ∈ (sorted_hand parsed_hand).*1)
      as Hsub.
    { intros j Hj. eapply elem_of_submseteq; [exact Hj|].
      apply fmap_submseteq, set_picks_submseteq. }
    assert (i ∈ (sorted_hand parsed_hand).*1) as Hi
      by (apply list_elem_of_fmap; by exists (i, c)).
    split; intros Hno [Hin|Hin]; try set_solver; apply Hno; left.
    + apply list_elem_of_fmap. apply list_elem_of_fmap in Hin as ([j c'] & -> & Hin).
      exists (j, c'). done.
    + apply list_elem_of_fmap in Hin as ([j c'] & Hj & Hin). cbn in Hj.
      assert (j ∈ (concat (set_picks parsed_hand)).*1) as Hjin
        by (apply list_elem_of_fmap; by exists (j, c')).
      assert (i = j) as -> by (eapply NoDup_fmap_inj; eauto).
      done.
Qed.
End Retag.

(** The cards of the sorted hand are those of the hand in the order of the
    sort key, whatever the order of the hand. *)
Lemma sorted_hand_cards (parsed_hand parsed_hand' : list Card) :
  parsed_hand ≡ₚ parsed_hand' →
  (sorted_hand parsed_hand).*2 = (sorted_hand parsed_hand').*2.
Proof.
  intros Hperm.
  assert (∀ h, (sorted_hand h).*2 ≡ₚ h) as Hcards.
  { intros h. rewrite sorted_hand_perm. unfold Py.enumerate. rewrite fmap_imap.
    clear. induction h as [|c l IH] using rev_ind; [done|].
    rewrite imap_app. cbn. by rewrite IH. }
  assert (∀ h, StronglySorted (λ c1 c2 : Card, card_ltb c2 c1 = false) (sorted_hand h).*2)
    as Hsorted.
  { intros h. pose proof (sorted_hand_sorted h) as Hs.
    induction Hs as [|x l _ IH Hx]; cbn; constructor; [done|].
    apply Forall_fmap. eapply Forall_impl; [exact Hx|]. done. }
  eapply StronglySorted_unique_strong; [|apply Hsorted..|by rewrite !Hcards].
  intros [r1 s1] [r2 s2] _ _ H1%card_ltb_false H2%card_ltb_false. cbn [fst snd] in *.
  destruct H1 as [H1 H1'], H2 as [H2 H2'].
  assert (r1 = r2) as -> by lia. f_equal. by apply string_ltb_total; auto.
Qed.

(** The sorted hands of two orders of one hand differ by a renaming of the
    indices. *)
Lemma sorted_hand_retag (parsed_hand parsed_hand' : list Card) :
  parsed_hand ≡ₚ parsed_hand' →
  ∃ ρ, sorted_hand parsed_hand' = retag ρ <$> sorted_hand parsed_hand
       ∧ NoDup (ρ <$> (sorted_hand parsed_hand).*1).
Proof.
  intros Hperm.
  set (ρ := relabel (sorted_hand parsed_hand).*1 (sorted_hand parsed_hand').*1).
  assert (ρ <$> (sorted_hand parsed_hand).*1 = (sorted_hand parsed_hand').*1) as Hρ.
  { apply relabel_fmap; [apply sorted_hand_NoDup|].
    rewrite !length_fmap, (Permutation_length (sorted_hand_perm parsed_hand)),
      (Permutation_length (sorted_hand_perm parsed_hand')).
    unfold Py.enumerate. rewrite !length_imap. by apply Permutation_length. }
  exists ρ. split.
  - apply retag_eq; [done|]. symmetry. by apply sorted_hand_cards.
  - rewrite Hρ. apply sorted_hand_NoDup.
Qed.

(** The cards of the picks are the same for every order of the hand. *)
Lemma picks_order_independent (parsed_hand parsed_hand' : list Card) :
  parsed_hand ≡ₚ parsed_hand' →
  (λ p : list (nat * Card), p.*2) <$> (set_picks parsed_hand ++ run_picks parsed_hand)
  = (λ p : list (nat * Card), p.*2) <$> (set_picks parsed_hand' ++ run_picks parsed_hand').
Proof.
  intros (ρ & Hsorted & Hinj)%sorted_hand_retag.
  rewrite (set_picks_retag ρ _ _ Hsorted), (run_picks_retag ρ _ _ Hsorted) by done.
  rewrite <- fmap_app, <- list_fmap_compose.
  apply list_fmap_ext. intros _ p _. cbn. rewrite <- list_fmap_compose.
  by apply list_fmap_ext.
Qed.

(** X24: the melds do not depend on the order of the hand: two hands that
    hold the same cards, duplicates included, in different orders give the
    same list of melds. *)
Theorem find_melds_order_independent (parsed_hand parsed_hand' : list Card) :
  parsed_hand ≡ₚ parsed_hand' →
  (find_melds parsed_hand).2 = (find_melds parsed_hand').2.
Proof.
  intros Hperm. rewrite !find_melds_melds. by apply picks_order_independent.
Qed.

(** X25: the deadwood of a hand does not depend on the order of its tokens. *)
Theorem calculate_deadwood_order_independent (hand hand' : list string) :
  hand ≡ₚ hand' → calculate_deadwood hand = calculate_deadwood hand'.
Proof.
  intros Hperm.
  assert (parseable hand ≡ₚ parseable hand') as Hparsed
    by (unfold parseable; by rewrite Hperm).
  pose proof (calculate_deadwood_split hand) as H1.
  pose proof (calculate_deadwood_split hand') as H2.
  rewrite find_melds_melds, (picks_order_independent _ _ Hparsed),
    <- find_melds_melds in H1.
  rewrite (Zsum_Permutation _ _ (fmap_Permutation _ _ _ Hparsed)) in H1. lia.
Qed.

Lemma find_melds_order_independent_witness :
  let parsed_hand : list Card :=
    [(5%Z, "hearts"); (13%Z, "spades"); (7%Z, "hearts"); (6%Z, "hearts")] in
  let parsed_hand' : list Card :=
    [(6%Z, "hearts"); (7%Z, "hearts"); (13%Z, "spades"); (5%Z, "hearts")] in
  parsed_hand ≡ₚ parsed_hand'
  ∧ (find_melds parsed_hand).2 = (find_melds parsed_hand').2.
Proof.
  cbn zeta.
  assert ([(5%Z, "hearts"); (13%Z, "spades"); (7%Z, "hearts"); (6%Z, "hearts")]
          ≡ₚ@{Card} [(6%Z, "hearts"); (7%Z, "hearts"); (13%Z, "spades"); (5%Z, "hearts")])
    as Hperm.
  { exact (reverse_Permutation
             [(6%Z, "hearts"); (7%Z, "hearts"); (13%Z, "spades"); (5%Z, "hearts")]). }
  split; [exact Hperm|]. exact (find_melds_order_independent _ _ Hperm).
Defined.

Lemma calculate_deadwood_order_independent_witness :
  let hand := ["5-hearts"; "K-spades"; "7-hearts"; "6-hearts"] in
  let hand' := ["6-hearts"; "7-hearts"; "K-spades"; "5-hearts"] in
  hand ≡ₚ hand' ∧ calculate_deadwood hand = calculate_deadwood hand'.
Proof.
  cbn zeta.
  assert (["5-hearts"; "K-spades"; "7-hearts"; "6-hearts"]
          ≡ₚ ["6-hearts"; "7-hearts"; "K-spades"; "5-hearts"]) as Hperm.
  { exact (reverse_Permutation ["6-hearts"; "7-hearts"; "K-spades"; "5-hearts"]). }
  split; [exact Hperm|]. exact (calculate_deadwood_order_independent _ _ Hperm).
Defined.

(** ** DiscardAdvisor: the visible cards *)

Section AdvisorVisible.
Context {G : Type} (shuffle : list string → G → list string * G).

(** X26: the visible tokens count as a set of deck cards outside the hand:
    their order, their repetitions, the tokens that are no deck card and the
    tokens that are in the hand change nothing in the outcome. *)
Theorem suggest_discard_visible_as_set (request : SuggestRequest)
    (visible' : list string) (g : G) :
  (∀ t, t ∈ build_deck → t ∉ my_hand request →
        (t ∈ visible request ↔ t ∈ visible')) →
  suggest_discard shuffle request g
  = suggest_discard shuffle
      {| my_hand := my_hand request; visible := visible';
         trials := trials request; max_draws := max_draws request |} g.
Proof.
  intros Hvisible. unfold suggest_discard. cbn [my_hand visible trials max_draws].
  assert (unknown_deck_of (list_to_set (my_hand request)) (list_to_set (visible request))
          = unknown_deck_of (list_to_set (my_hand request)) (list_to_set visible'))
    as <-.
  { unfold unknown_deck_of. apply filter_ext_in. intros t Ht.
    rewrite !elem_of_list_to_set. specialize (Hvisible t Ht). tauto. }
  destruct ((filter _ (zip (my_hand request) _)).*1); [|done].
  case_decide; [done|]. case_decide; [done|].
  set (deck := unknown_deck_of _ _). set (cur := calculate_deadwood _).
  assert (∀ cards results g0,
    suggest_loop shuffle request deck cur cards results g0
    = suggest_loop shuffle
        {| my_hand := my_hand request; visible := visible';
           trials := trials request; max_draws := max_draws request |}
        deck cur cards results g0) as Hloop.
  { induction cards as [|c cards IH]; intros results g0; [done|].
    cbn [suggest_loop my_hand visible trials max_draws].
    destruct (simulate_game _ _ _ _ _ _) as [[[avg wp]|e] g1]; [|done].
    apply IH. }
  by rewrite Hloop.
Qed.
End AdvisorVisible.

Lemma suggest_discard_visible_as_set_witness :
  let request :=
    {| my_hand := ["K-spades"; "5-diamonds"];
       visible := ["2-hearts"; "K-spades"; "joker"; "2-hearts"; "A-clubs"];
       trials := 1; max_draws := 1 |} in
  let visible' := ["A-clubs"; "2-hearts"] in
  (∀ t, t ∈ build_deck → t ∉ my_hand request → (t ∈ visible request ↔ t ∈ visible'))
  ∧ suggest_discard Tape.shuffle request [3; 1; 4]
    = suggest_discard Tape.shuffle
        {| my_hand := my_hand request; visible := visible';
           trials := trials request; max_draws := max_draws request |} [3; 1; 4].
Proof.
  cbn zeta. cbn [my_hand visible trials max_draws].
  assert (∀ t, t ∈ build_deck → t ∉ ["K-spades"; "5-diamonds"] →
               (t ∈ ["2-hearts"; "K-spades"; "joker"; "2-hearts"; "A-clubs"]
                ↔ t ∈ ["A-clubs"; "2-hearts"])) as H.
  { intros t Hdeck Hhand. rewrite !elem_of_cons, !elem_of_nil in *.
    split; [intros [->|[->|[->|[->|[->|[]]]]]]|intros [->|[->|[]]]]; try tauto.
    exfalso. revert Hdeck. apply (bool_decide_unpack _). vm_compute. reflexivity. }
  split; [exact H|].
  exact (suggest_discard_visible_as_set Tape.shuffle
           {| my_hand := ["K-spades"; "5-diamonds"];
              visible := ["2-hearts"; "K-spades"; "joker"; "2-hearts"; "A-clubs"];
              trials := 1; max_draws := 1 |} ["A-clubs"; "2-hearts"] [3; 1; 4] H).
Defined.

